(** * Key protection of the GnuPG agent (protect.c): a shallow embedding

    The C functions of protect.c are transcribed as Rocq functions over
    byte buffers.  A buffer is a [list ascii]; a C pointer into a buffer
    is the buffer together with a [nat] offset, so [*s] is [peek b s],
    [s++] is [S s] and [s += n] is [s + n].  A read behind the last byte
    of a buffer yields the NUL byte.  Lengths and offsets are [nat]: the
    embedding covers buffers whose sizes stay below the range of the C
    [int] and [size_t] variables that hold them.  Loops whose trip count
    is not a syntactic bound carry a fuel argument, initialised from the
    buffer length. *)

From Stdlib Require Import Ascii String.
From Stdlib Require Import List Arith Bool Lia ZArith.
From Stdlib Require Import DecimalNat DecimalFacts.
Import ListNotations.

Local Open Scope string_scope.
Local Open Scope char_scope.
Local Open Scope nat_scope.
Local Open Scope list_scope.


(** ** Bytes and buffers *)

Abbreviation byte := ascii (only parsing).

Definition NUL : byte := zero.

Definition lit (s : string) : list byte := list_ascii_of_string s.

Definition byte_eqb (a b : byte) : bool := Ascii.eqb a b.

Fixpoint bytes_eqb (x y : list byte) : bool :=
  match x, y with
  | [], [] => true
  | a :: x', b :: y' => byte_eqb a b && bytes_eqb x' y'
  | _, _ => false
  end.

(** [*(b + i)] *)
Definition peek (b : list byte) (i : nat) : byte := nth i b NUL.

(** The [n] bytes a [memcpy (dst, b + s, n)] reads. *)
Definition read_bytes (b : list byte) (s n : nat) : list byte :=
  map (peek b) (seq s n).

(** [memcpy (b + pos, src, length src)] into an existing buffer [b]. *)
Definition poke_bytes (b : list byte) (pos : nat) (src : list byte) : list byte :=
  firstn pos b ++ src ++ skipn (pos + length src) b.

(** [strlen]: the number of bytes before the first NUL. *)
Fixpoint strlen (l : list byte) : nat :=
  match l with
  | [] => 0
  | c :: l' => if byte_eqb c NUL then 0 else S (strlen l')
  end.

(** util.h: [digitp (p)] is [*(p) >= '0' && *(p) <= '9'], [atoi_1 (p)] is
    [*(p) - '0']. *)
Definition digitp (c : byte) : bool :=
  (48 <=? nat_of_ascii c) && (nat_of_ascii c <=? 57).

Definition atoi_1 (c : byte) : nat := nat_of_ascii c - 48.

(** The characters a [printf ("%d")] emits for a non-negative [int]. *)
Definition digit_char (n : nat) : byte := ascii_of_nat (48 + n).

Fixpoint uint_bytes (d : Decimal.uint) : list byte :=
  match d with
  | Decimal.Nil => []
  | Decimal.D0 d' => digit_char 0 :: uint_bytes d'
  | Decimal.D1 d' => digit_char 1 :: uint_bytes d'
  | Decimal.D2 d' => digit_char 2 :: uint_bytes d'
  | Decimal.D3 d' => digit_char 3 :: uint_bytes d'
  | Decimal.D4 d' => digit_char 4 :: uint_bytes d'
  | Decimal.D5 d' => digit_char 5 :: uint_bytes d'
  | Decimal.D6 d' => digit_char 6 :: uint_bytes d'
  | Decimal.D7 d' => digit_char 7 :: uint_bytes d'
  | Decimal.D8 d' => digit_char 8 :: uint_bytes d'
  | Decimal.D9 d' => digit_char 9 :: uint_bytes d'
  end.

Definition dec (n : nat) : list byte := uint_bytes (Nat.to_uint n).

(** ** Error codes *)

Inductive gnupg_error : Type :=
| GNUPG_Invalid_Sexp
| GNUPG_Unknown_Sexp
| GNUPG_Unsupported_Algorithm
| GNUPG_Unsupported_Protection
| GNUPG_Unsupported_Protocol
| GNUPG_Corrupted_Protection
| GNUPG_Bad_Passphrase
| GNUPG_Invalid_Value
| GNUPG_Out_Of_Core
| GNUPG_Bug
| Gcry_Error (code : nat)   (* a libgcrypt failure, as [map_gcry_err] returns it *)
| No_Return.                (* the C loop does not terminate *)

(** The [int rc] of the C code: [None] is 0. *)
Definition rc_t := option gnupg_error.

Inductive result (A : Type) : Type :=
| Ok (a : A)
| Err (e : gnupg_error).
Arguments Ok {A} a.
Arguments Err {A} e.

Definition bind {A B} (r : result A) (k : A -> result B) : result B :=
  match r with
  | Ok a => k a
  | Err e => Err e
  end.

Notation "x <- r ;; k" := (bind r (fun x => k))
  (at level 61, r at next level, right associativity).
Notation "' p <- r ;; k" := (bind r (fun x => let p := x in k))
  (at level 61, p pattern, r at next level, right associativity).

Definition require (c : bool) (e : gnupg_error) : result unit :=
  if c then Ok tt else Err e.

Definition of_rc (r : rc_t) : result unit :=
  match r with
  | None => Ok tt
  | Some e => Err e
  end.

(** ** The canonical S-expression cursor functions *)

(** The digit loop of [snext]:
    [for (n=0; *s && *s != ':' && digitp (s); s++) n = n*10 + atoi_1 (s);]
    run over the bytes from the cursor on. *)
Fixpoint snext_digits (l : list byte) (n s : nat) : nat * nat :=
  match l with
  | [] => (n, s)
  | c :: l' =>
      if negb (byte_eqb c NUL) && negb (byte_eqb c ":") && digitp c
      then snext_digits l' (n * 10 + atoi_1 c) (S s)
      else (n, s)
  end.

(** [snext (&s)]: the length of the next atom and the cursor behind the
    colon; length 0 and an unchanged cursor on error. *)
Definition snext (b : list byte) (s : nat) : nat * nat :=
  let '(n, s') := snext_digits (skipn s b) 0 s in
  if (n =? 0) || negb (byte_eqb (peek b s') ":")
  then (0, s)
  else (n, S s').

(** [sskip (&s, &depth)]: the loop [while (d > 0)]. *)
Fixpoint sskip_loop (fuel : nat) (b : list byte) (s d : nat) : result (nat * nat) :=
  if d =? 0 then Ok (s, d)
  else
    match fuel with
    | 0 => Err No_Return
    | S fuel' =>
        if byte_eqb (peek b s) "(" then sskip_loop fuel' b (S s) (S d)
        else if byte_eqb (peek b s) ")" then sskip_loop fuel' b (S s) (d - 1)
        else
          let '(n, s1) := snext b s in
          if n =? 0 then Err GNUPG_Invalid_Sexp
          else sskip_loop fuel' b (s1 + n) d
    end.

Definition sskip (b : list byte) (s d : nat) : result (nat * nat) :=
  sskip_loop (S (length b)) b s d.

(** [smatch (&s, buflen, token)]: true and the cursor behind the token,
    or false and the cursor unchanged. *)
Definition smatch (b : list byte) (s buflen : nat) (token : list byte) : bool * nat :=
  let toklen := length token in
  if negb (buflen =? toklen) || negb (bytes_eqb (read_bytes b s toklen) token)
  then (false, s)
  else (true, s + toklen).

(** Modelled from the spec: [gcry_sexp_canon_len] belongs to libgcrypt,
    whose sources are not part of the repository.  Section 4.1: from a
    position at an open paren, compute the total byte length of the
    complete well-formed value; zero on malformation.  Section 3: a value
    is a list or an atom, an atom a decimal length (in canonical form
    without a leading zero), a colon and that many bytes.  A non-zero
    [length] bounds the bytes that may be inspected. *)
Fixpoint canon_loop (fuel : nat) (b : list byte) (length count level : nat) : nat :=
  match fuel with
  | 0 => 0
  | S fuel' =>
      if negb (length =? 0) && (length <=? count) then 0
      else
        let c := peek b count in
        if byte_eqb c "(" then canon_loop fuel' b length (S count) (S level)
        else if byte_eqb c ")" then
          if level <=? 1 then (if level =? 0 then 0 else S count)
          else canon_loop fuel' b length (S count) (level - 1)
        else if digitp c && negb (byte_eqb c "0") then
          let '(n, s1) := snext b count in
          if n =? 0 then 0
          else if negb (length =? 0) && (length <=? (s1 - 1) + n) then 0
          else canon_loop fuel' b length (s1 + n) level
        else 0
  end.

Definition gcry_sexp_canon_len (b : list byte) (length : nat) : nat :=
  if byte_eqb (peek b 0) "(" then canon_loop (S (List.length b)) b length 0 0
  else 0.


Notation "'guard' c 'orelse' e ;; k" := (if c then k else Err e)
  (at level 61, c at level 99, e at level 9, right associativity).

(** ** libgcrypt and the C library

    The digest and cipher primitives are used through their interface:
    [gcry_md_digest a m] is what [gcry_md_read] returns after the bytes
    [m] have been written to a context of algorithm [a] (and what
    [gcry_md_hash_buffer] stores); the cipher functions are AES-128 in
    CBC mode on whole buffers. *)

Class Gcrypt : Type := {
  gcry_md_digest : nat -> list byte -> list byte;
  gcry_md_get_algo_dlen : nat -> nat;
  gcry_cbc_encrypt : list byte -> list byte -> list byte -> list byte;
  gcry_cbc_decrypt : list byte -> list byte -> list byte -> list byte
}.

Definition GCRY_MD_SHA1 : nat := 2.
Definition PROT_CIPHER_KEYLEN : nat := 128 / 8.
(** [gcry_cipher_get_algo_blklen (GCRY_CIPHER_AES)] *)
Definition blklen : nat := 16.

Class GcryptLaws (G : Gcrypt) : Prop := {
  md_digest_length : forall a m,
    length (gcry_md_digest a m) = gcry_md_get_algo_dlen a;
  sha1_dlen : gcry_md_get_algo_dlen GCRY_MD_SHA1 = 20;
  cbc_encrypt_length : forall k iv m,
    length (gcry_cbc_encrypt k iv m) = length m;
  cbc_decrypt_length : forall k iv m,
    length (gcry_cbc_decrypt k iv m) = length m;
  cbc_decrypt_encrypt : forall k iv m,
    length m mod blklen = 0 ->
    gcry_cbc_decrypt k iv (gcry_cbc_encrypt k iv m) = m
}.

(** What a call can get from its environment: which allocations and
    library calls fail, the random bytes, and the bytes found in freshly
    allocated memory. *)
Record Env : Type := {
  gcry_cipher_open_rc : rc_t;
  gcry_cipher_setiv_rc : rc_t;
  gcry_cipher_setkey_rc : rc_t;
  gcry_cipher_crypt_rc : rc_t;
  gcry_md_open_rc : rc_t;
  gcry_malloc_secure_ok : nat -> bool;
  xtrymalloc_ok : nat -> bool;
  asprintf_ok : bool;
  gcry_random_bytes : nat -> option (list byte);
  uninit : nat -> byte
}.

(** A block of [n] allocated bytes of which the first [length written]
    have been filled in. *)
Definition heap_block (e : Env) (n : nat) (written : list byte) : list byte :=
  written ++ map (uninit e) (seq (length written) (n - length written)).

(** A C pointer held in a caller's variable. *)
Inductive cptr : Type :=
| NullPtr
| Ptr (block : list byte).

(** ISO C [strtoul (s, NULL, 10)]: white space, an optional sign, decimal
    digits; [ULONG_MAX] when out of range. *)
Definition isspace (c : byte) : bool :=
  let n := nat_of_ascii c in (n =? 32) || ((9 <=? n) && (n <=? 13)).

Fixpoint skip_space (l : list byte) : list byte :=
  match l with
  | c :: l' => if isspace c then skip_space l' else l
  | [] => []
  end.

Fixpoint strtoul_digits (l : list byte) (acc : Z) : Z :=
  match l with
  | c :: l' => if digitp c then strtoul_digits l' (acc * 10 + Z.of_nat (atoi_1 c))%Z
               else acc
  | [] => acc
  end.

Definition ULONG_MAX : Z := (2 ^ 64 - 1)%Z.

Definition strtoul (b : list byte) (s : nat) : Z :=
  let l := skip_space (skipn s b) in
  let '(neg, l) :=
    match l with
    | c :: l' => if byte_eqb c "-" then (true, l')
                 else if byte_eqb c "+" then (false, l') else (false, l)
    | [] => (false, l)
    end in
  let v := strtoul_digits l 0 in
  if (ULONG_MAX <? v)%Z then ULONG_MAX
  else if neg then ((2 ^ 64 - v) mod 2 ^ 64)%Z else v.

(** ** hash_passphrase *)

(** [count = (16ul + (s2kcount & 15)) << ((s2kcount >> 4) + 6)] in
    64-bit [unsigned long] arithmetic. *)
Definition s2k_decode_count (s2kcount : Z) : Z :=
  (Z.shiftl (16 + Z.land s2kcount 15) (Z.shiftr s2kcount 4 + 6) mod 2 ^ 64)%Z.

(** [while (count > len2) { gcry_md_write (md, s2ksalt, 8);
    gcry_md_write (md, passphrase, pwlen); count -= len2; }]
    The loop hands back the bytes it writes to the digest context, in
    the order of the writes, and the count it leaves. *)
Fixpoint s2k_feed (fuel : nat) (s2ksalt : list byte * nat)
         (passphrase : list byte) (pwlen : nat) (len2 count : Z)
  : result (list byte * Z) :=
  if (len2 <? count)%Z then
    match fuel with
    | 0 => Err No_Return
    | S fuel' =>
        '(written, count) <-
          s2k_feed fuel' s2ksalt passphrase pwlen len2 (count - len2)%Z ;;
        Ok (read_bytes (fst s2ksalt) (snd s2ksalt) 8
            ++ read_bytes passphrase 0 pwlen ++ written, count)
    end
  else Ok ([], count).

(** The content of the digest context [md] at the end of one pass: the
    preset zero bytes [md] followed by everything written. *)
Definition s2k_material (passphrase : list byte) (s2kmode : nat)
           (s2ksalt : list byte * nat) (s2kcount : Z) (md : list byte)
  : result (list byte) :=
  let pwlen := strlen passphrase in
  if (s2kmode =? 1) || (s2kmode =? 3) then
    let len2 := (Z.of_nat pwlen + 8)%Z in
    let count := len2 in
    let count :=
      if s2kmode =? 3 then
        let count := s2k_decode_count s2kcount in
        if (count <? len2)%Z then len2 else count
      else count in
    '(written, count) <-
      s2k_feed (Z.to_nat count) s2ksalt passphrase pwlen len2 count ;;
    if (count <? 8)%Z
    then Ok (md ++ written
             ++ read_bytes (fst s2ksalt) (snd s2ksalt) (Z.to_nat count))
    else
      Ok (md ++ written ++ read_bytes (fst s2ksalt) (snd s2ksalt) 8
          ++ read_bytes passphrase 0 (Z.to_nat (count - 8)))
  else Ok (md ++ read_bytes passphrase 0 pwlen).

(** [for (pass=0; used < keylen; pass++)]; the state is the pass number,
    [used] and the bytes stored in [key] so far. *)
Fixpoint hash_passphrase_loop {G : Gcrypt} (fuel : nat) (passphrase : list byte)
         (hashalgo s2kmode : nat) (s2ksalt : list byte * nat) (s2kcount : Z)
         (keylen pass used : nat) (key : list byte)
  : result (nat * nat * list byte) :=
  if used <? keylen then
    match fuel with
    | 0 => Err No_Return
    | S fuel' =>
        (* gcry_md_reset and [pass] times gcry_md_putc (md, 0) *)
        let md := repeat NUL pass in
        md <- s2k_material passphrase s2kmode s2ksalt s2kcount md ;;
        (* gcry_md_final *)
        let i := gcry_md_get_algo_dlen hashalgo in
        let i := if keylen - used <? i then keylen - used else i in
        let key := key ++ read_bytes (gcry_md_digest hashalgo md) 0 i in
        hash_passphrase_loop fuel' passphrase hashalgo s2kmode s2ksalt s2kcount
                             keylen (S pass) (used + i) key
    end
  else Ok (pass, used, key).

Definition hash_passphrase {G : Gcrypt} (e : Env) (passphrase : list byte)
           (hashalgo s2kmode : nat) (s2ksalt : option (list byte * nat))
           (s2kcount : Z) (keylen : nat) : result (list byte) :=
  guard negb ((negb (s2kmode =? 0) && negb (s2kmode =? 1) && negb (s2kmode =? 3))
              || (hashalgo =? 0) || (keylen =? 0))
    orelse GNUPG_Invalid_Value ;;
  match s2ksalt with
  | None =>
      guard negb ((s2kmode =? 1) || (s2kmode =? 3)) orelse GNUPG_Invalid_Value ;;
      _ <- of_rc (gcry_md_open_rc e) ;;
      '(_, _, key) <- hash_passphrase_loop keylen passphrase hashalgo s2kmode
                        ([], 0) s2kcount keylen 0 0 [] ;;
      Ok key
  | Some salt =>
      _ <- of_rc (gcry_md_open_rc e) ;;
      '(_, _, key) <- hash_passphrase_loop keylen passphrase hashalgo s2kmode
                        salt s2kcount keylen 0 0 [] ;;
      Ok key
  end.

(** ** calculate_mic *)

(** The loop shared word for word by [calculate_mic] and [merge_lists]:
    a [while] loop that runs as long as the cursor is at an open paren and
    whose body is [s++; n = snext (&s); ... s += n; n = snext (&s); ...
    s += n;], the test for the closing paren, and [s++]. *)
Fixpoint pair_loop (fuel : nat) (b : list byte) (s : nat) : result nat :=
  if byte_eqb (peek b s) "(" then
    match fuel with
    | 0 => Err No_Return
    | S fuel' =>
        let s := S s in
        let '(n, s) := snext b s in
        guard negb (n =? 0) orelse GNUPG_Invalid_Sexp ;;
        let s := s + n in
        let '(n, s) := snext b s in
        guard negb (n =? 0) orelse GNUPG_Invalid_Sexp ;;
        let s := s + n in
        guard byte_eqb (peek b s) ")" orelse GNUPG_Invalid_Sexp ;;
        pair_loop fuel' b (S s)
    end
  else Ok s.

(** The span [calculate_mic] hashes: [hash_begin] and [hash_end]. *)
Definition mic_span (plainkey : list byte) : result (nat * nat) :=
  let s := 0 in
  guard byte_eqb (peek plainkey s) "(" orelse GNUPG_Invalid_Sexp ;;
  let s := S s in
  let '(n, s) := snext plainkey s in
  guard negb (n =? 0) orelse GNUPG_Invalid_Sexp ;;
  let '(m, s) := smatch plainkey s n (lit "private-key") in
  guard m orelse GNUPG_Unknown_Sexp ;;
  guard byte_eqb (peek plainkey s) "(" orelse GNUPG_Unknown_Sexp ;;
  let hash_begin := s in
  let s := S s in
  let '(n, s) := snext plainkey s in
  guard negb (n =? 0) orelse GNUPG_Invalid_Sexp ;;
  let s := s + n in
  s <- pair_loop (S (length plainkey)) plainkey s ;;
  guard byte_eqb (peek plainkey s) ")" orelse GNUPG_Invalid_Sexp ;;
  let s := S s in
  let hash_end := s in
  Ok (hash_begin, hash_end).

Definition calculate_mic {G : Gcrypt} (plainkey : list byte) : result (list byte) :=
  '(hash_begin, hash_end) <- mic_span plainkey ;;
  Ok (gcry_md_digest GCRY_MD_SHA1
        (read_bytes plainkey hash_begin (hash_end - hash_begin))).

(** ** The protection table *)

Record protect_info_t : Type := {
  algo : list byte;
  parmlist : list byte;
  prot_from : nat;
  prot_to : nat
}.

Definition protect_info : list protect_info_t :=
  [ {| algo := lit "rsa"; parmlist := lit "nedpqu"; prot_from := 2; prot_to := 5 |} ].

(** [for (infidx=0; protect_info[infidx].algo
          && !smatch (&s, n, protect_info[infidx].algo); infidx++) ;] *)
Fixpoint find_algo (tbl : list protect_info_t) (b : list byte) (s n : nat)
  : option (protect_info_t * nat) :=
  match tbl with
  | [] => None
  | info :: tbl' =>
      let '(m, s') := smatch b s n (algo info) in
      if m then Some (info, s') else find_algo tbl' b s n
  end.

(** ** agent_protect *)

(** [for (i=0; (c=protect_info[infidx].parmlist[i]); i++)] *)
Fixpoint protect_parms (parms : list byte) (i : nat) (info : protect_info_t)
         (b : list byte) (s : nat) (prot_begin prot_end : option nat)
  : result (nat * option nat * option nat) :=
  match parms with
  | [] => Ok (s, prot_begin, prot_end)
  | c :: parms' =>
      let prot_begin := if i =? prot_from info then Some s else prot_begin in
      guard byte_eqb (peek b s) "(" orelse GNUPG_Invalid_Sexp ;;
      let s := S s in
      let '(n, s) := snext b s in
      guard negb (n =? 0) orelse GNUPG_Invalid_Sexp ;;
      guard negb (negb (n =? 1) || negb (byte_eqb c (peek b s))) orelse GNUPG_Invalid_Sexp ;;
      let s := s + n in
      let '(n, s) := snext b s in
      guard negb (n =? 0) orelse GNUPG_Invalid_Sexp ;;
      let s := s + n in
      guard byte_eqb (peek b s) ")" orelse GNUPG_Invalid_Sexp ;;
      let prot_end := if i =? prot_to info then Some s else prot_end in
      let s := S s in
      protect_parms parms' (S i) info b s prot_begin prot_end
  end.

(** The cursor positions [agent_protect] records while it walks the key. *)
Record protect_scan : Type := {
  hash_begin : nat;
  hash_end : nat;
  prot_begin : nat;
  prot_end : nat;
  real_end : nat
}.

Definition agent_protect_scan (plainkey : list byte) : result protect_scan :=
  let s := 0 in
  guard byte_eqb (peek plainkey s) "(" orelse GNUPG_Invalid_Sexp ;;
  let depth := 1 in
  let s := S s in
  let '(n, s) := snext plainkey s in
  guard negb (n =? 0) orelse GNUPG_Invalid_Sexp ;;
  let '(m, s) := smatch plainkey s n (lit "private-key") in
  guard m orelse GNUPG_Unknown_Sexp ;;
  guard byte_eqb (peek plainkey s) "(" orelse GNUPG_Unknown_Sexp ;;
  let depth := S depth in
  let hash_begin := s in
  let s := S s in
  let '(n, s) := snext plainkey s in
  guard negb (n =? 0) orelse GNUPG_Invalid_Sexp ;;
  match find_algo protect_info plainkey s n with
  | None => Err GNUPG_Unsupported_Algorithm
  | Some (info, s) =>
      '(s, prot_begin, prot_end) <-
        protect_parms (parmlist info) 0 info plainkey s None None ;;
      guard byte_eqb (peek plainkey s) ")" orelse GNUPG_Invalid_Sexp ;;
      match prot_begin, prot_end with
      | Some prot_begin, Some prot_end =>
          let depth := depth - 1 in
          let hash_end := s in
          let s := S s in
          (* skip to the end of the S-exp *)
          '(s, depth) <- sskip plainkey s depth ;;
          let real_end := s - 1 in
          Ok {| hash_begin := hash_begin; hash_end := hash_end;
                prot_begin := prot_begin; prot_end := prot_end;
                real_end := real_end |}
      | _, _ => Err GNUPG_Invalid_Sexp
      end
  end.

(** The MIC [agent_protect] computes inline:
    [gcry_md_hash_buffer (GCRY_MD_SHA1, hashvalue, hash_begin,
    hash_end - hash_begin + 1)]. *)
Definition protect_mic {G : Gcrypt} (plainkey : list byte) (sc : protect_scan)
  : list byte :=
  gcry_md_digest GCRY_MD_SHA1
    (read_bytes plainkey (hash_begin sc) (hash_end sc - hash_begin sc + 1)).

Definition modestr : list byte :=
  lit "openpgp-s2k3-sha1-" ++ lit "aes" ++ lit "-cbc".

(** The string [asprintf] builds from
    ["(9:protected%d:%s((4:sha18:%n_8bytes_2:96)%d:%n%*s)%d:%n%*s)"],
    with the three offsets the [%n] conversions store. *)
Definition asprintf_protected (enclen : nat) : list byte * nat * nat * nat :=
  let p := lit "(9:protected" ++ dec (strlen modestr) ++ lit ":" ++ modestr
           ++ lit "((4:sha18:" in
  let saltpos := length p in
  let p := p ++ lit "_8bytes_2:96)" ++ dec blklen ++ lit ":" in
  let ivpos := length p in
  let p := p ++ repeat " " blklen ++ lit ")" ++ dec enclen ++ lit ":" in
  let encpos := length p in
  let p := p ++ repeat " " enclen ++ lit ")" in
  (p, saltpos, ivpos, encpos).

(** [do_encryption]: the result block and [*resultlen]. *)
Definition do_encryption {G : Gcrypt} (e : Env) (protbegin : list byte * nat)
           (protlen : nat) (passphrase sha1hash : list byte)
  : result (list byte * nat) :=
  _ <- of_rc (gcry_cipher_open_rc e) ;;
  let outlen := 2 + protlen + 2 + 6 + 6 + 23 + 2 + blklen in
  let enclen := outlen / blklen * blklen in
  guard gcry_malloc_secure_ok e outlen orelse GNUPG_Out_Of_Core ;;
  match gcry_random_bytes e (blklen * 2 + 8) with
  | None => Err GNUPG_Out_Of_Core
  | Some iv =>
      _ <- of_rc (gcry_cipher_setiv_rc e) ;;
      let keylen := PROT_CIPHER_KEYLEN in
      guard gcry_malloc_secure_ok e keylen orelse GNUPG_Out_Of_Core ;;
      key <- hash_passphrase e passphrase GCRY_MD_SHA1 3
               (Some (iv, 2 * blklen)) 96%Z keylen ;;
      _ <- of_rc (gcry_cipher_setkey_rc e) ;;
      let outbuf := lit "((" ++ read_bytes (fst protbegin) (snd protbegin) protlen
                    ++ lit ")(4:hash4:sha120:" ++ read_bytes sha1hash 0 20
                    ++ lit "))" ++ read_bytes iv blklen blklen in
      _ <- of_rc (gcry_cipher_crypt_rc e) ;;
      let outbuf := gcry_cbc_encrypt (read_bytes key 0 keylen) (read_bytes iv 0 blklen)
                      (read_bytes outbuf 0 enclen) ++ skipn enclen outbuf in
      guard asprintf_ok e orelse GNUPG_Out_Of_Core ;;
      let '(psave, saltpos, ivpos, encpos) := asprintf_protected enclen in
      guard xtrymalloc_ok e (strlen psave + 1) orelse GNUPG_Out_Of_Core ;;
      let p := read_bytes psave 0 (strlen psave) ++ [NUL] in
      let resultlen := strlen p in
      let p := poke_bytes p saltpos (read_bytes iv (2 * blklen) 8) in
      let p := poke_bytes p ivpos (read_bytes iv 0 blklen) in
      let p := poke_bytes p encpos (read_bytes outbuf 0 enclen) in
      Ok (p, resultlen)
  end.

(** The caller's [result] and [resultlen] variables are passed in and
    handed back, so that a store into them can be told from none. *)
Definition agent_protect {G : Gcrypt} (e : Env) (plainkey passphrase : list byte)
           (out : cptr * nat) : rc_t * (cptr * nat) :=
  match agent_protect_scan plainkey with
  | Err rc => (Some rc, out)
  | Ok sc =>
      let hashvalue := protect_mic plainkey sc in
      match do_encryption e (plainkey, prot_begin sc)
                          (prot_end sc - prot_begin sc + 1) passphrase hashvalue with
      | Err rc => (Some rc, out)
      | Ok (protected, protectedlen) =>
          let resultlen := 10 + prot_begin sc + protectedlen
                           + (real_end sc - prot_end sc) in
          if xtrymalloc_ok e resultlen then
            let p := lit "(21:protected-" in
            let p := p ++ read_bytes plainkey 4 (prot_begin sc - 0 - 4) in
            let p := p ++ read_bytes protected 0 protectedlen in
            let p := p ++ read_bytes plainkey (prot_end sc + 1)
                                     (real_end sc - prot_end sc) in
            (None, (Ptr p, resultlen))
          else (Some GNUPG_Out_Of_Core, (NullPtr, resultlen))
      end
  end.

(** ** agent_unprotect *)

Definition do_decryption {G : Gcrypt} (e : Env) (protected : list byte * nat)
           (protectedlen : nat) (passphrase : list byte)
           (s2ksalt : list byte * nat) (s2kcount : Z)
           (iv : list byte * nat) (ivlen : nat) : result (list byte) :=
  guard negb ((protectedlen <? 4) || negb (protectedlen mod blklen =? 0))
    orelse GNUPG_Corrupted_Protection ;;
  _ <- of_rc (gcry_cipher_open_rc e) ;;
  guard gcry_malloc_secure_ok e protectedlen orelse GNUPG_Out_Of_Core ;;
  _ <- of_rc (gcry_cipher_setiv_rc e) ;;
  let keylen := PROT_CIPHER_KEYLEN in
  guard gcry_malloc_secure_ok e keylen orelse GNUPG_Out_Of_Core ;;
  key <- hash_passphrase e passphrase GCRY_MD_SHA1 3 (Some s2ksalt) s2kcount keylen ;;
  _ <- of_rc (gcry_cipher_setkey_rc e) ;;
  _ <- of_rc (gcry_cipher_crypt_rc e) ;;
  let outbuf := gcry_cbc_decrypt (read_bytes key 0 keylen)
                  (read_bytes (fst iv) (snd iv) ivlen)
                  (read_bytes (fst protected) (snd protected) protectedlen) in
  (* do a quick check first *)
  guard negb (negb (byte_eqb (peek outbuf 0) "(") && negb (byte_eqb (peek outbuf 1) "("))
    orelse GNUPG_Bad_Passphrase ;;
  (* check that we have a consistent S-Exp *)
  let reallen := gcry_sexp_canon_len outbuf protectedlen in
  guard negb ((reallen =? 0) || (reallen + blklen <? protectedlen))
    orelse GNUPG_Bad_Passphrase ;;
  Ok outbuf.

(** [merge_lists]: the MIC found in the cleartext and the new list. *)
Definition merge_lists (e : Env) (protectedkey : list byte) (replacepos : nat)
           (cleartext : list byte) : result (list byte * list byte) :=
  guard negb (replacepos <? 26) orelse GNUPG_Bug ;;
  let newlistlen := gcry_sexp_canon_len protectedkey 0 in
  guard negb (newlistlen =? 0) orelse GNUPG_Bug ;;
  let n := gcry_sexp_canon_len cleartext 0 in
  guard negb (n =? 0) orelse GNUPG_Bug ;;
  let newlistlen := newlistlen + n in
  guard gcry_malloc_secure_ok e newlistlen orelse GNUPG_Out_Of_Core ;;
  (* Copy the initial segment *)
  let p := lit "(11:private-key" in
  let p := p ++ read_bytes protectedkey (15 + 10) (replacepos - 15 - 10) in
  (* copy the cleartext *)
  let s := 0 in
  guard negb (negb (byte_eqb (peek cleartext s) "(")
              && negb (byte_eqb (peek cleartext (s + 1)) "("))
    orelse GNUPG_Bug ;;
  let s := s + 2 in
  let startpos := s in
  s <- pair_loop (S (length cleartext)) cleartext s ;;
  guard byte_eqb (peek cleartext s) ")" orelse GNUPG_Invalid_Sexp ;;
  let endpos := s in
  let s := S s in
  (* short intermezzo: Get the MIC *)
  guard byte_eqb (peek cleartext s) "(" orelse GNUPG_Invalid_Sexp ;;
  let s := S s in
  let '(n, s) := snext cleartext s in
  let '(m, s) := smatch cleartext s n (lit "hash") in
  guard m orelse GNUPG_Invalid_Sexp ;;
  let '(n, s) := snext cleartext s in
  let '(m, s) := smatch cleartext s n (lit "sha1") in
  guard m orelse GNUPG_Invalid_Sexp ;;
  let '(n, s) := snext cleartext s in
  guard n =? 20 orelse GNUPG_Invalid_Sexp ;;
  let sha1hash := read_bytes cleartext s 20 in
  let s := s + n in
  guard byte_eqb (peek cleartext s) ")" orelse GNUPG_Invalid_Sexp ;;
  (* append the parameter list *)
  let p := p ++ read_bytes cleartext startpos (endpos - startpos) in
  (* skip over the protected list element in the original list *)
  let s := replacepos in
  let s := S s in
  '(s, i) <- sskip protectedkey s 1 ;;
  let startpos := s in
  '(s, i) <- sskip protectedkey s 2 ;;
  let endpos := s in
  (* append the rest *)
  let p := p ++ read_bytes protectedkey startpos (endpos - startpos) in
  Ok (sha1hash, heap_block e newlistlen p).

(** The [for (;;)] loop of [agent_unprotect] that looks for the list
    named [protected]: [prot_begin] and the cursor behind the name. *)
Fixpoint find_protected (fuel : nat) (b : list byte) (s : nat) : result (nat * nat) :=
  match fuel with
  | 0 => Err No_Return
  | S fuel' =>
      guard byte_eqb (peek b s) "(" orelse GNUPG_Invalid_Sexp ;;
      let prot_begin := s in
      let s := S s in
      let '(n, s) := snext b s in
      guard negb (n =? 0) orelse GNUPG_Invalid_Sexp ;;
      let '(m, s) := smatch b s n (lit "protected") in
      if m then Ok (prot_begin, s)
      else
        let s := s + n in
        '(s, i) <- sskip b s 1 ;;
        find_protected fuel' b s
  end.

(** What [agent_unprotect] has parsed when it calls [do_decryption]. *)
Record unprotect_scan : Type := {
  u_prot_begin : nat;
  u_s2ksalt : nat;
  u_s2kcount : Z;
  u_iv : nat;
  u_protected : nat;
  u_protectedlen : nat
}.

(** The statements of [agent_unprotect] behind the comment [found]: the
    fields of the list named [protected]. *)
Definition unprotect_protected_list (protectedkey : list byte) (prot_begin s : nat)
  : result unprotect_scan :=
  let '(n, s) := snext protectedkey s in
  guard negb (n =? 0) orelse GNUPG_Invalid_Sexp ;;
  let '(m, s) := smatch protectedkey s n modestr in
  guard m orelse GNUPG_Unsupported_Protection ;;
  guard negb (negb (byte_eqb (peek protectedkey s) "(")
              || negb (byte_eqb (peek protectedkey (s + 1)) "("))
    orelse GNUPG_Invalid_Sexp ;;
  let s := s + 2 in
  let '(n, s) := snext protectedkey s in
  guard negb (n =? 0) orelse GNUPG_Invalid_Sexp ;;
  let '(m, s) := smatch protectedkey s n (lit "sha1") in
  guard m orelse GNUPG_Unsupported_Protection ;;
  let '(n, s) := snext protectedkey s in
  guard n =? 8 orelse GNUPG_Corrupted_Protection ;;
  let s2ksalt := s in
  let s := s + n in
  let '(n, s) := snext protectedkey s in
  guard negb (n =? 0) orelse GNUPG_Corrupted_Protection ;;
  guard byte_eqb (peek protectedkey (s + n)) ")" orelse GNUPG_Invalid_Sexp ;;
  let s2kcount := strtoul protectedkey s in
  guard negb (s2kcount =? 0)%Z orelse GNUPG_Corrupted_Protection ;;
  let s := s + n in
  let s := S s in (* skip list end *)
  let '(n, s) := snext protectedkey s in
  guard n =? 16 orelse GNUPG_Corrupted_Protection ;;
  let iv := s in
  let s := s + n in
  guard byte_eqb (peek protectedkey s) ")" orelse GNUPG_Invalid_Sexp ;;
  let s := S s in
  let '(n, s) := snext protectedkey s in
  guard negb (n =? 0) orelse GNUPG_Invalid_Sexp ;;
  Ok {| u_prot_begin := prot_begin; u_s2ksalt := s2ksalt;
        u_s2kcount := s2kcount; u_iv := iv;
        u_protected := s; u_protectedlen := n |}.

(** The statements of [agent_unprotect] up to the comment [found]:
    [prot_begin] and the cursor behind the name [protected]. *)
Definition unprotect_find (protectedkey : list byte) : result (nat * nat) :=
  let s := 0 in
  guard byte_eqb (peek protectedkey s) "(" orelse GNUPG_Invalid_Sexp ;;
  let s := S s in
  let '(n, s) := snext protectedkey s in
  guard negb (n =? 0) orelse GNUPG_Invalid_Sexp ;;
  let '(m, s) := smatch protectedkey s n (lit "protected-private-key") in
  guard m orelse GNUPG_Unknown_Sexp ;;
  guard byte_eqb (peek protectedkey s) "(" orelse GNUPG_Unknown_Sexp ;;
  let s := S s in
  let '(n, s) := snext protectedkey s in
  guard negb (n =? 0) orelse GNUPG_Invalid_Sexp ;;
  match find_algo protect_info protectedkey s n with
  | None => Err GNUPG_Unsupported_Algorithm
  | Some (info, s) =>
      find_protected (S (length protectedkey)) protectedkey s
  end.

Definition agent_unprotect_scan (protectedkey : list byte) : result unprotect_scan :=
  '(prot_begin, s) <- unprotect_find protectedkey ;;
  (* found *)
  unprotect_protected_list protectedkey prot_begin s.

(** Everything [agent_unprotect] does before it stores its results. *)
Definition agent_unprotect_final {G : Gcrypt} (e : Env)
           (protectedkey passphrase : list byte) : result (list byte) :=
  u <- agent_unprotect_scan protectedkey ;;
  cleartext <- do_decryption e (protectedkey, u_protected u) (u_protectedlen u)
                 passphrase (protectedkey, u_s2ksalt u) (u_s2kcount u)
                 (protectedkey, u_iv u) 16 ;;
  '(sha1hash, final) <- merge_lists e protectedkey (u_prot_begin u - 0) cleartext ;;
  sha1hash2 <- calculate_mic final ;;
  guard bytes_eqb (read_bytes sha1hash 0 20) (read_bytes sha1hash2 0 20)
    orelse GNUPG_Corrupted_Protection ;;
  Ok final.

Definition agent_unprotect {G : Gcrypt} (e : Env)
           (protectedkey passphrase : list byte) (out : cptr * nat)
  : rc_t * (cptr * nat) :=
  match agent_unprotect_final e protectedkey passphrase with
  | Err rc => (Some rc, out)
  | Ok final => (None, (Ptr final, gcry_sexp_canon_len final 0))
  end.

(** The buffer a caller holds after a call: the first [resultlen] bytes
    of the block [result] points to. *)
Definition returned_buffer (out : cptr * nat) : list byte :=
  match fst out with
  | NullPtr => []
  | Ptr block => read_bytes block 0 (snd out)
  end.

(** ** agent_private_key_type *)

Inductive private_key_type : Type :=
| PRIVATE_KEY_UNKNOWN
| PRIVATE_KEY_CLEAR
| PRIVATE_KEY_PROTECTED
| PRIVATE_KEY_SHADOWED.

Definition agent_private_key_type (privatekey : list byte) : private_key_type :=
  let s := 0 in
  if negb (byte_eqb (peek privatekey s) "(") then PRIVATE_KEY_UNKNOWN
  else
    let s := S s in
    let '(n, s) := snext privatekey s in
    if n =? 0 then PRIVATE_KEY_UNKNOWN
    else if fst (smatch privatekey s n (lit "protected-private-key"))
         then PRIVATE_KEY_PROTECTED
    else if fst (smatch privatekey s n (lit "shadowed-private-key"))
         then PRIVATE_KEY_SHADOWED
    else if fst (smatch privatekey s n (lit "private-key"))
         then PRIVATE_KEY_CLEAR
    else PRIVATE_KEY_UNKNOWN.

(** ** agent_shadow_key and agent_get_shadow_info *)

(** The [while] loop of [agent_shadow_key], which runs until the byte
    under the cursor is a closing paren. *)
Fixpoint shadow_loop (fuel : nat) (b : list byte) (s : nat) : result nat :=
  if negb (byte_eqb (peek b s) ")") then
    match fuel with
    | 0 => Err No_Return
    | S fuel' =>
        guard byte_eqb (peek b s) "(" orelse GNUPG_Invalid_Sexp ;;
        let s := S s in
        let '(n, s) := snext b s in
        guard negb (n =? 0) orelse GNUPG_Invalid_Sexp ;;
        let s := s + n in
        let '(n, s) := snext b s in
        guard negb (n =? 0) orelse GNUPG_Invalid_Sexp ;;
        let s := s + n in (* skip value *)
        guard byte_eqb (peek b s) ")" orelse GNUPG_Invalid_Sexp ;;
        let s := S s in
        shadow_loop fuel' b s
    end
  else Ok s.

(** The position [point] at which the shadow list is inserted. *)
Definition agent_shadow_point (pubkey : list byte) : result nat :=
  let s := 0 in
  guard byte_eqb (peek pubkey s) "(" orelse GNUPG_Invalid_Sexp ;;
  let s := S s in
  let '(n, s) := snext pubkey s in
  guard negb (n =? 0) orelse GNUPG_Invalid_Sexp ;;
  let '(m, s) := smatch pubkey s n (lit "public-key") in
  guard m orelse GNUPG_Unknown_Sexp ;;
  guard byte_eqb (peek pubkey s) "(" orelse GNUPG_Unknown_Sexp ;;
  let s := S s in
  let '(n, s) := snext pubkey s in
  guard negb (n =? 0) orelse GNUPG_Invalid_Sexp ;;
  let s := s + n in (* skip over the algorithm name *)
  shadow_loop (S (length pubkey)) pubkey s.

Definition agent_shadow_key (e : Env) (pubkey shadow_info : list byte)
           (out : cptr) : rc_t * cptr :=
  let pubkey_len := gcry_sexp_canon_len pubkey 0 in
  let shadow_info_len := gcry_sexp_canon_len shadow_info 0 in
  if (pubkey_len =? 0) || (shadow_info_len =? 0) then (Some GNUPG_Invalid_Value, out)
  else
    match agent_shadow_point pubkey with
    | Err rc => (Some rc, out)
    | Ok point =>
        let n := 12 + pubkey_len + 1 + 3 + 8 + 2 + 5 + shadow_info_len + 1 in
        if xtrymalloc_ok e n then
          let p := lit "(20:shadowed-private-key" in
          let p := p ++ read_bytes pubkey 14 (point - (0 + 14)) in
          let p := p ++ lit "(8:shadowed5:t1-v1" in
          let p := p ++ read_bytes shadow_info 0 shadow_info_len in
          let p := p ++ [")"] in
          let p := p ++ read_bytes pubkey point (pubkey_len - (point - 0)) in
          (None, Ptr (heap_block e n p))
        else (Some GNUPG_Out_Of_Core, NullPtr)
    end.

(** The [for (;;)] loop of [agent_get_shadow_info]: the cursor behind the
    name [shadowed]. *)
Fixpoint find_shadowed (fuel : nat) (b : list byte) (s : nat) : result nat :=
  match fuel with
  | 0 => Err No_Return
  | S fuel' =>
      guard negb (byte_eqb (peek b s) ")") orelse GNUPG_Unknown_Sexp ;;
      guard byte_eqb (peek b s) "(" orelse GNUPG_Invalid_Sexp ;;
      let s := S s in
      let '(n, s) := snext b s in
      guard negb (n =? 0) orelse GNUPG_Invalid_Sexp ;;
      let '(m, s) := smatch b s n (lit "shadowed") in
      if m then Ok s
      else
        let s := s + n in
        let '(n, s) := snext b s in
        guard negb (n =? 0) orelse GNUPG_Invalid_Sexp ;;
        let s := s + n in (* skip value *)
        guard byte_eqb (peek b s) ")" orelse GNUPG_Invalid_Sexp ;;
        let s := S s in
        find_shadowed fuel' b s
  end.

(** [*shadow_info] is returned as an offset into [shadowkey]. *)
Definition agent_get_shadow_info (shadowkey : list byte) : result nat :=
  let s := 0 in
  guard byte_eqb (peek shadowkey s) "(" orelse GNUPG_Invalid_Sexp ;;
  let s := S s in
  let '(n, s) := snext shadowkey s in
  guard negb (n =? 0) orelse GNUPG_Invalid_Sexp ;;
  let '(m, s) := smatch shadowkey s n (lit "shadowed-private-key") in
  guard m orelse GNUPG_Unknown_Sexp ;;
  guard byte_eqb (peek shadowkey s) "(" orelse GNUPG_Unknown_Sexp ;;
  let s := S s in
  let '(n, s) := snext shadowkey s in
  guard negb (n =? 0) orelse GNUPG_Invalid_Sexp ;;
  let s := s + n in (* skip over the algorithm name *)
  s <- find_shadowed (S (length shadowkey)) shadowkey s ;;
  (* found the shadowed list, s points to the protocol *)
  let '(n, s) := snext shadowkey s in
  guard negb (n =? 0) orelse GNUPG_Invalid_Sexp ;;
  let '(m, s) := smatch shadowkey s n (lit "t1-v1") in
  if m then
    guard byte_eqb (peek shadowkey s) "(" orelse GNUPG_Invalid_Sexp ;;
    Ok s
  else Err GNUPG_Unsupported_Protocol.

(** ** The classification as section 3 of the specification words it *)





(** ** A small instance of the library interface, to run the functions

    The digest is a 20-byte XOR checksum and the cipher XORs every byte with
    the first key byte; both are only meant to execute the embedding on
    concrete buffers. *)
Definition xor_byte (a b : byte) : byte :=
  match a, b with
  | Ascii a0 a1 a2 a3 a4 a5 a6 a7, Ascii b0 b1 b2 b3 b4 b5 b6 b7 =>
      Ascii (xorb a0 b0) (xorb a1 b1) (xorb a2 b2) (xorb a3 b3)
            (xorb a4 b4) (xorb a5 b5) (xorb a6 b6) (xorb a7 b7)
  end.

Definition toy_sum (m : list byte) : byte :=
  fold_left xor_byte m "*"%char.

Definition toy_digest (a : nat) (m : list byte) : list byte :=
  map (fun i => xor_byte (toy_sum m) (ascii_of_nat (i * 13 + a))) (seq 0 20).

Definition toy_crypt (k iv m : list byte) : list byte :=
  map (xor_byte (peek k 0)) m.

Definition toy_gcrypt : Gcrypt := {|
  gcry_md_digest := toy_digest;
  gcry_md_get_algo_dlen := fun _ => 20;
  gcry_cbc_encrypt := toy_crypt;
  gcry_cbc_decrypt := toy_crypt
|}.

(** An environment in which no allocation and no library call fails. *)
Definition quiet_env : Env := {|
  gcry_cipher_open_rc := None;
  gcry_cipher_setiv_rc := None;
  gcry_cipher_setkey_rc := None;
  gcry_cipher_crypt_rc := None;
  gcry_md_open_rc := None;
  gcry_malloc_secure_ok := fun _ => true;
  xtrymalloc_ok := fun _ => true;
  asprintf_ok := true;
  gcry_random_bytes := fun n => Some (map (fun i => ascii_of_nat (40 + i)) (seq 0 n));
  uninit := fun _ => "("%char
|}.

(** The environment of a call that makes no failing library call. *)
Definition env_ok (e : Env) : Prop :=
  gcry_cipher_open_rc e = None /\
  gcry_cipher_setiv_rc e = None /\
  gcry_cipher_setkey_rc e = None /\
  gcry_cipher_crypt_rc e = None /\
  gcry_md_open_rc e = None /\
  (forall n, gcry_malloc_secure_ok e n = true) /\
  (forall n, xtrymalloc_ok e n = true).

(** Scenario S1 of the specification. *)
Definition key_S1 : list byte :=
  lit "(11:private-key(3:rsa(1:n1:x)(1:e1:y)(1:d1:z)(1:p1:a)(1:q1:b)(1:u1:c)))".

Definition no_out : cptr * nat := (NullPtr, 0).

(** What [agent_protect] stores for scenario S1 under the small instance. *)
Definition protected_S1 : cptr * nat :=
  snd (agent_protect (G := toy_gcrypt) quiet_env key_S1 (lit "abc") no_out).


(** Scenario S4 of the specification: a public key and the shadow
    information of a card. *)
Definition pubkey_S4 : list byte := lit "(10:public-key(3:rsa(1:n1:x)(1:e1:y)))".
Definition shadow_info_S4 : list byte := lit "(8:card-s/n5:12345)".

(** A public key with a parameter named [shadowed]. *)
Definition pubkey_shadowed_param : list byte :=
  lit "(10:public-key(3:rsa(8:shadowed1:x)))".

(** An environment in which exactly the allocation of [n] bytes by
    [xtrymalloc] fails. *)
Definition env_xtrymalloc_fails (n : nat) : Env := {|
  gcry_cipher_open_rc := None;
  gcry_cipher_setiv_rc := None;
  gcry_cipher_setkey_rc := None;
  gcry_cipher_crypt_rc := None;
  gcry_md_open_rc := None;
  gcry_malloc_secure_ok := fun _ => true;
  xtrymalloc_ok := fun m => negb (m =? n);
  asprintf_ok := true;
  gcry_random_bytes := gcry_random_bytes quiet_env;
  uninit := uninit quiet_env
|}.

(** ** Vocabulary of the statements *)

(** [b] holds the bytes [x] at offset [s]. *)
Definition bytes_at (b : list byte) (s : nat) (x : list byte) : Prop :=
  read_bytes b s (length x) = x.

Definition no_NUL (x : list byte) : Prop := Forall (fun c => c <> NUL) x.

(** The number of digests of [d] bytes needed to fill [n] bytes. *)
Definition passes_needed (n d : nat) : nat := (n + d - 1) / d.

(** A parameter list [(c V)] with the one-byte name [c] lies at offsets
    [s .. e-1] of [b]; with [canon] set, its two length prefixes have no
    leading zero. *)
Definition param_at (canon : bool) (b : list byte) (s e : nat) (c : byte) : Prop :=
  exists a1 n2 a2,
    peek b s = "("%char /\ snext b (S s) = (1, a1) /\ peek b a1 = c /\
    snext b (a1 + 1) = (n2, a2) /\ n2 <> 0 /\ peek b (a2 + n2) = ")"%char /\
    e = S (a2 + n2) /\
    (canon = true -> peek b (S s) <> "0"%char /\ peek b (a1 + 1) <> "0"%char).

(** Parameter lists named [names], one behind the other, from [s] to [e]. *)
Fixpoint param_chain (canon : bool) (b : list byte) (names : list byte)
         (s e : nat) : Prop :=
  match names with
  | [] => s = e
  | c :: names' =>
      exists m, param_at canon b s m c /\ param_chain canon b names' m e
  end.

(** What [agent_protect_scan] has found in a key it accepts. *)
Record key_layout (canon : bool) (K : list byte) (a0 a3 e : nat)
       (sc : protect_scan) : Prop := {
  kl_open : peek K 0 = "("%char;
  kl_len : snext K 1 = (11, a0);
  kl_name : bytes_at K a0 (lit "private-key");
  kl_hash_begin : hash_begin sc = a0 + 11;
  kl_open2 : peek K (a0 + 11) = "("%char;
  kl_algolen : snext K (S (a0 + 11)) = (3, a3);
  kl_algo : bytes_at K a3 (lit "rsa");
  kl_public : param_chain canon K (lit "ne") (a3 + 3) (prot_begin sc);
  kl_secret : param_chain canon K (lit "dpqu") (prot_begin sc) (S (prot_end sc));
  kl_hash_end : hash_end sc = S (prot_end sc);
  kl_close : peek K (hash_end sc) = ")"%char;
  kl_rest : sskip K (S (hash_end sc)) 1 = Ok (e, 0);
  kl_real_end : real_end sc = e - 1
}.

(** No parameter list from offset [s] on, as the loop of
    [agent_shadow_key] walks over them, is named [shadowed]. *)
Fixpoint names_free (fuel : nat) (b : list byte) (s : nat) : bool :=
  match fuel with
  | 0 => true
  | S fuel' =>
      if byte_eqb (peek b s) "(" then
        let '(n, a) := snext b (S s) in
        negb (fst (smatch b a n (lit "shadowed")))
        && (let '(n2, a2) := snext b (a + n) in
            names_free fuel' b (S (a2 + n2)))
      else true
  end.

(** No parameter of the public key [pubkey] is named [shadowed]. *)
Definition shadowed_free (pubkey : list byte) : bool :=
  let '(n, s) := snext pubkey 1 in
  let s := s + n in
  let '(n, s) := snext pubkey (S s) in
  names_free (S (length pubkey)) pubkey (s + n).

(** An atom in canonical form: the decimal length, a colon, the bytes. *)
Definition atom (x : list byte) : list byte := dec (length x) ++ lit ":" ++ x.

(** The list [(protected MODESTR ((sha1 SALT 96) IV) CIPHERTEXT)] in
    canonical form. *)
Definition protected_list (salt iv ct : list byte) : list byte :=
  lit "(" ++ atom (lit "protected") ++ atom modestr
  ++ lit "((" ++ atom (lit "sha1") ++ atom salt ++ atom (lit "96") ++ lit ")"
  ++ atom iv ++ lit ")" ++ atom ct ++ lit ")".

(** The same list with an arbitrary count atom. *)
Definition protected_list_with (salt count iv ct : list byte) : list byte :=
  lit "(" ++ atom (lit "protected") ++ atom modestr
  ++ lit "((" ++ atom (lit "sha1") ++ atom salt ++ atom count ++ lit ")"
  ++ atom iv ++ lit ")" ++ atom ct ++ lit ")".

(** A protected key around a given protected list. *)
Definition protected_key_around (pl : list byte) : list byte :=
  lit "(21:protected-private-key(3:rsa(1:n1:x)(1:e1:y)" ++ pl ++ lit "))".

(** A protected key whose ciphertext decrypts, under the small instance
    and the passphrase [abc], to a block that starts with an open paren
    followed by a digit. *)
Definition quick_check_plaintext : list byte := lit "(1:a)ppppppppppp".

Definition quick_check_key : list byte :=
  match hash_passphrase (G := toy_gcrypt) quiet_env (lit "abc") GCRY_MD_SHA1 3
                        (Some (lit "SSSSSSSS", 0)) 96%Z PROT_CIPHER_KEYLEN with
  | Ok key => key
  | Err _ => []
  end.

Definition quick_check_input : list byte :=
  protected_key_around
    (protected_list (lit "SSSSSSSS") (lit "IIIIIIIIIIIIIIII")
       (toy_crypt quick_check_key (lit "IIIIIIIIIIIIIIII") quick_check_plaintext)).


(** A protected key whose salt has seven bytes. *)
Definition short_salt_input : list byte :=
  protected_key_around
    (protected_list_with (lit "SSSSSSS") (lit "96") (lit "IIIIIIIIIIIIIIII")
       (lit "CCCCCCCCCCCCCCCC")).

(** The bytes [do_encryption] encrypts, before the cut to whole blocks. *)
Definition protect_plaintext (region mic pad : list byte) : list byte :=
  lit "((" ++ region ++ lit ")(4:hash4:sha120:" ++ mic ++ lit "))" ++ pad.

(** [enclen = outlen/blklen * blklen] for a protected region of
    [protlen] bytes. *)
Definition protect_enclen (protlen : nat) : nat :=
  (2 + protlen + 2 + 6 + 6 + 23 + 2 + blklen) / blklen * blklen.

(** The ciphertext [do_encryption] stores for the key [K] scanned as
    [sc], with the random block [iv] and the derived key [key]. *)
Definition protect_ciphertext {G : Gcrypt} (K : list byte) (sc : protect_scan)
           (iv key : list byte) : list byte :=
  let protlen := prot_end sc - prot_begin sc + 1 in
  let enclen := protect_enclen protlen in
  let plain := protect_plaintext (read_bytes K (prot_begin sc) protlen)
                                 (read_bytes (protect_mic K sc) 0 20)
                                 (read_bytes iv blklen blklen) in
  read_bytes (gcry_cbc_encrypt (read_bytes key 0 PROT_CIPHER_KEYLEN)
                               (read_bytes iv 0 blklen)
                               (read_bytes plain 0 enclen) ++ skipn enclen plain)
             0 enclen.

(** The three spans of the buffer [agent_protect] returns. *)
Definition protected_key (K : list byte) (sc : protect_scan)
           (salt iv ct : list byte) : list byte :=
  lit "(21:protected-" ++ read_bytes K 4 (prot_begin sc - 4)
  ++ protected_list salt iv ct
  ++ read_bytes K (prot_end sc + 1) (real_end sc - prot_end sc).

(** ** Vocabulary of the further statements *)

(** The loops of the call that computes [r] have come to an end. *)
Definition returns {A : Type} (r : result A) : Prop := r <> Err No_Return.

(** A parameter list [(name value)] in canonical form. *)
Definition param (name value : list byte) : list byte :=
  lit "(" ++ atom name ++ atom value ++ lit ")".

(** The RSA private key with the parameter values [n], [e], [d], [p],
    [q] and [u], in canonical form. *)
Definition rsa_private_key (n e d p q u : list byte) : list byte :=
  lit "(11:private-key(3:rsa"
  ++ param (lit "n") n ++ param (lit "e") e ++ param (lit "d") d
  ++ param (lit "p") p ++ param (lit "q") q ++ param (lit "u") u
  ++ lit "))".

(** What the scan of [agent_protect] finds in such a key. *)
Definition rsa_private_key_scan (n e d p q u : list byte) : protect_scan :=
  let pb := 21 + length (param (lit "n") n) + length (param (lit "e") e) in
  let he := pb + length (param (lit "d") d) + length (param (lit "p") p)
            + length (param (lit "q") q) + length (param (lit "u") u) in
  {| hash_begin := 15; hash_end := he; prot_begin := pb; prot_end := he - 1;
     real_end := he + 1 |}.

(** ** has_option of the command handler *)

(** [spacep] is a macro of a header that is not among these sources;
    [has_option] is modelled for any test [spacep] of one character.
    GnuPG's own test accepts a blank and a tab. *)
Definition blank_or_tab (c : byte) : bool :=
  byte_eqb c " "%char || byte_eqb c "009"%char.

(** The characters of a C string: the bytes before the first NUL. *)
Definition cstring (l : list byte) : list byte := firstn (strlen l) l.

Fixpoint is_prefix (x l : list byte) : bool :=
  match x, l with
  | [], _ => true
  | c :: x', c' :: l' => byte_eqb c c' && is_prefix x' l'
  | _ :: _, [] => false
  end.

(** ISO C [strstr]: the offset of the first occurrence of [needle] in
    what is left of the haystack, [i] being the offset reached. *)
Fixpoint strstr_from (l needle : list byte) (i : nat) : option nat :=
  if is_prefix needle l then Some i
  else match l with
       | [] => None
       | _ :: l' => strstr_from l' needle (S i)
       end.

Definition strstr (haystack needle : list byte) : option nat :=
  strstr_from (cstring haystack) (cstring needle) 0.

(** [has_option]: whether the option [name] appears in [line]. *)
Definition has_option (spacep : byte -> bool) (line name : list byte)
  : bool :=
  let n := strlen name in
  match strstr line name with
  | Some s =>
      ((s =? 0) || spacep (peek line (s - 1)))
      && (byte_eqb (peek line (s + n)) NUL || spacep (peek line (s + n)))
  | None => false
  end.

(** * Properties of the embedding *)

(** ** Bytes and buffers *)

Lemma byte_eqb_eq (a b : byte) : byte_eqb a b = true <-> a = b.
Proof. apply Ascii.eqb_eq. Qed.

Lemma byte_eqb_refl (a : byte) : byte_eqb a a = true.
Proof. apply Ascii.eqb_refl. Qed.

Lemma byte_eqb_neq (a b : byte) : byte_eqb a b = false <-> a <> b.
Proof. apply Ascii.eqb_neq. Qed.

Lemma bytes_eqb_eq (x y : list byte) : bytes_eqb x y = true <-> x = y.
Proof.
  revert y; induction x as [|a x IH]; intros [|b y]; simpl; split; intro H;
    try reflexivity; try discriminate.
  - apply andb_true_iff in H as [H1 H2].
    apply byte_eqb_eq in H1. apply IH in H2. congruence.
  - injection H as -> ->. rewrite byte_eqb_refl. simpl. now apply IH.
Qed.

Lemma bytes_eqb_refl (x : list byte) : bytes_eqb x x = true.
Proof. now apply bytes_eqb_eq. Qed.

Lemma peek_app_l (x y : list byte) (i : nat) :
  i < length x -> peek (x ++ y) i = peek x i.
Proof. intro H. unfold peek. now apply app_nth1. Qed.

Lemma peek_app_r (x y : list byte) (i : nat) :
  length x <= i -> peek (x ++ y) i = peek y (i - length x).
Proof. intro H. unfold peek. now apply app_nth2. Qed.

Lemma peek_beyond (b : list byte) (i : nat) :
  length b <= i -> peek b i = NUL.
Proof. intro H. unfold peek. now apply nth_overflow. Qed.

Lemma peek_in_bounds (b : list byte) (i : nat) :
  peek b i <> NUL -> i < length b.
Proof.
  intro H. destruct (Nat.lt_ge_cases i (length b)) as [|Hge]; [assumption|].
  now rewrite peek_beyond in H.
Qed.

Lemma length_read_bytes (b : list byte) (s n : nat) :
  length (read_bytes b s n) = n.
Proof. unfold read_bytes. now rewrite length_map, length_seq. Qed.

Lemma peek_read_bytes (b : list byte) (s n i : nat) :
  i < n -> peek (read_bytes b s n) i = peek b (s + i).
Proof.
  intro H. unfold read_bytes, peek at 1.
  rewrite nth_indep with (d' := peek b 0) by now rewrite length_map, length_seq.
  rewrite map_nth with (d := 0). now rewrite seq_nth.
Qed.

Lemma read_bytes_app (b : list byte) (s n m : nat) :
  read_bytes b s (n + m) = read_bytes b s n ++ read_bytes b (s + n) m.
Proof. unfold read_bytes. now rewrite seq_app, map_app. Qed.

Lemma read_bytes_0 (b : list byte) (s : nat) : read_bytes b s 0 = [].
Proof. reflexivity. Qed.

Lemma read_bytes_S (b : list byte) (s n : nat) :
  read_bytes b s (S n) = peek b s :: read_bytes b (S s) n.
Proof. reflexivity. Qed.

Lemma read_bytes_ext (b b' : list byte) (s s' n : nat) :
  (forall i, i < n -> peek b (s + i) = peek b' (s' + i)) ->
  read_bytes b s n = read_bytes b' s' n.
Proof.
  revert s s'; induction n as [|n IH]; intros s s' H; [reflexivity|].
  rewrite !read_bytes_S. f_equal.
  - specialize (H 0 (Nat.lt_0_succ n)). now rewrite !Nat.add_0_r in H.
  - apply IH. intros i Hi. specialize (H (S i) (proj1 (Nat.succ_lt_mono _ _) Hi)).
    now rewrite !Nat.add_succ_r in H.
Qed.

Lemma read_bytes_eq_peek (b b' : list byte) (s s' n i : nat) :
  read_bytes b s n = read_bytes b' s' n -> i < n ->
  peek b (s + i) = peek b' (s' + i).
Proof.
  intros H Hi. rewrite <- (peek_read_bytes b s n i Hi), <- (peek_read_bytes b' s' n i Hi).
  now rewrite H.
Qed.

Lemma list_eq_peek (x y : list byte) :
  length x = length y -> (forall i, i < length x -> peek x i = peek y i) -> x = y.
Proof.
  intros Hl H. apply nth_ext with (d := NUL) (d' := NUL); [assumption|exact H].
Qed.

Lemma read_bytes_all (b : list byte) : read_bytes b 0 (length b) = b.
Proof.
  apply list_eq_peek.
  - apply length_read_bytes.
  - intros i Hi. rewrite length_read_bytes in Hi. now rewrite peek_read_bytes.
Qed.

Lemma read_bytes_app_l (x y : list byte) (s n : nat) :
  s + n <= length x -> read_bytes (x ++ y) s n = read_bytes x s n.
Proof. intro H. apply read_bytes_ext. intros i Hi. apply peek_app_l. lia. Qed.

Lemma read_bytes_app_r (x y : list byte) (s n : nat) :
  length x <= s -> read_bytes (x ++ y) s n = read_bytes y (s - length x) n.
Proof.
  intro H. apply read_bytes_ext. intros i Hi. rewrite peek_app_r by lia.
  f_equal. lia.
Qed.

Lemma read_bytes_read_bytes (b : list byte) (s n t m : nat) :
  t + m <= n -> read_bytes (read_bytes b s n) t m = read_bytes b (s + t) m.
Proof.
  intro H. apply read_bytes_ext. intros i Hi.
  rewrite peek_read_bytes by lia. f_equal. lia.
Qed.


Lemma skipn_read_bytes (b : list byte) (n : nat) :
  skipn n b = read_bytes b n (length b - n).
Proof.
  apply list_eq_peek.
  - now rewrite length_skipn, length_read_bytes.
  - intros i Hi. rewrite length_skipn in Hi. rewrite peek_read_bytes by lia.
    unfold peek. now rewrite nth_skipn.
Qed.

Lemma bytes_at_peek (b : list byte) (s : nat) (x : list byte) (i : nat) :
  bytes_at b s x -> i < length x -> peek b (s + i) = peek x i.
Proof.
  intros H Hi. rewrite <- (peek_read_bytes b s _ _ Hi). now rewrite H.
Qed.

Lemma bytes_at_intro (b : list byte) (s : nat) (x : list byte) :
  (forall i, i < length x -> peek b (s + i) = peek x i) -> bytes_at b s x.
Proof.
  intro H. unfold bytes_at. apply list_eq_peek.
  - apply length_read_bytes.
  - intros i Hi. rewrite length_read_bytes in Hi. rewrite peek_read_bytes by lia.
    now apply H.
Qed.

Lemma app_same_length (A : Type) (x x' y y' : list A) :
  length x = length x' -> x ++ y = x' ++ y' -> x = x' /\ y = y'.
Proof.
  revert x'; induction x as [|a x IH]; intros [|a' x'] Hl H; try discriminate.
  - now split.
  - simpl in Hl, H. injection H as -> H. injection Hl as Hl.
    destruct (IH x' Hl H) as [-> ->]. now split.
Qed.

Lemma bytes_at_app (b : list byte) (s : nat) (x y : list byte) :
  bytes_at b s (x ++ y) <-> bytes_at b s x /\ bytes_at b (s + length x) y.
Proof.
  unfold bytes_at. rewrite length_app, read_bytes_app. split.
  - intro H. apply app_same_length in H; [exact H|apply length_read_bytes].
  - intros [-> ->]. reflexivity.
Qed.

(** ** snext *)

Lemma digitp_not_special (c : byte) :
  digitp c = true ->
  negb (byte_eqb c NUL) && negb (byte_eqb c ":") && digitp c = true.
Proof.
  intro H. rewrite H.
  destruct (byte_eqb c NUL) eqn:E1.
  { apply byte_eqb_eq in E1. subst c. discriminate H. }
  destruct (byte_eqb c ":") eqn:E2.
  { apply byte_eqb_eq in E2. subst c. discriminate H. }
  reflexivity.
Qed.

Lemma snext_cond_digitp (c : byte) :
  negb (byte_eqb c NUL) && negb (byte_eqb c ":") && digitp c = digitp c.
Proof.
  destruct (digitp c) eqn:E.
  - pose proof (digitp_not_special _ E) as H. now rewrite E in H.
  - now rewrite andb_false_r.
Qed.

Lemma digitp_NUL : digitp NUL = false.
Proof. reflexivity. Qed.

Lemma snext_digits_ge (l : list byte) (n s r e : nat) :
  snext_digits l n s = (r, e) -> s <= e /\ n <= r.
Proof.
  revert n s; induction l as [|c l IH]; intros n s H; simpl in H.
  - injection H as <- <-. lia.
  - destruct (negb (byte_eqb c NUL) && negb (byte_eqb c ":") && digitp c).
    + apply IH in H. lia.
    + injection H as <- <-. lia.
Qed.

Lemma snext_digits_transport (l l' : list byte) (n s s' r e : nat) :
  snext_digits l n s = (r, e) ->
  (forall i, i <= e - s -> nth i l NUL = nth i l' NUL) ->
  snext_digits l' n s' = (r, s' + (e - s)).
Proof.
  revert l' n s s'; induction l as [|c l IH]; intros l' n s s' H Hagree.
  - simpl in H. injection H as <- <-. rewrite Nat.sub_diag, Nat.add_0_r.
    specialize (Hagree 0 (Nat.le_0_l _)). destruct l' as [|c' l']; [reflexivity|].
    simpl in Hagree. subst c'. reflexivity.
  - simpl in H. rewrite snext_cond_digitp in H.
    destruct (digitp c) eqn:Ec.
    + pose proof (snext_digits_ge _ _ _ _ _ H) as [Hge _].
      destruct l' as [|c' l'].
      { specialize (Hagree 0 (Nat.le_0_l _)). simpl in Hagree. subst c.
        discriminate Ec. }
      pose proof (Hagree 0 (Nat.le_0_l _)) as H0. simpl in H0. subst c'.
      simpl. rewrite snext_cond_digitp, Ec.
      rewrite (IH l' _ _ (S s') H).
      * f_equal. lia.
      * intros i Hi. apply (Hagree (S i)). lia.
    + injection H as <- <-. rewrite Nat.sub_diag, Nat.add_0_r.
      specialize (Hagree 0 (Nat.le_0_l _)). destruct l' as [|c' l'].
      * reflexivity.
      * simpl in Hagree. subst c'. simpl. now rewrite snext_cond_digitp, Ec.
Qed.

Lemma nth_skipn_peek (b : list byte) (s i : nat) :
  nth i (skipn s b) NUL = peek b (s + i).
Proof. unfold peek. apply nth_skipn. Qed.

(** What a successful [snext] has seen. *)
Lemma snext_inv (b : list byte) (s n a : nat) :
  snext b s = (n, a) -> n <> 0 ->
  exists e, snext_digits (skipn s b) 0 s = (n, e) /\ a = S e /\ s <= e
            /\ peek b e = ":".
Proof.
  unfold snext. intros H Hn.
  destruct (snext_digits (skipn s b) 0 s) as [r e] eqn:E.
  destruct ((r =? 0) || negb (byte_eqb (peek b e) ":")) eqn:C.
  - injection H as <- <-. contradiction.
  - injection H as <- <-. apply orb_false_iff in C as [_ C].
    apply negb_false_iff, byte_eqb_eq in C.
    exists e. repeat split; try assumption.
    now apply snext_digits_ge in E.
Qed.

Lemma snext_fail_cursor (b : list byte) (s a : nat) :
  snext b s = (0, a) -> a = s.
Proof.
  unfold snext. destruct (snext_digits (skipn s b) 0 s) as [r e] eqn:E.
  destruct ((r =? 0) || negb (byte_eqb (peek b e) ":")) eqn:C; intro H.
  - now injection H.
  - injection H as -> <-. discriminate C.
Qed.

Lemma snext_lt (b : list byte) (s n a : nat) :
  snext b s = (n, a) -> n <> 0 -> s < a.
Proof.
  intros H Hn. destruct (snext_inv _ _ _ _ H Hn) as (e & _ & -> & Hle & _). lia.
Qed.

Lemma snext_colon (b : list byte) (s n a : nat) :
  snext b s = (n, a) -> n <> 0 -> peek b (a - 1) = ":".
Proof.
  intros H Hn. destruct (snext_inv _ _ _ _ H Hn) as (e & _ & -> & _ & Hc).
  now rewrite Nat.sub_1_r.
Qed.

Lemma snext_first_digit (b : list byte) (s n a : nat) :
  snext b s = (n, a) -> n <> 0 -> digitp (peek b s) = true.
Proof.
  intros H Hn. destruct (snext_inv _ _ _ _ H Hn) as (e & Hd & _ & _ & _).
  destruct (skipn s b) as [|c l] eqn:E.
  - simpl in Hd. injection Hd as <- _. contradiction.
  - assert (Hc : peek b s = c).
    { rewrite <- (Nat.add_0_r s), <- nth_skipn_peek, E. reflexivity. }
    rewrite Hc. simpl in Hd. rewrite snext_cond_digitp in Hd.
    destruct (digitp c); [reflexivity|]. injection Hd as <- _. contradiction.
Qed.

(** [snext] reads only the bytes between the old and the new cursor. *)
Lemma snext_transport (b b' : list byte) (s s' n a : nat) :
  snext b s = (n, a) -> n <> 0 ->
  read_bytes b' s' (a - s) = read_bytes b s (a - s) ->
  snext b' s' = (n, s' + (a - s)).
Proof.
  intros H Hn Hag. destruct (snext_inv _ _ _ _ H Hn) as (e & Hd & -> & Hle & Hc).
  unfold snext.
  rewrite (snext_digits_transport _ (skipn s' b') _ _ s' _ _ Hd).
  - assert (Hp : peek b' (s' + (e - s)) = ":").
    { rewrite (read_bytes_eq_peek _ _ _ _ _ _ Hag) by lia.
      rewrite <- Hc. f_equal. lia. }
    rewrite Hp, byte_eqb_refl.
    destruct (n =? 0) eqn:En; [apply Nat.eqb_eq in En; contradiction|].
    cbn [negb orb]. f_equal. lia.
  - intros i Hi. rewrite !nth_skipn_peek. symmetry.
    apply (read_bytes_eq_peek _ _ _ _ _ _ Hag). lia.
Qed.

(** ** Decimal output *)

Lemma digitp_digit_char (k : nat) : k < 10 -> digitp (digit_char k) = true.
Proof.
  intro H. do 10 (destruct k as [|k]; [reflexivity|]). lia.
Qed.

Lemma atoi_1_digit_char (k : nat) : k < 10 -> atoi_1 (digit_char k) = k.
Proof.
  intro H. do 10 (destruct k as [|k]; [reflexivity|]). lia.
Qed.

Lemma snext_digits_uint (d : Decimal.uint) (rest : list byte) (acc s : nat) :
  digitp (nth 0 rest NUL) = false ->
  snext_digits (uint_bytes d ++ rest) acc s
  = (Nat.of_uint_acc d acc, s + length (uint_bytes d)).
Proof.
  intro Hrest. revert acc s.
  assert (Hstep : forall k d' acc s, k < 10 ->
    (forall acc s, snext_digits (uint_bytes d' ++ rest) acc s
                   = (Nat.of_uint_acc d' acc, s + length (uint_bytes d'))) ->
    snext_digits ((digit_char k :: uint_bytes d') ++ rest) acc s
    = (Nat.of_uint_acc d' (acc * 10 + k), s + S (length (uint_bytes d')))).
  { intros k d' acc s Hk IH. simpl app. cbn [snext_digits].
    rewrite snext_cond_digitp, digitp_digit_char by assumption.
    rewrite IH, atoi_1_digit_char by assumption. f_equal. lia. }
  induction d as [|d IH|d IH|d IH|d IH|d IH|d IH|d IH|d IH|d IH|d IH];
    intros acc s; cbn [uint_bytes Nat.of_uint_acc length];
    try (rewrite Hstep by (try lia; exact IH);
         rewrite Nat.tail_mul_spec; f_equal; f_equal; lia).
  simpl. rewrite Nat.add_0_r. destruct rest as [|c rest]; [reflexivity|].
  simpl in Hrest. simpl. now rewrite snext_cond_digitp, Hrest.
Qed.

Lemma uint_bytes_nonempty (d : Decimal.uint) :
  d <> Decimal.Nil -> uint_bytes d <> [].
Proof. destruct d; intro H; try discriminate. contradiction. Qed.

Lemma to_uint_nonnil (n : nat) : Nat.to_uint n <> Decimal.Nil.
Proof.
  intro H. pose proof (Unsigned.to_of (Nat.to_uint n)) as E.
  rewrite Unsigned.of_to in E. rewrite H in E at 2. simpl in E.
  rewrite H in E. discriminate E.
Qed.

Lemma dec_nonempty (n : nat) : 0 < length (dec n).
Proof.
  unfold dec. pose proof (uint_bytes_nonempty (Nat.to_uint n) (to_uint_nonnil n)).
  destruct (uint_bytes (Nat.to_uint n)); [contradiction|simpl; lia].
Qed.

Lemma uint_bytes_digits (d : Decimal.uint) :
  Forall (fun c => digitp c = true) (uint_bytes d).
Proof. induction d; simpl; constructor; auto. Qed.

Lemma dec_digits (n : nat) : Forall (fun c => digitp c = true) (dec n).
Proof. apply uint_bytes_digits. Qed.

Lemma nzhead_not_D0 (d u : Decimal.uint) : Decimal.nzhead d <> Decimal.D0 u.
Proof. induction d; simpl; try discriminate. assumption. Qed.

Lemma dec_first_nonzero (n : nat) : n <> 0 -> peek (dec n) 0 <> "0".
Proof.
  intros Hn. unfold dec.
  pose proof (Unsigned.to_of (Nat.to_uint n)) as E.
  rewrite Unsigned.of_to in E.
  destruct (Nat.to_uint n) as [|d|d|d|d|d|d|d|d|d|d] eqn:Eu;
    try (cbn; discriminate).
  (* a leading D0 in a normal form: the number is zero *)
  exfalso. rewrite unorm_D0 in E. unfold Decimal.unorm in E.
  destruct (Decimal.nzhead d) eqn:Ez; try discriminate E.
  - injection E as ->. apply Hn.
    rewrite <- (Unsigned.of_to n), Eu. reflexivity.
  - now apply (nzhead_not_D0 d u).
Qed.

Lemma dec_first_digit (n : nat) : digitp (peek (dec n) 0) = true.
Proof.
  pose proof (dec_digits n) as H. pose proof (dec_nonempty n) as Hl.
  destruct (dec n) as [|c l]; [simpl in Hl; lia|]. now inversion H.
Qed.

(** [snext] reads back what ["%d:"] has printed. *)
Lemma snext_dec_self (n : nat) :
  n <> 0 -> snext (dec n ++ [":"%char]) 0 = (n, length (dec n) + 1).
Proof.
  intro Hn. unfold snext. simpl skipn. unfold dec.
  rewrite snext_digits_uint by reflexivity.
  change (Nat.of_uint_acc (Nat.to_uint n) 0) with (Nat.of_uint (Nat.to_uint n)).
  rewrite Unsigned.of_to. simpl.
  rewrite peek_app_r by lia. rewrite Nat.sub_diag. simpl.
  destruct (n =? 0) eqn:E; [apply Nat.eqb_eq in E; contradiction|].
  simpl. f_equal. lia.
Qed.

Lemma snext_dec (b : list byte) (s n : nat) :
  n <> 0 -> bytes_at b s (dec n ++ [":"%char]) ->
  snext b s = (n, s + length (dec n) + 1).
Proof.
  intros Hn H. pose proof (snext_dec_self n Hn) as Hs.
  rewrite (snext_transport _ b _ s _ _ Hs Hn).
  - f_equal. lia.
  - rewrite Nat.sub_0_r. unfold bytes_at in H. rewrite length_app in H.
    simpl in H. rewrite H.
    rewrite <- (length_app (dec n) [":"%char]) at 1. simpl length at 1.
    replace (length (dec n) + 1) with (length (dec n ++ [":"%char]))
      by (rewrite length_app; reflexivity).
    now rewrite read_bytes_all.
Qed.

Lemma agree_sub (b b' : list byte) (s s' n k m : nat) :
  read_bytes b' s' n = read_bytes b s n -> k + m <= n ->
  read_bytes b' (s' + k) m = read_bytes b (s + k) m.
Proof.
  intros H Hle. apply read_bytes_ext. intros i Hi.
  rewrite <- !Nat.add_assoc. apply (read_bytes_eq_peek _ _ _ _ _ _ H). lia.
Qed.

Lemma agree_at (b b' : list byte) (s s' n x m : nat) :
  read_bytes b' s' n = read_bytes b s n -> s <= x -> x + m <= s + n ->
  read_bytes b' (s' + (x - s)) m = read_bytes b x m.
Proof.
  intros H H1 H2.
  rewrite (agree_sub b b' s s' n (x - s) m H) by lia. f_equal. lia.
Qed.

Lemma agree_peek (b b' : list byte) (s s' n i : nat) :
  read_bytes b' s' n = read_bytes b s n -> i < n ->
  peek b' (s' + i) = peek b (s + i).
Proof. intros H Hi. now apply (read_bytes_eq_peek _ _ _ _ _ _ H). Qed.

Lemma agree_peek0 (b b' : list byte) (s s' n : nat) :
  read_bytes b' s' n = read_bytes b s n -> 0 < n ->
  peek b' s' = peek b s.
Proof.
  intros H Hn. pose proof (agree_peek _ _ _ _ _ 0 H Hn) as E.
  now rewrite !Nat.add_0_r in E.
Qed.

(** ** smatch *)

Lemma smatch_true_inv (b : list byte) (s n : nat) (tok : list byte) (a : nat) :
  smatch b s n tok = (true, a) ->
  n = length tok /\ bytes_at b s tok /\ a = s + length tok.
Proof.
  unfold smatch. intro H.
  destruct (n =? length tok) eqn:E1; simpl in H; [|discriminate].
  destruct (bytes_eqb (read_bytes b s (length tok)) tok) eqn:E2; simpl in H;
    [|discriminate].
  injection H as <-. apply Nat.eqb_eq in E1. apply bytes_eqb_eq in E2. auto.
Qed.

Lemma smatch_false_cursor (b : list byte) (s n : nat) (tok : list byte) (a : nat) :
  smatch b s n tok = (false, a) -> a = s.
Proof.
  unfold smatch. intro H.
  destruct (negb (n =? length tok)
            || negb (bytes_eqb (read_bytes b s (length tok)) tok)).
  - now injection H.
  - discriminate.
Qed.

Lemma smatch_at (b : list byte) (s : nat) (tok : list byte) :
  bytes_at b s tok -> smatch b s (length tok) tok = (true, s + length tok).
Proof.
  unfold smatch, bytes_at. intros ->.
  now rewrite Nat.eqb_refl, bytes_eqb_refl.
Qed.

Lemma smatch_at_len (b : list byte) (s n : nat) (tok : list byte) :
  n = length tok -> bytes_at b s tok -> smatch b s n tok = (true, s + n).
Proof. intros ->. apply smatch_at. Qed.

Lemma smatch_length_neq (b : list byte) (s n : nat) (tok : list byte) :
  n <> length tok -> smatch b s n tok = (false, s).
Proof.
  unfold smatch. intro H. apply Nat.eqb_neq in H. now rewrite H.
Qed.

Lemma smatch_bytes_neq (b : list byte) (s n : nat) (tok : list byte) :
  read_bytes b s (length tok) <> tok -> smatch b s n tok = (false, s).
Proof.
  unfold smatch. intro H.
  destruct (bytes_eqb (read_bytes b s (length tok)) tok) eqn:E.
  - apply bytes_eqb_eq in E. contradiction.
  - simpl. now rewrite orb_true_r.
Qed.

(** ** sskip *)

Lemma sskip_loop_unfold (fuel : nat) (b : list byte) (s d : nat) :
  sskip_loop fuel b s d =
  if d =? 0 then Ok (s, d)
  else
    match fuel with
    | 0 => Err No_Return
    | S fuel' =>
        if byte_eqb (peek b s) "(" then sskip_loop fuel' b (S s) (S d)
        else if byte_eqb (peek b s) ")" then sskip_loop fuel' b (S s) (d - 1)
        else
          let '(n, s1) := snext b s in
          if n =? 0 then Err GNUPG_Invalid_Sexp
          else sskip_loop fuel' b (s1 + n) d
    end.
Proof. destruct fuel; reflexivity. Qed.

Lemma sskip_loop_ok_inv (fuel : nat) (b : list byte) (s d e d' : nat) :
  sskip_loop fuel b s d = Ok (e, d') -> d' = 0 /\ s <= e.
Proof.
  revert s d; induction fuel as [|f IH]; intros s d H;
    rewrite sskip_loop_unfold in H.
  - destruct (d =? 0) eqn:E; [|discriminate].
    injection H as <- <-. apply Nat.eqb_eq in E. lia.
  - destruct (d =? 0) eqn:E.
    { injection H as <- <-. apply Nat.eqb_eq in E. lia. }
    destruct (byte_eqb (peek b s) "("). { apply IH in H. lia. }
    destruct (byte_eqb (peek b s) ")"). { apply IH in H. lia. }
    destruct (snext b s) as [n s1] eqn:En.
    destruct (n =? 0) eqn:E0; [discriminate|]. apply Nat.eqb_neq in E0.
    apply IH in H. pose proof (snext_lt _ _ _ _ En E0). lia.
Qed.

Lemma sskip_loop_fuel_mono (fuel fuel' : nat) (b : list byte) (s d : nat)
      (r : nat * nat) :
  sskip_loop fuel b s d = Ok r -> fuel <= fuel' -> sskip_loop fuel' b s d = Ok r.
Proof.
  revert fuel' s d; induction fuel as [|f IH]; intros f' s d H Hle;
    rewrite sskip_loop_unfold in H; rewrite sskip_loop_unfold.
  - destruct (d =? 0); [assumption|discriminate].
  - destruct (d =? 0); [assumption|].
    destruct f' as [|f']; [lia|]. apply le_S_n in Hle.
    destruct (byte_eqb (peek b s) "("). { now apply IH. }
    destruct (byte_eqb (peek b s) ")"). { now apply IH. }
    destruct (snext b s) as [n s1].
    destruct (n =? 0); [discriminate|]. now apply IH.
Qed.

(** [sskip] reads only the bytes it skips. *)
Lemma sskip_loop_transport (fuel : nat) (b b' : list byte) (s s' d e d' : nat) :
  sskip_loop fuel b s d = Ok (e, d') ->
  read_bytes b' s' (e - s) = read_bytes b s (e - s) ->
  sskip_loop fuel b' s' d = Ok (s' + (e - s), d').
Proof.
  revert s s' d; induction fuel as [|f IH]; intros s s' d H Hag;
    pose proof (sskip_loop_ok_inv _ _ _ _ _ _ H) as [_ Hle];
    rewrite sskip_loop_unfold in H; rewrite sskip_loop_unfold.
  - destruct (d =? 0); [|discriminate]. injection H as <- <-.
    now rewrite Nat.sub_diag, Nat.add_0_r.
  - destruct (d =? 0).
    { injection H as <- <-. now rewrite Nat.sub_diag, Nat.add_0_r. }
    assert (Hstep : forall k dd, s + k <= e ->
              sskip_loop f b (s + k) dd = Ok (e, d') ->
              sskip_loop f b' (s' + k) dd = Ok (s' + (e - s), d')).
    { intros k dd Hk Hr. rewrite (IH _ (s' + k) _ Hr).
      - f_equal. f_equal. lia.
      - apply agree_sub with (n := e - s); [assumption|lia]. }
    destruct (byte_eqb (peek b s) "(") eqn:E1.
    { pose proof (sskip_loop_ok_inv _ _ _ _ _ _ H) as [_ Hle1].
      rewrite (agree_peek0 _ _ _ _ _ Hag) by lia. rewrite E1.
      rewrite <- (Nat.add_1_r s'). apply Hstep; [lia|].
      now rewrite Nat.add_1_r. }
    destruct (byte_eqb (peek b s) ")") eqn:E2.
    { pose proof (sskip_loop_ok_inv _ _ _ _ _ _ H) as [_ Hle1].
      rewrite (agree_peek0 _ _ _ _ _ Hag) by lia. rewrite E1, E2.
      rewrite <- (Nat.add_1_r s'). apply Hstep; [lia|].
      now rewrite Nat.add_1_r. }
    destruct (snext b s) as [n s1] eqn:En.
    destruct (n =? 0) eqn:E0; [discriminate|]. apply Nat.eqb_neq in E0.
    pose proof (sskip_loop_ok_inv _ _ _ _ _ _ H) as [_ Hle1].
    pose proof (snext_lt _ _ _ _ En E0) as Hlt.
    rewrite (agree_peek0 _ _ _ _ _ Hag) by lia. rewrite E1, E2.
    rewrite (snext_transport _ b' _ s' _ _ En E0).
    + apply Nat.eqb_neq in E0. rewrite E0.
      replace (s' + (s1 - s) + n) with (s' + (s1 + n - s)) by lia.
      apply Hstep; [lia|]. now replace (s + (s1 + n - s)) with (s1 + n) by lia.
    + pose proof (agree_sub _ _ _ _ _ 0 (s1 - s) Hag) as Hx.
      rewrite !Nat.add_0_r in Hx. apply Hx. lia.
Qed.

(** ** The canonical length *)

Lemma canon_loop_unfold (f : nat) (b : list byte) (L count level : nat) :
  canon_loop (S f) b L count level =
  if negb (L =? 0) && (L <=? count) then 0
  else
    let c := peek b count in
    if byte_eqb c "(" then canon_loop f b L (S count) (S level)
    else if byte_eqb c ")" then
      if level <=? 1 then (if level =? 0 then 0 else S count)
      else canon_loop f b L (S count) (level - 1)
    else if digitp c && negb (byte_eqb c "0") then
      let '(n, s1) := snext b count in
      if n =? 0 then 0
      else if negb (L =? 0) && (L <=? (s1 - 1) + n) then 0
      else canon_loop f b L (s1 + n) level
    else 0.
Proof. reflexivity. Qed.

Lemma canon_loop_pos (f : nat) (b : list byte) (L s d r : nat) :
  canon_loop f b L s d = r -> r <> 0 -> s < r.
Proof.
  revert s d; induction f as [|f IH]; intros s d H Hr; [simpl in H; lia|].
  rewrite canon_loop_unfold in H. cbv zeta in H.
  destruct (negb (L =? 0) && (L <=? s)); [lia|].
  destruct (byte_eqb (peek b s) "("). { apply IH in H; lia. }
  destruct (byte_eqb (peek b s) ")").
  { destruct (d <=? 1).
    - destruct (d =? 0); lia.
    - apply IH in H; lia. }
  destruct (digitp (peek b s) && negb (byte_eqb (peek b s) "0")); [|lia].
  destruct (snext b s) as [n s1] eqn:En.
  destruct (n =? 0) eqn:E0; [lia|]. apply Nat.eqb_neq in E0.
  destruct (negb (L =? 0) && (L <=? s1 - 1 + n)); [lia|].
  apply IH in H; [|assumption]. pose proof (snext_lt _ _ _ _ En E0). lia.
Qed.

Lemma canon_loop_fuel_mono (f f' : nat) (b : list byte) (L s d r : nat) :
  canon_loop f b L s d = r -> r <> 0 -> f <= f' -> canon_loop f' b L s d = r.
Proof.
  revert f' s d; induction f as [|f IH]; intros f' s d H Hr Hle;
    [simpl in H; lia|].
  destruct f' as [|f']; [lia|]. apply le_S_n in Hle.
  rewrite canon_loop_unfold in H. rewrite canon_loop_unfold. cbv zeta in *.
  destruct (negb (L =? 0) && (L <=? s)); [assumption|].
  destruct (byte_eqb (peek b s) "("). { now apply IH. }
  destruct (byte_eqb (peek b s) ")").
  { destruct (d <=? 1); [assumption|]. now apply IH. }
  destruct (digitp (peek b s) && negb (byte_eqb (peek b s) "0")); [|assumption].
  destruct (snext b s) as [n s1].
  destruct (n =? 0); [assumption|].
  destruct (negb (L =? 0) && (L <=? s1 - 1 + n)); [assumption|].
  now apply IH.
Qed.

Lemma bound_ok (L c : nat) :
  L = 0 \/ c < L -> negb (L =? 0) && (L <=? c) = false.
Proof.
  intros [->|H]; [reflexivity|].
  apply andb_false_iff. right. apply Nat.leb_gt. assumption.
Qed.

(** A scan that returns reads only the bytes of the value it measures,
    and never beyond a bound that contains them. *)
Lemma canon_loop_transport (f : nat) (b b' : list byte) (L' s s' d r : nat) :
  canon_loop f b 0 s d = r -> r <> 0 ->
  read_bytes b' s' (r - s) = read_bytes b s (r - s) ->
  L' = 0 \/ s' + (r - s) <= L' ->
  canon_loop f b' L' s' d = s' + (r - s).
Proof.
  revert s s' d; induction f as [|f IH]; intros s s' d H Hr Hag HL;
    [simpl in H; lia|].
  pose proof (canon_loop_pos _ _ _ _ _ _ H Hr) as Hlt.
  rewrite canon_loop_unfold in H. rewrite canon_loop_unfold. cbv zeta in *.
  change (negb (0 =? 0) && (0 <=? s)) with false in H. cbv iota in H.
  rewrite bound_ok by (destruct HL; [now left|right; lia]).
  rewrite (agree_peek0 _ _ _ _ _ Hag) by lia.
  assert (Hstep : forall k dd, s + k < r ->
            canon_loop f b 0 (s + k) dd = r ->
            canon_loop f b' L' (s' + k) dd = s' + (r - s)).
  { intros k dd Hk Hc. rewrite (IH (s + k) (s' + k) dd Hc Hr).
    - lia.
    - apply agree_sub with (n := r - s); [assumption|lia].
    - destruct HL; [now left|right; lia]. }
  destruct (byte_eqb (peek b s) "(").
  { pose proof (canon_loop_pos _ _ _ _ _ _ H Hr).
    rewrite <- (Nat.add_1_r s'). apply Hstep; [lia|]. now rewrite Nat.add_1_r. }
  destruct (byte_eqb (peek b s) ")").
  { destruct (d <=? 1).
    - destruct (d =? 0); lia.
    - pose proof (canon_loop_pos _ _ _ _ _ _ H Hr).
      rewrite <- (Nat.add_1_r s'). apply Hstep; [lia|].
      now rewrite Nat.add_1_r. }
  destruct (digitp (peek b s) && negb (byte_eqb (peek b s) "0")); [|lia].
  destruct (snext b s) as [n s1] eqn:En.
  destruct (n =? 0) eqn:E0; [lia|]. apply Nat.eqb_neq in E0.
  pose proof (canon_loop_pos _ _ _ _ _ _ H Hr) as Hlt1.
  pose proof (snext_lt _ _ _ _ En E0) as Hlt2.
  rewrite (snext_transport _ b' _ s' _ _ En E0).
  - apply Nat.eqb_neq in E0. rewrite E0.
    rewrite bound_ok by (destruct HL; [now left|right; lia]).
    replace (s' + (s1 - s) + n) with (s' + (s1 + n - s)) by lia.
    apply Hstep; [lia|]. now replace (s + (s1 + n - s)) with (s1 + n) by lia.
  - pose proof (agree_sub _ _ _ _ _ 0 (s1 - s) Hag) as Hx.
    rewrite !Nat.add_0_r in Hx. apply Hx. lia.
Qed.

(** On a canonical value [sskip] and the canonical length agree. *)
Lemma canon_loop_sskip (f : nat) (b : list byte) (s d r : nat) :
  canon_loop f b 0 s d = r -> r <> 0 -> 0 < d ->
  sskip_loop f b s d = Ok (r, 0).
Proof.
  revert s d; induction f as [|f IH]; intros s d H Hr Hd; [simpl in H; lia|].
  rewrite canon_loop_unfold in H. rewrite sskip_loop_unfold. cbv zeta in *.
  change (negb (0 =? 0) && (0 <=? s)) with false in H. cbv iota in H.
  destruct (d =? 0) eqn:Ed; [apply Nat.eqb_eq in Ed; lia|].
  destruct (byte_eqb (peek b s) "("). { apply IH; [assumption..|lia]. }
  destruct (byte_eqb (peek b s) ")").
  { destruct (d <=? 1) eqn:E1.
    - apply Nat.leb_le in E1. subst r.
      replace (d - 1) with 0 by lia. now rewrite sskip_loop_unfold.
    - apply Nat.leb_gt in E1. apply IH; [assumption..|lia]. }
  destruct (digitp (peek b s) && negb (byte_eqb (peek b s) "0")); [|lia].
  destruct (snext b s) as [n s1].
  destruct (n =? 0); [lia|].
  change (negb (0 =? 0) && (0 <=? s1 - 1 + n)) with false in H. cbv iota in H.
  now apply IH.
Qed.

(** ** The classifier against the specification's wording *)


Lemma read_bytes_no_NUL_in_bounds (b : list byte) (s n : nat) :
  no_NUL (read_bytes b s n) -> 0 < n -> s + n <= length b.
Proof.
  intros H Hn. destruct (Nat.le_gt_cases (s + n) (length b)) as [|Hgt];
    [assumption|exfalso].
  unfold no_NUL in H. rewrite Forall_forall in H.
  apply (H (peek b (s + (n - 1)))).
  - unfold read_bytes. apply in_map. apply in_seq. lia.
  - apply peek_beyond. lia.
Qed.



(** ** The key derivation *)

Section S2K.
Variables (s2ksalt : list byte * nat) (passphrase : list byte).

Let pwlen := strlen passphrase.
Let salt8 := read_bytes (fst s2ksalt) (snd s2ksalt) 8.
Let round := salt8 ++ read_bytes passphrase 0 pwlen.

Lemma s2k_feed_spec (fuel : nat) (len2 count : Z) :
  (0 < len2)%Z -> (0 < count)%Z -> Z.to_nat count <= fuel ->
  s2k_feed fuel s2ksalt passphrase pwlen len2 count
  = Ok (concat (repeat round (Z.to_nat ((count - 1) / len2))),
        (count - (count - 1) / len2 * len2)%Z).
Proof.
  intros Hlen. revert count.
  induction fuel as [|f IH]; intros count Hc Hf.
  - lia.
  - cbn [s2k_feed]. destruct (len2 <? count)%Z eqn:E.
    + apply Z.ltb_lt in E.
      rewrite IH by lia. cbn [bind].
      replace ((count - len2 - 1) / len2)%Z with ((count - 1) / len2 - 1)%Z.
      2:{ replace (count - len2 - 1)%Z with (count - 1 + (-1) * len2)%Z by lia.
          rewrite Z.div_add by lia. lia. }
      assert (Hk : (1 <= (count - 1) / len2)%Z).
      { apply Z.div_le_lower_bound; lia. }
      replace (Z.to_nat ((count - 1) / len2))
        with (S (Z.to_nat ((count - 1) / len2 - 1))) by lia.
      cbn [repeat concat]. unfold round, salt8. rewrite <- !app_assoc.
      do 2 f_equal. lia.
    + apply Z.ltb_ge in E.
      rewrite Z.div_small by lia. cbn. do 2 f_equal. lia.
Qed.



Lemma s2k_material_total (s2kmode : nat) (s2kcount : Z) (md : list byte) :
  exists md', s2k_material passphrase s2kmode s2ksalt s2kcount md = Ok md'.
Proof.
  unfold s2k_material. fold pwlen.
  destruct ((s2kmode =? 1) || (s2kmode =? 3)); [|eexists; reflexivity].
  set (len2 := (Z.of_nat pwlen + 8)%Z).
  set (count := if s2kmode =? 3 then _ else _).
  assert (Hlen2 : (0 < len2)%Z) by (unfold len2; lia).
  assert (Hcount : (0 < count)%Z).
  { unfold count. destruct (s2kmode =? 3); [|lia].
    destruct (s2k_decode_count s2kcount <? len2)%Z eqn:E; [lia|].
    apply Z.ltb_ge in E. lia. }
  rewrite s2k_feed_spec by lia. cbn [bind].
  destruct (_ <? 8)%Z; eexists; reflexivity.
Qed.
End S2K.

(** The decoded count of a count octet needs no wrap-around. *)
Lemma s2k_decode_count_octet (c : Z) :
  (0 <= c < 256)%Z ->
  s2k_decode_count c = ((16 + c mod 16) * 2 ^ (c / 16 + 6))%Z.
Proof.
  intro H. unfold s2k_decode_count.
  change 15%Z with (Z.ones 4). rewrite Z.land_ones by lia.
  rewrite Z.shiftr_div_pow2 by lia. change (2 ^ 4)%Z with 16%Z.
  assert (H1 : (0 <= c / 16 < 16)%Z).
  { split; [apply Z.div_pos; lia|apply Z.div_lt_upper_bound; lia]. }
  pose proof (Z.mod_pos_bound c 16 ltac:(lia)) as H2.
  rewrite Z.shiftl_mul_pow2 by lia.
  assert (Hp : (0 < 2 ^ (c / 16 + 6) <= 2 ^ 21)%Z).
  { split; [apply Z.pow_pos_nonneg; lia|apply Z.pow_le_mono_r; lia]. }
  apply Z.mod_small. split; [nia|].
  apply Z.le_lt_trans with (31 * 2 ^ 21)%Z; [|reflexivity].
  apply Z.mul_le_mono_nonneg; lia.
Qed.

Section KDFLoop.
Context {G : Gcrypt}.
Variables (passphrase : list byte) (hashalgo s2kmode : nat)
          (s2ksalt : list byte * nat) (s2kcount : Z) (keylen : nat).

Let dlen := gcry_md_get_algo_dlen hashalgo.

Lemma passes_needed_step (n d : nat) :
  0 < d -> 0 < n -> passes_needed n d = S (passes_needed (n - Nat.min d n) d).
Proof.
  intros Hd Hn. unfold passes_needed.
  destruct (Nat.le_gt_cases n d) as [Hle|Hgt].
  - rewrite Nat.min_r by assumption. rewrite Nat.sub_diag.
    replace (0 + d - 1) with (d - 1) by lia.
    rewrite (Nat.div_small (d - 1) d) by lia.
    symmetry. apply Nat.div_unique with (r := n - 1); lia.
  - rewrite Nat.min_l by lia.
    replace (n + d - 1) with ((n - d + d - 1) + 1 * d) by lia.
    rewrite Nat.div_add by lia. lia.
Qed.

(** One pass of the loop: it copies [min dlen (keylen - used)] bytes. *)
Lemma hash_passphrase_loop_step (fuel pass used : nat) (key : list byte) :
  used < keylen ->
  exists md,
    s2k_material passphrase s2kmode s2ksalt s2kcount (repeat NUL pass) = Ok md /\
    hash_passphrase_loop (S fuel) passphrase hashalgo s2kmode s2ksalt s2kcount
                         keylen pass used key
    = hash_passphrase_loop fuel passphrase hashalgo s2kmode s2ksalt s2kcount
        keylen (S pass) (used + Nat.min dlen (keylen - used))
        (key ++ read_bytes (gcry_md_digest hashalgo md) 0
                           (Nat.min dlen (keylen - used))).
Proof.
  intro Hu.
  destruct (s2k_material_total s2ksalt passphrase s2kmode s2kcount
                               (repeat NUL pass)) as [md Hmd].
  exists md. split; [exact Hmd|].
  cbn [hash_passphrase_loop].
  replace (used <? keylen) with true by (symmetry; apply Nat.ltb_lt; lia).
  rewrite Hmd. cbn [bind]. fold dlen.
  replace (if keylen - used <? dlen then keylen - used else dlen)
    with (Nat.min dlen (keylen - used)); [reflexivity|].
  destruct (keylen - used <? dlen) eqn:E.
  - apply Nat.ltb_lt in E. lia.
  - apply Nat.ltb_ge in E. lia.
Qed.

Lemma hash_passphrase_loop_runs (fuel pass used : nat) (key : list byte) :
  0 < dlen -> used <= keylen -> keylen - used <= fuel ->
  exists key',
    hash_passphrase_loop fuel passphrase hashalgo s2kmode s2ksalt s2kcount
                         keylen pass used key
    = Ok (pass + passes_needed (keylen - used) dlen, keylen, key')
    /\ length key' = length key + (keylen - used).
Proof.
  intro Hd. revert pass used key.
  induction fuel as [|f IH]; intros pass used key Hu Hf.
  - assert (used = keylen) by lia. subst used. exists key.
    cbn [hash_passphrase_loop]. rewrite Nat.ltb_irrefl, Nat.sub_diag.
    unfold passes_needed. rewrite Nat.div_small by lia.
    split; [do 3 f_equal; lia|lia].
  - destruct (Nat.eq_dec used keylen) as [->|Hne].
    + exists key. cbn [hash_passphrase_loop].
      rewrite Nat.ltb_irrefl, Nat.sub_diag.
      unfold passes_needed. rewrite Nat.div_small by lia.
      split; [do 3 f_equal; lia|lia].
    + destruct (hash_passphrase_loop_step f pass used key ltac:(lia))
        as (md & _ & ->).
      destruct (IH (S pass) (used + Nat.min dlen (keylen - used))
                   (key ++ read_bytes (gcry_md_digest hashalgo md) 0
                                      (Nat.min dlen (keylen - used)))
                   ltac:(lia) ltac:(lia)) as (key' & -> & Hl).
      exists key'. split.
      * rewrite (passes_needed_step (keylen - used) dlen) by lia.
        do 3 f_equal.
        replace (keylen - (used + Nat.min dlen (keylen - used)))
          with (keylen - used - Nat.min dlen (keylen - used)) by lia.
        lia.
      * rewrite Hl, length_app, length_read_bytes. lia.
Qed.
End KDFLoop.

(** ** Parameter lists *)

Lemma digitp_not_open (c : byte) : digitp c = true -> byte_eqb c "(" = false.
Proof.
  intro H. apply byte_eqb_neq. intros ->. discriminate H.
Qed.

Lemma digitp_not_close (c : byte) : digitp c = true -> byte_eqb c ")" = false.
Proof.
  intro H. apply byte_eqb_neq. intros ->. discriminate H.
Qed.

Lemma param_at_weaken (canon : bool) (b : list byte) (s e : nat) (c : byte) :
  param_at canon b s e c -> param_at false b s e c.
Proof.
  intros (a1 & n2 & a2 & H1 & H2 & H3 & H4 & H5 & H6 & H7 & _).
  exists a1, n2, a2. repeat split; try assumption; discriminate.
Qed.

Lemma param_at_size (canon : bool) (b : list byte) (s e : nat) (c : byte) :
  param_at canon b s e c -> s + 6 <= e.
Proof.
  intros (a1 & n2 & a2 & H1 & H2 & H3 & H4 & H5 & H6 & H7 & _).
  pose proof (snext_lt _ _ _ _ H2 ltac:(lia)).
  pose proof (snext_lt _ _ _ _ H4 H5). lia.
Qed.

Lemma param_at_transport (canon : bool) (b b' : list byte) (s s' e : nat) (c : byte) :
  param_at canon b s e c ->
  read_bytes b' s' (e - s) = read_bytes b s (e - s) ->
  param_at canon b' s' (s' + (e - s)) c.
Proof.
  intros (a1 & n2 & a2 & H1 & H2 & H3 & H4 & H5 & H6 & H7 & H8) Hag.
  pose proof (snext_lt _ _ _ _ H2 ltac:(lia)) as L1.
  pose proof (snext_lt _ _ _ _ H4 H5) as L2.
  assert (Hpk : forall x, s <= x < e -> peek b' (s' + (x - s)) = peek b x).
  { intros x Hx. rewrite (agree_peek _ _ _ _ _ (x - s) Hag) by lia.
    f_equal. lia. }
  exists (s' + (a1 - s)), n2, (s' + (a2 - s)). repeat split.
  - rewrite <- H1, <- (Hpk s) by lia. f_equal. lia.
  - replace (S s') with (s' + 1) by lia.
    rewrite (snext_transport b b' (S s) (s' + 1) 1 a1 H2 ltac:(lia)).
    + f_equal. lia.
    + replace (s' + 1) with (s' + (S s - s)) by lia.
      apply agree_at with (n := e - s); [assumption|lia..].
  - rewrite Hpk by lia. assumption.
  - replace (s' + (a1 - s) + 1) with (s' + (a1 + 1 - s)) by lia.
    rewrite (snext_transport b b' (a1 + 1) _ n2 a2 H4 H5).
    + f_equal. lia.
    + apply agree_at with (n := e - s); [assumption|lia..].
  - assumption.
  - replace (s' + (a2 - s) + n2) with (s' + (a2 + n2 - s)) by lia.
    rewrite Hpk by lia. assumption.
  - lia.
  - replace (S s') with (s' + (S s - s)) by lia. rewrite Hpk by lia.
    now apply H8.
  - replace (s' + (a1 - s) + 1) with (s' + (a1 + 1 - s)) by lia.
    rewrite Hpk by lia. now apply H8.
Qed.

Lemma pair_loop_unfold (f : nat) (b : list byte) (s : nat) :
  pair_loop (S f) b s =
  if byte_eqb (peek b s) "(" then
    let s := S s in
    let '(n, s) := snext b s in
    guard negb (n =? 0) orelse GNUPG_Invalid_Sexp ;;
    let s := s + n in
    let '(n, s) := snext b s in
    guard negb (n =? 0) orelse GNUPG_Invalid_Sexp ;;
    let s := s + n in
    guard byte_eqb (peek b s) ")" orelse GNUPG_Invalid_Sexp ;;
    pair_loop f b (S s)
  else Ok s.
Proof. reflexivity. Qed.

Lemma pair_loop_stop (f : nat) (b : list byte) (s : nat) :
  peek b s <> "(" -> pair_loop f b s = Ok s.
Proof.
  intro H. apply byte_eqb_neq in H. destruct f; simpl; now rewrite H.
Qed.

Lemma neq_0_eqb (n : nat) : n <> 0 -> (n =? 0) = false.
Proof. apply Nat.eqb_neq. Qed.

Lemma pair_loop_param (canon : bool) (f : nat) (b : list byte) (s e : nat) (c : byte) :
  param_at canon b s e c -> pair_loop (S f) b s = pair_loop f b e.
Proof.
  intros (a1 & n2 & a2 & H1 & H2 & H3 & H4 & H5 & H6 & -> & _).
  rewrite pair_loop_unfold, H1, byte_eqb_refl. cbv zeta.
  rewrite H2. cbn [Nat.eqb negb]. rewrite H4, (neq_0_eqb _ H5). cbn [negb].
  now rewrite H6, byte_eqb_refl.
Qed.

Lemma canon_loop_param (f : nat) (b : list byte) (L s e d : nat) (c : byte) :
  param_at true b s e c -> 0 < d -> L = 0 \/ e <= L ->
  canon_loop (4 + f) b L s d = canon_loop f b L e d.
Proof.
  intros (a1 & n2 & a2 & H1 & H2 & H3 & H4 & H5 & H6 & -> & H8) Hd HL.
  destruct (H8 eq_refl) as [Z1 Z2].
  pose proof (snext_lt _ _ _ _ H2 ltac:(lia)) as L1.
  pose proof (snext_lt _ _ _ _ H4 H5) as L2.
  pose proof (snext_first_digit _ _ _ _ H2 ltac:(lia)) as D1.
  pose proof (snext_first_digit _ _ _ _ H4 H5) as D2.
  apply byte_eqb_neq in Z1, Z2.
  change (4 + f) with (S (S (S (S f)))).
  rewrite canon_loop_unfold. cbv zeta.
  rewrite bound_ok by (destruct HL; [now left|right; lia]).
  rewrite H1, byte_eqb_refl.
  rewrite canon_loop_unfold. cbv zeta.
  rewrite bound_ok by (destruct HL; [now left|right; lia]).
  rewrite (digitp_not_open _ D1), (digitp_not_close _ D1), D1, Z1. cbn [negb andb].
  rewrite H2. cbn [Nat.eqb].
  rewrite bound_ok by (destruct HL; [now left|right; lia]).
  rewrite canon_loop_unfold. cbv zeta.
  rewrite bound_ok by (destruct HL; [now left|right; lia]).
  rewrite (digitp_not_open _ D2), (digitp_not_close _ D2), D2, Z2. cbn [negb andb].
  rewrite H4, (neq_0_eqb _ H5).
  rewrite bound_ok by (destruct HL; [now left|right; lia]).
  rewrite canon_loop_unfold. cbv zeta.
  rewrite bound_ok by (destruct HL; [now left|right; lia]).
  rewrite H6. change (byte_eqb ")" "(") with false. rewrite byte_eqb_refl.
  replace (S d <=? 1) with false by (symmetry; apply Nat.leb_gt; lia).
  now replace (S d - 1) with d by lia.
Qed.

(** A scan that succeeds over a parameter list shows that the list is
    canonical. *)
Lemma canon_loop_param_inv (canon : bool) (f : nat) (b : list byte)
      (s e d r : nat) (c : byte) :
  param_at canon b s e c -> 0 < d ->
  canon_loop (4 + f) b 0 s d = r -> r <> 0 ->
  param_at true b s e c /\ canon_loop f b 0 e d = r.
Proof.
  intros (a1 & n2 & a2 & H1 & H2 & H3 & H4 & H5 & H6 & -> & H8) Hd H Hr.
  pose proof (snext_first_digit _ _ _ _ H2 ltac:(lia)) as D1.
  pose proof (snext_first_digit _ _ _ _ H4 H5) as D2.
  change (4 + f) with (S (S (S (S f)))) in H.
  rewrite canon_loop_unfold in H. cbv zeta in H.
  change (negb (0 =? 0)) with false in H. cbn [andb] in H.
  rewrite H1, byte_eqb_refl in H.
  rewrite canon_loop_unfold in H. cbv zeta in H.
  change (negb (0 =? 0)) with false in H. cbn [andb] in H.
  rewrite (digitp_not_open _ D1), (digitp_not_close _ D1), D1 in H.
  destruct (byte_eqb (peek b (S s)) "0") eqn:Z1; cbn [negb andb] in H; [lia|].
  rewrite H2 in H. cbn [Nat.eqb] in H.
  rewrite canon_loop_unfold in H. cbv zeta in H.
  change (negb (0 =? 0)) with false in H. cbn [andb] in H.
  rewrite (digitp_not_open _ D2), (digitp_not_close _ D2), D2 in H.
  destruct (byte_eqb (peek b (a1 + 1)) "0") eqn:Z2; cbn [negb andb] in H; [lia|].
  rewrite H4, (neq_0_eqb _ H5) in H.
  rewrite canon_loop_unfold in H. cbv zeta in H.
  change (negb (0 =? 0)) with false in H. cbn [andb] in H.
  rewrite H6 in H. change (byte_eqb ")" "(") with false in H.
  rewrite byte_eqb_refl in H.
  replace (S d <=? 1) with false in H by (symmetry; apply Nat.leb_gt; lia).
  replace (S d - 1) with d in H by lia.
  split; [|exact H].
  exists a1, n2, a2. apply byte_eqb_neq in Z1, Z2. repeat split; assumption.
Qed.

Lemma sskip_value_close (f : nat) (b : list byte) (s n a : nat) :
  snext b s = (n, a) -> n <> 0 -> peek b (a + n) = ")" ->
  sskip_loop (S (S f)) b s 1 = Ok (S (a + n), 0).
Proof.
  intros H Hn Hc. pose proof (snext_first_digit _ _ _ _ H Hn) as D.
  rewrite sskip_loop_unfold. cbn [Nat.eqb].
  rewrite (digitp_not_open _ D), (digitp_not_close _ D), H, (neq_0_eqb _ Hn).
  rewrite sskip_loop_unfold. cbn [Nat.eqb].
  rewrite Hc. change (byte_eqb ")" "(") with false. rewrite byte_eqb_refl.
  cbn [Nat.sub]. now rewrite sskip_loop_unfold.
Qed.

Lemma find_protected_param (canon : bool) (f : nat) (b : list byte) (s e : nat) (c : byte) :
  param_at canon b s e c -> find_protected (S f) b s = find_protected f b e.
Proof.
  intros (a1 & n2 & a2 & H1 & H2 & H3 & H4 & H5 & H6 & -> & _).
  assert (Hlen : 0 < length b).
  { assert (s < length b); [|lia]. apply peek_in_bounds. rewrite H1. discriminate. }
  cbn [find_protected]. rewrite H1, byte_eqb_refl, H2. cbn [Nat.eqb negb].
  rewrite smatch_length_neq by discriminate.
  unfold sskip. destruct (length b) as [|l]; [lia|].
  rewrite (sskip_value_close l b (a1 + 1) n2 a2 H4 H5 H6). reflexivity.
Qed.

(** ** Chains of parameter lists *)

Lemma param_chain_weaken (canon : bool) (b : list byte) (names : list byte) (s e : nat) :
  param_chain canon b names s e -> param_chain false b names s e.
Proof.
  revert s; induction names as [|c names IH]; intros s H; [exact H|].
  destruct H as (m & H1 & H2). exists m. split.
  - now apply param_at_weaken with canon.
  - now apply IH.
Qed.

Lemma param_chain_size (canon : bool) (b : list byte) (names : list byte) (s e : nat) :
  param_chain canon b names s e -> s + 6 * length names <= e.
Proof.
  revert s; induction names as [|c names IH]; intros s H.
  - simpl in *. lia.
  - destruct H as (m & H1 & H2). apply param_at_size in H1. apply IH in H2.
    simpl length. lia.
Qed.

Lemma param_chain_app (canon : bool) (b : list byte) (x y : list byte) (s e : nat) :
  param_chain canon b (x ++ y) s e
  <-> exists m, param_chain canon b x s m /\ param_chain canon b y m e.
Proof.
  revert s; induction x as [|c x IH]; intros s; simpl.
  - split.
    + intro H. exists s. now split.
    + intros (m & -> & H). exact H.
  - split.
    + intros (m & H1 & H2). apply IH in H2 as (m' & H2 & H3).
      exists m'. split; [exists m; now split|assumption].
    + intros (m' & (m & H1 & H2) & H3). exists m. split; [assumption|].
      apply IH. exists m'. now split.
Qed.

Lemma param_chain_transport (canon : bool) (b b' : list byte) (names : list byte)
      (s s' e : nat) :
  param_chain canon b names s e ->
  read_bytes b' s' (e - s) = read_bytes b s (e - s) ->
  param_chain canon b' names s' (s' + (e - s)).
Proof.
  revert s s'; induction names as [|c names IH]; intros s s' H Hag.
  - simpl in *. subst e. lia.
  - destruct H as (m & H1 & H2).
    pose proof (param_at_size _ _ _ _ _ H1) as S1.
    pose proof (param_chain_size _ _ _ _ _ H2) as S2.
    exists (s' + (m - s)). split.
    + apply param_at_transport with b; [assumption|].
      pose proof (agree_sub _ _ _ _ _ 0 (m - s) Hag ltac:(lia)) as Hx.
      now rewrite !Nat.add_0_r in Hx.
    + replace (s' + (e - s)) with (s' + (m - s) + (e - m)) by lia.
      apply IH; [assumption|].
      apply agree_at with (n := e - s); [assumption|lia..].
Qed.

Lemma pair_loop_chain (canon : bool) (f : nat) (b : list byte) (names : list byte)
      (s e : nat) :
  param_chain canon b names s e ->
  pair_loop (length names + f) b s = pair_loop f b e.
Proof.
  revert s; induction names as [|c names IH]; intros s H.
  - simpl in *. now subst.
  - destruct H as (m & H1 & H2). cbn [length Nat.add].
    rewrite (pair_loop_param _ _ _ _ _ _ H1). now apply IH.
Qed.

Lemma find_protected_chain (canon : bool) (f : nat) (b : list byte)
      (names : list byte) (s e : nat) :
  param_chain canon b names s e ->
  find_protected (length names + f) b s = find_protected f b e.
Proof.
  revert s; induction names as [|c names IH]; intros s H.
  - simpl in *. now subst.
  - destruct H as (m & H1 & H2). cbn [length Nat.add].
    rewrite (find_protected_param _ _ _ _ _ _ H1). now apply IH.
Qed.

Lemma canon_loop_chain (f : nat) (b : list byte) (names : list byte)
      (L s e d : nat) :
  param_chain true b names s e -> 0 < d -> L = 0 \/ e <= L ->
  canon_loop (4 * length names + f) b L s d = canon_loop f b L e d.
Proof.
  revert s; induction names as [|c names IH]; intros s H Hd HL.
  - simpl in *. now subst.
  - destruct H as (m & H1 & H2).
    pose proof (param_chain_size _ _ _ _ _ H2) as S2.
    replace (4 * length (c :: names) + f) with (4 + (4 * length names + f))
      by (simpl length; lia).
    rewrite (canon_loop_param _ _ _ _ _ _ _ H1 Hd)
      by (destruct HL; [now left|right; lia]).
    now apply IH.
Qed.

Lemma canon_loop_chain_inv (canon : bool) (f : nat) (b : list byte)
      (names : list byte) (s e d r : nat) :
  param_chain canon b names s e -> 0 < d ->
  canon_loop (4 * length names + f) b 0 s d = r -> r <> 0 ->
  param_chain true b names s e /\ canon_loop f b 0 e d = r.
Proof.
  revert s; induction names as [|c names IH]; intros s H Hd Hc Hr.
  - simpl in *. subst e. now split.
  - destruct H as (m & H1 & H2).
    replace (4 * length (c :: names) + f) with (4 + (4 * length names + f)) in Hc
      by (simpl length; lia).
    destruct (canon_loop_param_inv _ _ _ _ _ _ _ _ H1 Hd Hc Hr) as [H1' Hc'].
    destruct (IH m H2 Hd Hc' Hr) as [H2' Hc''].
    split; [|assumption]. exists m. now split.
Qed.

(** ** Single steps of the canonical length *)

Lemma canon_loop_open (f : nat) (b : list byte) (L s d : nat) :
  peek b s = "(" -> L = 0 \/ s < L ->
  canon_loop (S f) b L s d = canon_loop f b L (S s) (S d).
Proof.
  intros H HL. rewrite canon_loop_unfold. cbv zeta.
  now rewrite bound_ok, H, byte_eqb_refl.
Qed.

Lemma canon_loop_close (f : nat) (b : list byte) (L s d : nat) :
  peek b s = ")" -> L = 0 \/ s < L -> 1 < d ->
  canon_loop (S f) b L s d = canon_loop f b L (S s) (d - 1).
Proof.
  intros H HL Hd. rewrite canon_loop_unfold. cbv zeta.
  rewrite bound_ok, H by assumption.
  change (byte_eqb ")" "(") with false. rewrite byte_eqb_refl.
  now replace (d <=? 1) with false by (symmetry; apply Nat.leb_gt; lia).
Qed.

Lemma canon_loop_last (f : nat) (b : list byte) (L s : nat) :
  peek b s = ")" -> L = 0 \/ s < L ->
  canon_loop (S f) b L s 1 = S s.
Proof.
  intros H HL. rewrite canon_loop_unfold. cbv zeta.
  rewrite bound_ok, H by assumption.
  change (byte_eqb ")" "(") with false. now rewrite byte_eqb_refl.
Qed.

Lemma canon_loop_atom (f : nat) (b : list byte) (L s d n a : nat) :
  snext b s = (n, a) -> n <> 0 -> peek b s <> "0" -> L = 0 \/ a + n <= L ->
  canon_loop (S f) b L s d = canon_loop f b L (a + n) d.
Proof.
  intros H Hn Hz HL.
  pose proof (snext_first_digit _ _ _ _ H Hn) as D.
  pose proof (snext_lt _ _ _ _ H Hn) as Hlt.
  apply byte_eqb_neq in Hz.
  rewrite canon_loop_unfold. cbv zeta.
  rewrite bound_ok by (destruct HL; [now left|right; lia]).
  rewrite (digitp_not_open _ D), (digitp_not_close _ D), D, Hz. cbn [negb andb].
  rewrite H, (neq_0_eqb _ Hn).
  now rewrite bound_ok by (destruct HL; [now left|right; lia]).
Qed.

Lemma canon_loop_open_inv (f : nat) (b : list byte) (s d r : nat) :
  peek b s = "(" -> canon_loop (S f) b 0 s d = r ->
  canon_loop f b 0 (S s) (S d) = r.
Proof. intros H Hc. rewrite canon_loop_open in Hc; auto. Qed.

Lemma canon_loop_atom_inv (f : nat) (b : list byte) (s d n a r : nat) :
  snext b s = (n, a) -> n <> 0 -> canon_loop (S f) b 0 s d = r -> r <> 0 ->
  peek b s <> "0" /\ canon_loop f b 0 (a + n) d = r.
Proof.
  intros H Hn Hc Hr.
  pose proof (snext_first_digit _ _ _ _ H Hn) as D.
  rewrite canon_loop_unfold in Hc. cbv zeta in Hc.
  change (negb (0 =? 0)) with false in Hc. cbn [andb] in Hc.
  rewrite (digitp_not_open _ D), (digitp_not_close _ D), D in Hc.
  destruct (byte_eqb (peek b s) "0") eqn:Z; cbn [negb andb] in Hc; [lia|].
  rewrite H, (neq_0_eqb _ Hn) in Hc. apply byte_eqb_neq in Z. now split.
Qed.

(** ** A two-digit length prefix *)

Lemma digit_char_atoi_1 (c : byte) : digitp c = true -> digit_char (atoi_1 c) = c.
Proof.
  unfold digitp, atoi_1, digit_char. intro H.
  apply andb_true_iff in H as [H1 H2].
  apply Nat.leb_le in H1, H2.
  replace (48 + (nat_of_ascii c - 48)) with (nat_of_ascii c) by lia.
  apply ascii_nat_embedding.
Qed.

Lemma atoi_1_bound (c : byte) : digitp c = true -> atoi_1 c < 10.
Proof.
  unfold digitp, atoi_1. intro H. apply andb_true_iff in H as [H1 H2].
  apply Nat.leb_le in H1, H2. lia.
Qed.

Lemma atoi_1_zero (c : byte) : digitp c = true -> atoi_1 c = 0 -> c = "0".
Proof.
  intros D H. rewrite <- (digit_char_atoi_1 c D), H. reflexivity.
Qed.

Lemma skipn_cons_peek (b : list byte) (s : nat) (c : byte) (l : list byte) :
  skipn s b = c :: l -> peek b s = c /\ skipn (S s) b = l.
Proof.
  intro H. split.
  - rewrite <- (Nat.add_0_r s), <- nth_skipn_peek, H. reflexivity.
  - replace (S s) with (1 + s) by lia. now rewrite <- skipn_skipn, H.
Qed.

Lemma snext_two_digits (b : list byte) (s n a : nat) :
  snext b s = (n, a) -> 10 <= n < 100 -> peek b s <> "0" ->
  a = s + 3 /\ bytes_at b s [digit_char (n / 10); digit_char (n mod 10); ":"].
Proof.
  intros H Hn Hz.
  destruct (snext_inv _ _ _ _ H ltac:(lia)) as (e & Hd & -> & Hle & Hc).
  destruct (skipn s b) as [|c1 l1] eqn:E1.
  { simpl in Hd. injection Hd as <- _. lia. }
  apply skipn_cons_peek in E1 as [P1 E1]. rewrite P1 in Hz.
  cbn [snext_digits] in Hd. rewrite snext_cond_digitp in Hd.
  destruct (digitp c1) eqn:D1; [|injection Hd as <- _; lia].
  assert (A1 : 1 <= atoi_1 c1 < 10).
  { pose proof (atoi_1_bound c1 D1).
    destruct (Nat.eq_dec (atoi_1 c1) 0) as [Z|Z]; [|lia].
    now apply atoi_1_zero in Z. }
  destruct l1 as [|c2 l2].
  { simpl in Hd. injection Hd as <- _. lia. }
  apply skipn_cons_peek in E1 as [P2 E2].
  cbn [snext_digits] in Hd. rewrite snext_cond_digitp in Hd.
  destruct (digitp c2) eqn:D2; [|injection Hd as <- _; lia].
  pose proof (atoi_1_bound c2 D2) as A2.
  assert (He : e = S (S s) /\ n = atoi_1 c1 * 10 + atoi_1 c2).
  { destruct l2 as [|c3 l3].
    - simpl in Hd. injection Hd as <- <-. lia.
    - cbn [snext_digits] in Hd. rewrite snext_cond_digitp in Hd.
      destruct (digitp c3).
      + apply snext_digits_ge in Hd. lia.
      + injection Hd as <- <-. lia. }
  destruct He as [-> ->]. split; [lia|].
  apply bytes_at_intro. intros i Hi. cbn [length] in Hi.
  replace ((atoi_1 c1 * 10 + atoi_1 c2) / 10) with (atoi_1 c1).
  2:{ apply Nat.div_unique with (r := atoi_1 c2); lia. }
  replace ((atoi_1 c1 * 10 + atoi_1 c2) mod 10) with (atoi_1 c2).
  2:{ apply Nat.mod_unique with (q := atoi_1 c1); lia. }
  rewrite !digit_char_atoi_1 by assumption.
  destruct i as [|[|[|i]]]; try lia.
  - now rewrite Nat.add_0_r.
  - now rewrite Nat.add_1_r.
  - replace (s + 2) with (S (S s)) by lia. exact Hc.
Qed.

(** ** What agent_protect has parsed *)

Lemma protect_parms_cons (c : byte) (ps : list byte) (i : nat) (info : protect_info_t)
      (b : list byte) (s : nat) (pb pe : option nat)
      (r : nat * option nat * option nat) :
  protect_parms (c :: ps) i info b s pb pe = Ok r ->
  exists e, param_at false b s e c /\
    protect_parms ps (S i) info b e
      (if i =? prot_from info then Some s else pb)
      (if i =? prot_to info then Some (e - 1) else pe) = Ok r.
Proof.
  cbn [protect_parms]. intro H.
  destruct (byte_eqb (peek b s) "(") eqn:E1; [|discriminate].
  destruct (snext b (S s)) as [n1 a1] eqn:E2.
  destruct (n1 =? 0) eqn:E3; [discriminate|]. cbn [negb] in H.
  destruct (n1 =? 1) eqn:E4; cbn [negb orb] in H; [|discriminate].
  destruct (byte_eqb c (peek b a1)) eqn:E5; cbn [negb] in H; [|discriminate].
  destruct (snext b (a1 + n1)) as [n2 a2] eqn:E6.
  destruct (n2 =? 0) eqn:E7; [discriminate|]. cbn [negb] in H.
  destruct (byte_eqb (peek b (a2 + n2)) ")") eqn:E8; [|discriminate].
  apply Nat.eqb_eq in E4. subst n1.
  apply byte_eqb_eq in E1, E5, E8. apply Nat.eqb_neq in E7.
  exists (S (a2 + n2)). split.
  - exists a1, n2, a2. repeat split; auto; discriminate.
  - now replace (S (a2 + n2) - 1) with (a2 + n2) by lia.
Qed.

Lemma agent_protect_scan_inv (K : list byte) (sc : protect_scan) :
  agent_protect_scan K = Ok sc ->
  exists a0 a3 e, key_layout false K a0 a3 e sc.
Proof.
  unfold agent_protect_scan. intro H.
  destruct (byte_eqb (peek K 0) "(") eqn:E1; [|discriminate].
  destruct (snext K 1) as [n0 a0] eqn:E2.
  destruct (n0 =? 0) eqn:E3; [discriminate|]. cbn [negb] in H.
  destruct (smatch K a0 n0 (lit "private-key")) as [m s0] eqn:E4.
  destruct m; [|discriminate].
  apply smatch_true_inv in E4 as (-> & B1 & ->).
  change (length (lit "private-key")) with 11 in *.
  destruct (byte_eqb (peek K (a0 + 11)) "(") eqn:E5; [|discriminate].
  destruct (snext K (S (a0 + 11))) as [n3 a3] eqn:E6.
  destruct (n3 =? 0) eqn:E7; [discriminate|]. cbn [negb] in H.
  cbn [find_algo protect_info algo] in H.
  destruct (smatch K a3 n3 (lit "rsa")) as [m s3] eqn:E8.
  destruct m; [|discriminate].
  apply smatch_true_inv in E8 as (-> & B2 & ->).
  change (length (lit "rsa")) with 3 in *.
  cbn [parmlist] in H.
  destruct (protect_parms (lit "nedpqu") 0 _ K (a3 + 3) None None)
    as [[[s6 pb] pe]|] eqn:E9; [|discriminate].
  cbn [bind] in H.
  change (lit "nedpqu") with ["n"; "e"; "d"; "p"; "q"; "u"] in E9.
  apply protect_parms_cons in E9 as (p1 & N1 & E9).
  apply protect_parms_cons in E9 as (p2 & N2 & E9).
  apply protect_parms_cons in E9 as (p3 & N3 & E9).
  apply protect_parms_cons in E9 as (p4 & N4 & E9).
  apply protect_parms_cons in E9 as (p5 & N5 & E9).
  apply protect_parms_cons in E9 as (p6 & N6 & E9).
  cbn in E9. injection E9 as <- <- <-.
  destruct (byte_eqb (peek K p6) ")") eqn:E10; [|discriminate].
  destruct (sskip K (S p6) (2 - 1)) as [[e d]|] eqn:E11; [|discriminate].
  cbn [bind] in H. injection H as <-.
  change (2 - 1) with 1 in E11.
  destruct (sskip_loop_ok_inv _ _ _ _ _ _ E11) as [-> _].
  apply byte_eqb_eq in E1, E5, E10.
  pose proof (param_at_size _ _ _ _ _ N6) as S6.
  exists a0, a3, e. constructor; cbn [hash_begin hash_end prot_begin prot_end real_end];
    try assumption; try reflexivity; try lia.
  - exists p1. split; [assumption|]. exists p2. split; [assumption|reflexivity].
  - replace (S (p6 - 1)) with p6 by lia.
    exists p3. split; [assumption|]. exists p4. split; [assumption|].
    exists p5. split; [assumption|]. exists p6. split; [assumption|reflexivity].
Qed.

Lemma sskip_loop_last (f : nat) (b : list byte) (s d e d' : nat) :
  sskip_loop f b s d = Ok (e, d') -> 0 < d ->
  s < e /\ peek b (e - 1) = ")" /\ e <= length b.
Proof.
  revert s d; induction f as [|f IH]; intros s d H Hd;
    rewrite sskip_loop_unfold in H;
    destruct (d =? 0) eqn:Ed; try (apply Nat.eqb_eq in Ed; lia);
    [discriminate|].
  destruct (byte_eqb (peek b s) "(") eqn:E1.
  { apply IH in H; [|lia]. intuition lia. }
  destruct (byte_eqb (peek b s) ")") eqn:E2.
  { apply byte_eqb_eq in E2.
    destruct (Nat.eq_dec d 1) as [->|Hne].
    - cbn [Nat.sub] in H. rewrite sskip_loop_unfold in H. cbn [Nat.eqb] in H.
      injection H as <- _. rewrite Nat.sub_1_r. cbn [Nat.pred].
      repeat split; [lia|assumption|].
      assert (s < length b); [|lia]. apply peek_in_bounds. rewrite E2. discriminate.
    - apply IH in H; [|lia]. intuition lia. }
  destruct (snext b s) as [n s1] eqn:En.
  destruct (n =? 0) eqn:E0; [discriminate|]. apply Nat.eqb_neq in E0.
  pose proof (snext_lt _ _ _ _ En E0). apply IH in H; [|lia]. intuition lia.
Qed.

Lemma key_layout_sizes (canon : bool) (K : list byte) (a0 a3 e : nat)
      (sc : protect_scan) :
  key_layout canon K a0 a3 e sc ->
  2 <= a0 /\ a0 + 12 < a3 /\ a3 + 15 <= prot_begin sc
  /\ prot_begin sc + 23 <= prot_end sc /\ S (hash_end sc) < e /\ e <= length K.
Proof.
  intros H.
  pose proof (snext_lt _ _ _ _ (kl_len _ _ _ _ _ _ H) ltac:(lia)).
  pose proof (snext_lt _ _ _ _ (kl_algolen _ _ _ _ _ _ H) ltac:(lia)).
  pose proof (param_chain_size _ _ _ _ _ (kl_public _ _ _ _ _ _ H)) as S1.
  pose proof (param_chain_size _ _ _ _ _ (kl_secret _ _ _ _ _ _ H)) as S2.
  cbn in S1, S2. rewrite (kl_hash_end _ _ _ _ _ _ H).
  pose proof (kl_rest _ _ _ _ _ _ H) as R. rewrite (kl_hash_end _ _ _ _ _ _ H) in R.
  pose proof (sskip_loop_last _ _ _ _ _ _ R ltac:(lia))
    as (L1 & _ & L2).
  lia.
Qed.

(** ** Keys that agree with an accepted key *)

Lemma agree_same (b b' : list byte) (n x m : nat) :
  read_bytes b' 0 n = read_bytes b 0 n -> x + m <= n ->
  read_bytes b' x m = read_bytes b x m.
Proof.
  intros H Hle. pose proof (agree_at b b' 0 0 n x m H ltac:(lia) ltac:(lia)) as E.
  now rewrite Nat.sub_0_r in E.
Qed.

Lemma agree_same_peek (b b' : list byte) (n x : nat) :
  read_bytes b' 0 n = read_bytes b 0 n -> x < n -> peek b' x = peek b x.
Proof.
  intros H Hx. pose proof (agree_peek b b' 0 0 n x H Hx) as E. exact E.
Qed.

Lemma snext_same (b b' : list byte) (n s m a : nat) :
  read_bytes b' 0 n = read_bytes b 0 n -> snext b s = (m, a) -> m <> 0 ->
  a <= n -> snext b' s = (m, a).
Proof.
  intros H Hs Hm Ha. pose proof (snext_lt _ _ _ _ Hs Hm).
  rewrite (snext_transport b b' s s m a Hs Hm).
  - f_equal. lia.
  - apply agree_same with n; [assumption|lia].
Qed.

Lemma bytes_at_same (b b' : list byte) (n s : nat) (x : list byte) :
  read_bytes b' 0 n = read_bytes b 0 n -> bytes_at b s x -> s + length x <= n ->
  bytes_at b' s x.
Proof.
  unfold bytes_at. intros H Hx Hle. rewrite <- Hx at 2.
  apply agree_same with n; assumption.
Qed.

Lemma param_chain_same (canon : bool) (b b' : list byte) (n : nat)
      (names : list byte) (s e : nat) :
  read_bytes b' 0 n = read_bytes b 0 n -> param_chain canon b names s e ->
  e <= n -> param_chain canon b' names s e.
Proof.
  intros H Hc He. pose proof (param_chain_size _ _ _ _ _ Hc).
  replace e with (s + (e - s)) by lia.
  apply param_chain_transport with b; [assumption|].
  apply agree_same with n; [assumption|lia].
Qed.

Lemma key_layout_same (canon : bool) (K B : list byte) (a0 a3 e : nat)
      (sc : protect_scan) :
  key_layout canon K a0 a3 e sc ->
  read_bytes B 0 e = read_bytes K 0 e -> length K <= length B ->
  key_layout canon B a0 a3 e sc.
Proof.
  intros H Hag Hlen.
  pose proof (key_layout_sizes _ _ _ _ _ _ H) as (S1 & S2 & S3 & S4 & S5 & S6).
  pose proof (kl_hash_end _ _ _ _ _ _ H) as HE.
  pose proof (snext_lt _ _ _ _ (kl_len _ _ _ _ _ _ H) ltac:(lia)).
  pose proof (snext_lt _ _ _ _ (kl_algolen _ _ _ _ _ _ H) ltac:(lia)).
  destruct H as [? ? ? ? ? ? ? ? ? ? ? Hrest ?]. constructor; try assumption.
  - rewrite (agree_same_peek K B e) by (assumption || lia). assumption.
  - apply snext_same with K e; (assumption || lia).
  - apply bytes_at_same with K e; try assumption.
    change (length (lit "private-key")) with 11. lia.
  - rewrite (agree_same_peek K B e) by (assumption || lia). assumption.
  - apply snext_same with K e; (assumption || lia).
  - apply bytes_at_same with K e; try assumption.
    change (length (lit "rsa")) with 3. lia.
  - apply param_chain_same with K e; (assumption || lia).
  - apply param_chain_same with K e; (assumption || lia).
  - rewrite (agree_same_peek K B e) by (assumption || lia). assumption.
  - unfold sskip in *.
    apply sskip_loop_fuel_mono with (S (length K)); [|lia].
    pose proof (sskip_loop_transport _ K B _ (S (hash_end sc)) _ _ _ Hrest) as T.
    replace (S (hash_end sc) + (e - S (hash_end sc))) with e in T by lia.
    apply T. apply agree_same with e; [assumption|lia].
Qed.

(** ** calculate_mic on an accepted key *)

Lemma key_layout_params (canon : bool) (K : list byte) (a0 a3 e : nat)
      (sc : protect_scan) :
  key_layout canon K a0 a3 e sc ->
  param_chain canon K (lit "nedpqu") (a3 + 3) (hash_end sc).
Proof.
  intro H. change (lit "nedpqu") with (lit "ne" ++ lit "dpqu").
  apply param_chain_app. exists (prot_begin sc). split.
  - exact (kl_public _ _ _ _ _ _ H).
  - rewrite (kl_hash_end _ _ _ _ _ _ H). exact (kl_secret _ _ _ _ _ _ H).
Qed.

Lemma mic_span_layout (canon : bool) (K : list byte) (a0 a3 e : nat)
      (sc : protect_scan) :
  key_layout canon K a0 a3 e sc ->
  mic_span K = Ok (hash_begin sc, S (hash_end sc)).
Proof.
  intro H.
  pose proof (key_layout_sizes _ _ _ _ _ _ H) as (S1 & S2 & S3 & S4 & S5 & S6).
  pose proof (key_layout_params _ _ _ _ _ _ H) as Hp.
  pose proof (kl_hash_end _ _ _ _ _ _ H) as HE.
  unfold mic_span.
  rewrite (kl_open _ _ _ _ _ _ H), byte_eqb_refl.
  rewrite (kl_len _ _ _ _ _ _ H). cbn [Nat.eqb negb].
  rewrite (smatch_at_len K a0 11 (lit "private-key") eq_refl (kl_name _ _ _ _ _ _ H)).
  rewrite (kl_open2 _ _ _ _ _ _ H), byte_eqb_refl.
  rewrite (kl_algolen _ _ _ _ _ _ H). cbn [Nat.eqb negb].
  replace (S (length K)) with (length (lit "nedpqu") + (length K - 5))
    by (change (length (lit "nedpqu")) with 6; lia).
  rewrite (pair_loop_chain _ _ _ _ _ _ Hp).
  rewrite pair_loop_stop
    by (rewrite (kl_close _ _ _ _ _ _ H); discriminate).
  cbn [bind]. rewrite (kl_close _ _ _ _ _ _ H), byte_eqb_refl.
  now rewrite (kl_hash_begin _ _ _ _ _ _ H).
Qed.

(** ** sskip over well-formed pieces *)

Lemma sskip_loop_open (f : nat) (b : list byte) (s d : nat) :
  peek b s = "(" -> 0 < d -> sskip_loop (S f) b s d = sskip_loop f b (S s) (S d).
Proof.
  intros H Hd. rewrite sskip_loop_unfold.
  replace (d =? 0) with false by (symmetry; apply Nat.eqb_neq; lia).
  now rewrite H, byte_eqb_refl.
Qed.

Lemma sskip_loop_close (f : nat) (b : list byte) (s d : nat) :
  peek b s = ")" -> 0 < d -> sskip_loop (S f) b s d = sskip_loop f b (S s) (d - 1).
Proof.
  intros H Hd. rewrite sskip_loop_unfold.
  replace (d =? 0) with false by (symmetry; apply Nat.eqb_neq; lia).
  rewrite H. change (byte_eqb ")" "(") with false. now rewrite byte_eqb_refl.
Qed.

Lemma sskip_loop_atom (f : nat) (b : list byte) (s d n a : nat) :
  snext b s = (n, a) -> n <> 0 -> 0 < d ->
  sskip_loop (S f) b s d = sskip_loop f b (a + n) d.
Proof.
  intros H Hn Hd. pose proof (snext_first_digit _ _ _ _ H Hn) as D.
  rewrite sskip_loop_unfold.
  replace (d =? 0) with false by (symmetry; apply Nat.eqb_neq; lia).
  now rewrite (digitp_not_open _ D), (digitp_not_close _ D), H, (neq_0_eqb _ Hn).
Qed.

Lemma sskip_loop_done (f : nat) (b : list byte) (s : nat) :
  sskip_loop f b s 0 = Ok (s, 0).
Proof. now rewrite sskip_loop_unfold. Qed.

Lemma sskip_loop_param (canon : bool) (f : nat) (b : list byte) (s e d : nat) (c : byte) :
  param_at canon b s e c -> 0 < d ->
  sskip_loop (4 + f) b s d = sskip_loop f b e d.
Proof.
  intros (a1 & n2 & a2 & H1 & H2 & H3 & H4 & H5 & H6 & -> & _) Hd.
  change (4 + f) with (S (S (S (S f)))).
  rewrite (sskip_loop_open _ _ _ _ H1 Hd).
  rewrite (sskip_loop_atom _ _ _ _ _ _ H2) by lia.
  rewrite (sskip_loop_atom _ _ _ _ _ _ H4 H5) by lia.
  rewrite (sskip_loop_close _ _ _ _ H6) by lia.
  now replace (S d - 1) with d by lia.
Qed.

Lemma sskip_loop_chain (canon : bool) (f : nat) (b : list byte)
      (names : list byte) (s e d : nat) :
  param_chain canon b names s e -> 0 < d ->
  sskip_loop (4 * length names + f) b s d = sskip_loop f b e d.
Proof.
  revert s; induction names as [|c names IH]; intros s H Hd.
  - simpl in *. now subst.
  - destruct H as (m & H1 & H2).
    replace (4 * length (c :: names) + f) with (4 + (4 * length names + f))
      by (simpl length; lia).
    rewrite (sskip_loop_param _ _ _ _ _ _ _ H1 Hd). now apply IH.
Qed.

(** The hashed span is the list that opens at [hash_begin]. *)
Lemma key_layout_inner_list (canon : bool) (K : list byte) (a0 a3 e : nat)
      (sc : protect_scan) :
  key_layout canon K a0 a3 e sc ->
  sskip K (S (hash_begin sc)) 1 = Ok (S (hash_end sc), 0).
Proof.
  intro H.
  pose proof (key_layout_sizes _ _ _ _ _ _ H) as (S1 & S2 & S3 & S4 & S5 & S6).
  pose proof (key_layout_params _ _ _ _ _ _ H) as Hp.
  pose proof (kl_hash_end _ _ _ _ _ _ H) as HE.
  unfold sskip. rewrite (kl_hash_begin _ _ _ _ _ _ H).
  replace (S (length K)) with (S (4 * length (lit "nedpqu") + S (length K - 25)))
    by (change (length (lit "nedpqu")) with 6; lia).
  rewrite (sskip_loop_atom _ _ _ _ _ _ (kl_algolen _ _ _ _ _ _ H)) by lia.
  rewrite (sskip_loop_chain _ _ _ _ _ _ _ Hp) by lia.
  rewrite (sskip_loop_close _ _ _ _ (kl_close _ _ _ _ _ _ H)) by lia.
  apply sskip_loop_done.
Qed.

(** ** Canonical keys *)

Lemma sskip_loop_deterministic (f f' : nat) (b : list byte) (s d : nat)
      (r r' : nat * nat) :
  sskip_loop f b s d = Ok r -> sskip_loop f' b s d = Ok r' -> r = r'.
Proof.
  intros H H'.
  apply sskip_loop_fuel_mono with (fuel' := Nat.max f f') in H; [|lia].
  apply sskip_loop_fuel_mono with (fuel' := Nat.max f f') in H'; [|lia].
  congruence.
Qed.

(** A key accepted by [agent_protect_scan] that is one canonical
    S-expression: its header is [(11:private-key], its length prefixes
    have no leading zero, and the scan of its remainder ends at its last
    byte. *)
Lemma key_layout_canonical (K : list byte) (a0 a3 e : nat) (sc : protect_scan) :
  key_layout false K a0 a3 e sc ->
  gcry_sexp_canon_len K 0 = length K ->
  key_layout true K 4 a3 (length K) sc
  /\ bytes_at K 0 (lit "(11:private-key")
  /\ peek K 16 <> "0"
  /\ canon_loop (length K - 27) K 0 (hash_end sc) 2 = length K.
Proof.
  intros H Hc.
  pose proof (key_layout_sizes _ _ _ _ _ _ H) as (S1 & S2 & S3 & S4 & S5 & S6).
  pose proof (kl_hash_end _ _ _ _ _ _ H) as HE.
  assert (Hr : length K <> 0) by lia.
  unfold gcry_sexp_canon_len in Hc.
  rewrite (kl_open _ _ _ _ _ _ H), byte_eqb_refl in Hc.
  replace (S (length K))
    with (S (S (S (S (4 * length (lit "ne")
                      + (4 * length (lit "dpqu") + (length K - 27)))))))
    in Hc by (cbn [lit list_ascii_of_string length]; lia).
  apply (canon_loop_open_inv _ _ _ _ _ (kl_open _ _ _ _ _ _ H)) in Hc.
  apply (canon_loop_atom_inv _ _ _ _ _ _ _ (kl_len _ _ _ _ _ _ H)) in Hc
    as [Z0 Hc]; [|lia|assumption].
  apply (canon_loop_open_inv _ _ _ _ _ (kl_open2 _ _ _ _ _ _ H)) in Hc.
  apply (canon_loop_atom_inv _ _ _ _ _ _ _ (kl_algolen _ _ _ _ _ _ H)) in Hc
    as [Z3 Hc]; [|lia|assumption].
  apply (canon_loop_chain_inv _ _ _ _ _ _ _ _ (kl_public _ _ _ _ _ _ H)) in Hc
    as [C1 Hc]; [|lia|assumption].
  apply (canon_loop_chain_inv _ _ _ _ _ _ _ _ (kl_secret _ _ _ _ _ _ H)) in Hc
    as [C2 Hc]; [|lia|assumption].
  rewrite <- HE in Hc.
  destruct (snext_two_digits _ _ _ _ (kl_len _ _ _ _ _ _ H) ltac:(lia) Z0)
    as [Ea0 B11].
  change (1 + 3) with 4 in Ea0. subst a0.
  change (bytes_at K 1 (lit "11:")) in B11.
  (* the scan of the remainder ends at the last byte *)
  assert (He : e = length K).
  { pose proof Hc as Hc'.
    replace (length K - 27) with (S (length K - 28)) in Hc' by lia.
    rewrite (canon_loop_close _ _ _ _ _ (kl_close _ _ _ _ _ _ H)) in Hc'
      by (auto; lia).
    apply canon_loop_sskip in Hc'; [|assumption|lia].
    pose proof (sskip_loop_deterministic _ _ _ _ _ _ _
                  (kl_rest _ _ _ _ _ _ H) Hc') as E.
    now injection E. }
  subst e.
  split; [|split; [|split; assumption]].
  - destruct H. constructor; assumption.
  - change (lit "(11:private-key") with (["("] ++ lit "11:" ++ lit "private-key").
    apply bytes_at_app. split.
    + apply bytes_at_intro. intros i Hi. cbn [length] in Hi.
      replace i with 0 by lia. exact (kl_open _ _ _ _ _ _ H).
    + apply bytes_at_app. split; [exact B11|exact (kl_name _ _ _ _ _ _ H)].
Qed.

(** ** The block do_encryption returns *)

Lemma poke_bytes_app (x old y new : list byte) (pos : nat) :
  pos = length x -> length new = length old ->
  poke_bytes (x ++ old ++ y) pos new = x ++ new ++ y.
Proof.
  intros -> Hl. unfold poke_bytes.
  rewrite firstn_app, firstn_all, Nat.sub_diag. cbn [firstn].
  rewrite List.app_nil_r. f_equal. f_equal.
  rewrite skipn_app, skipn_all2 by lia. cbn [app].
  replace (length x + length new - length x) with (length old) by lia.
  rewrite skipn_app, skipn_all, Nat.sub_diag. reflexivity.
Qed.

Lemma strlen_app_no_NUL (x y : list byte) :
  no_NUL x -> strlen (x ++ y) = length x + strlen y.
Proof.
  induction 1 as [|c x Hc Hx IH]; [reflexivity|].
  cbn [app strlen length]. apply byte_eqb_neq in Hc. rewrite Hc, IH. reflexivity.
Qed.

Lemma strlen_no_NUL (x : list byte) : no_NUL x -> strlen x = length x.
Proof.
  intro H. rewrite <- (List.app_nil_r x) at 1.
  rewrite strlen_app_no_NUL by assumption. simpl. lia.
Qed.

Lemma no_NUL_app (x y : list byte) : no_NUL x -> no_NUL y -> no_NUL (x ++ y).
Proof. intros Hx Hy. apply Forall_app. now split. Qed.

Lemma no_NUL_dec (n : nat) : no_NUL (dec n).
Proof.
  eapply Forall_impl; [|apply dec_digits].
  intros c Hc ->. discriminate Hc.
Qed.

Lemma no_NUL_spaces (n : nat) : no_NUL (repeat " " n).
Proof. induction n; constructor; [discriminate|assumption]. Qed.

Lemma no_NUL_lit_cons (c : byte) (x : list byte) :
  c <> NUL -> no_NUL x -> no_NUL (c :: x).
Proof. now constructor. Qed.

Ltac no_NUL_tac :=
  repeat first
    [ apply no_NUL_app
    | apply no_NUL_dec
    | apply no_NUL_spaces
    | apply Forall_nil
    | apply no_NUL_lit_cons; [discriminate|] ].

Lemma length_repeat_byte (c : byte) (n : nat) : length (repeat c n) = n.
Proof. apply repeat_length. Qed.

Lemma read_bytes_prefix (x y : list byte) : read_bytes (x ++ y) 0 (length x) = x.
Proof. rewrite read_bytes_app_l by lia. apply read_bytes_all. Qed.

Lemma asprintf_poked (enclen : nat) (salt iv ct : list byte) :
  length salt = 8 -> length iv = 16 -> length ct = enclen ->
  let '(psave, saltpos, ivpos, encpos) := asprintf_protected enclen in
  let p := read_bytes psave 0 (strlen psave) ++ [NUL] in
  strlen p = length (protected_list salt iv ct) /\
  read_bytes
    (poke_bytes (poke_bytes (poke_bytes p saltpos salt) ivpos iv) encpos ct)
    0 (strlen p) = protected_list salt iv ct.
Proof.
  intros Hs Hi Hc. unfold asprintf_protected. cbv beta iota zeta.
  change (strlen modestr) with 25. change blklen with 16.
  set (X1 := lit "(9:protected" ++ dec 25 ++ lit ":" ++ modestr ++ lit "((4:sha18:").
  set (psave := ((X1 ++ lit "_8bytes_2:96)" ++ dec 16 ++ lit ":")
                   ++ repeat " " 16 ++ lit ")" ++ dec enclen ++ lit ":")
                  ++ repeat " " enclen ++ lit ")").
  pose (X2 := lit "2:96)" ++ dec 16 ++ lit ":").
  pose (X3 := lit ")" ++ dec enclen ++ lit ":").
  assert (Epsave : psave = X1 ++ lit "_8bytes_" ++ X2 ++ repeat " " 16 ++ X3
                           ++ repeat " " enclen ++ lit ")").
  { unfold psave, X2, X3.
    change (lit "_8bytes_2:96)") with (lit "_8bytes_" ++ lit "2:96)").
    now rewrite <- !app_assoc. }
  assert (Hnn : no_NUL psave).
  { rewrite Epsave. unfold X1, X2, X3. cbn [lit list_ascii_of_string modestr app].
    no_NUL_tac. }
  assert (Hlen : strlen psave = length psave) by now apply strlen_no_NUL.
  rewrite Hlen, read_bytes_all.
  assert (Hstr : strlen (psave ++ [NUL]) = length psave).
  { rewrite strlen_app_no_NUL by assumption. cbn. lia. }
  rewrite Hstr.
  assert (Epl : protected_list salt iv ct
                = X1 ++ salt ++ X2 ++ iv ++ X3 ++ ct ++ lit ")").
  { unfold protected_list, atom, X1, X2, X3. rewrite Hs, Hi, Hc.
    change (length (lit "protected")) with 9.
    change (length modestr) with 25.
    change (length (lit "sha1")) with 4.
    change (length (lit "96")) with 2.
    cbn [lit list_ascii_of_string app]. rewrite <- !app_assoc.
    cbn [app]. reflexivity. }
  assert (Elen : length psave = length (protected_list salt iv ct)).
  { rewrite Epl, Epsave. rewrite !length_app, !length_repeat_byte, Hs, Hi, Hc.
    change (length (lit "_8bytes_")) with 8. lia. }
  split; [exact Elen|].
  rewrite Epsave at 1. rewrite <- !app_assoc.
  rewrite (poke_bytes_app X1 (lit "_8bytes_") _ salt)
    by (reflexivity || (rewrite Hs; reflexivity)).
  replace (X1 ++ salt ++ X2 ++ repeat " " 16 ++ X3 ++ repeat " " enclen ++ lit ")" ++ [NUL])
    with ((X1 ++ salt ++ X2) ++ repeat " " 16 ++ X3 ++ repeat " " enclen ++ lit ")" ++ [NUL])
    by now rewrite <- !app_assoc.
  rewrite (poke_bytes_app (X1 ++ salt ++ X2) (repeat " " 16) _ iv).
  2:{ unfold X2. rewrite !length_app, Hs.
      change (length (lit "_8bytes_2:96)")) with 13.
      change (length (lit "2:96)")) with 5. lia. }
  2:{ now rewrite Hi, length_repeat_byte. }
  replace ((X1 ++ salt ++ X2) ++ iv ++ X3 ++ repeat " " enclen ++ lit ")" ++ [NUL])
    with ((X1 ++ salt ++ X2 ++ iv ++ X3) ++ repeat " " enclen ++ lit ")" ++ [NUL])
    by now rewrite <- !app_assoc.
  rewrite (poke_bytes_app (X1 ++ salt ++ X2 ++ iv ++ X3) (repeat " " enclen) _ ct).
  2:{ unfold X2, X3. rewrite !length_app, Hs, Hi, !length_repeat_byte.
      change (length (lit "_8bytes_2:96)")) with 13.
      change (length (lit "2:96)")) with 5. lia. }
  2:{ now rewrite Hc, length_repeat_byte. }
  rewrite Elen, Epl.
  replace ((X1 ++ salt ++ X2 ++ iv ++ X3) ++ ct ++ lit ")" ++ [NUL])
    with ((X1 ++ salt ++ X2 ++ iv ++ X3 ++ ct ++ lit ")") ++ [NUL])
    by now rewrite <- !app_assoc.
  apply read_bytes_prefix.
Qed.

Lemma do_encryption_inv {G : Gcrypt} (e : Env) (b : list byte)
      (pos protlen : nat) (pw hash p : list byte) (len : nat) :
  do_encryption e (b, pos) protlen pw hash = Ok (p, len) ->
  exists iv key,
    gcry_random_bytes e (blklen * 2 + 8) = Some iv /\
    hash_passphrase e pw GCRY_MD_SHA1 3 (Some (iv, 2 * blklen)) 96%Z
                    PROT_CIPHER_KEYLEN = Ok key /\
    let enclen := protect_enclen protlen in
    let plain := protect_plaintext (read_bytes b pos protlen)
                   (read_bytes hash 0 20) (read_bytes iv blklen blklen) in
    let ct := read_bytes
                (gcry_cbc_encrypt (read_bytes key 0 PROT_CIPHER_KEYLEN)
                   (read_bytes iv 0 blklen) (read_bytes plain 0 enclen)
                 ++ skipn enclen plain) 0 enclen in
    let pl := protected_list (read_bytes iv (2 * blklen) 8)
                             (read_bytes iv 0 blklen) ct in
    len = length pl /\ read_bytes p 0 len = pl.
Proof.
  unfold do_encryption. intro H.
  destruct (gcry_cipher_open_rc e); [discriminate|]. cbn [of_rc bind] in H.
  destruct (gcry_malloc_secure_ok e _); [|discriminate].
  destruct (gcry_random_bytes e (blklen * 2 + 8)) as [iv|] eqn:Hiv; [|discriminate].
  destruct (gcry_cipher_setiv_rc e); [discriminate|]. cbn [of_rc bind] in H.
  destruct (gcry_malloc_secure_ok e PROT_CIPHER_KEYLEN); [|discriminate].
  destruct (hash_passphrase e pw GCRY_MD_SHA1 3 (Some (iv, 2 * blklen)) 96
                            PROT_CIPHER_KEYLEN) as [key|] eqn:Hkey; [|discriminate].
  cbn [bind] in H.
  destruct (gcry_cipher_setkey_rc e); [discriminate|]. cbn [of_rc bind] in H.
  destruct (gcry_cipher_crypt_rc e); [discriminate|]. cbn [of_rc bind] in H.
  destruct (asprintf_ok e); [|discriminate].
  exists iv, key. split; [reflexivity|]. split; [exact Hkey|].
  fold (protect_enclen protlen) in H. cbv zeta.
  set (enclen := protect_enclen protlen) in *.
  cbn [fst snd] in H.
  fold (protect_plaintext (read_bytes b pos protlen) (read_bytes hash 0 20)
                          (read_bytes iv blklen blklen)) in H.
  set (plain := protect_plaintext _ _ _) in *.
  set (ct := read_bytes (_ ++ skipn enclen plain) 0 enclen) in *.
  pose proof (asprintf_poked enclen (read_bytes iv (2 * blklen) 8)
                (read_bytes iv 0 blklen) ct
                (length_read_bytes _ _ _) (length_read_bytes _ _ _)
                (length_read_bytes _ _ _)) as A.
  destruct (asprintf_protected enclen) as [[[psave saltpos] ivpos] encpos].
  destruct (xtrymalloc_ok e _); [|discriminate].
  injection H as <- <-. exact A.
Qed.

Lemma agent_protect_ok_inv {G : Gcrypt} (e : Env) (K pw : list byte)
      (o out : cptr * nat) :
  agent_protect e K pw o = (None, out) ->
  exists sc iv key,
    agent_protect_scan K = Ok sc /\
    gcry_random_bytes e (blklen * 2 + 8) = Some iv /\
    hash_passphrase e pw GCRY_MD_SHA1 3 (Some (iv, 2 * blklen)) 96%Z
                    PROT_CIPHER_KEYLEN = Ok key /\
    let P := protected_key K sc (read_bytes iv (2 * blklen) 8)
               (read_bytes iv 0 blklen) (protect_ciphertext K sc iv key) in
    out = (Ptr P, length P) /\
    length P = 10 + prot_begin sc
               + length (protected_list (read_bytes iv (2 * blklen) 8)
                           (read_bytes iv 0 blklen) (protect_ciphertext K sc iv key))
               + (real_end sc - prot_end sc).
Proof.
  unfold agent_protect. intro H.
  destruct (agent_protect_scan K) as [sc|] eqn:Esc; [|discriminate].
  destruct (do_encryption e (K, prot_begin sc) (prot_end sc - prot_begin sc + 1)
                          pw (protect_mic K sc)) as [[p len]|] eqn:Eenc;
    [|discriminate].
  destruct (xtrymalloc_ok e _); [|discriminate].
  apply do_encryption_inv in Eenc as (iv & key & Hr & Hk & Hl & Hp).
  exists sc, iv, key. repeat split; try assumption.
  - injection H as <-. cbv zeta. unfold protected_key.
    fold (protect_ciphertext K sc iv key) in Hl, Hp.
    rewrite Hp. rewrite Nat.sub_0_r.
    destruct (agent_protect_scan_inv _ _ Esc) as (a0 & a3 & e' & L).
    pose proof (key_layout_sizes _ _ _ _ _ _ L) as (S1 & S2 & S3 & S4 & S5 & S6).
    f_equal.
    + now rewrite <- !app_assoc.
    + rewrite !length_app, !length_read_bytes, Hl.
      change (length (lit "(21:protected-")) with 14. lia.
  - cbv zeta. unfold protected_key.
    destruct (agent_protect_scan_inv _ _ Esc) as (a0 & a3 & e' & L).
    pose proof (key_layout_sizes _ _ _ _ _ _ L) as (S1 & S2 & S3 & S4 & S5 & S6).
    rewrite !length_app, !length_read_bytes.
    change (length (lit "(21:protected-")) with 14. lia.
Qed.

(** ** Pieces of a concatenation *)

Lemma bytes_at_here (x r : list byte) : bytes_at (x ++ r) 0 x.
Proof. apply read_bytes_prefix. Qed.

Lemma bytes_at_skip (p y x : list byte) (s : nat) :
  bytes_at y s x -> bytes_at (p ++ y) (length p + s) x.
Proof.
  unfold bytes_at. intro H. rewrite read_bytes_app_r by lia.
  now replace (length p + s - length p) with s by lia.
Qed.

Lemma bytes_at_skip_to (p y x : list byte) (s : nat) :
  length p <= s -> bytes_at y (s - length p) x -> bytes_at (p ++ y) s x.
Proof.
  intros Hle H. replace s with (length p + (s - length p)) by lia.
  now apply bytes_at_skip.
Qed.

Lemma bytes_at_read (b : list byte) (s n : nat) : bytes_at b s (read_bytes b s n).
Proof. unfold bytes_at. now rewrite length_read_bytes. Qed.

Lemma bytes_at_peek1 (b : list byte) (s : nat) (c : byte) :
  bytes_at b s [c] -> peek b s = c.
Proof.
  intro H. pose proof (bytes_at_peek b s [c] 0 H ltac:(simpl; lia)) as E.
  now rewrite Nat.add_0_r in E.
Qed.

Lemma skipn_peek_cons (b : list byte) (s : nat) :
  s < length b -> skipn s b = peek b s :: skipn (S s) b.
Proof.
  intro H. rewrite (skipn_read_bytes b s), (skipn_read_bytes b (S s)).
  replace (length b - s) with (S (length b - S s)) by lia.
  now rewrite read_bytes_S.
Qed.

Lemma strtoul_96 (b : list byte) (s : nat) :
  peek b s = "9" -> peek b (S s) = "6" -> peek b (S (S s)) = ")" ->
  strtoul b s = 96%Z.
Proof.
  intros H1 H2 H3. unfold strtoul.
  rewrite (skipn_peek_cons b s)
    by (apply peek_in_bounds; rewrite H1; discriminate).
  rewrite (skipn_peek_cons b (S s))
    by (apply peek_in_bounds; rewrite H2; discriminate).
  rewrite (skipn_peek_cons b (S (S s)))
    by (apply peek_in_bounds; rewrite H3; discriminate).
  rewrite H1, H2, H3. reflexivity.
Qed.

Lemma snext_at (b : list byte) (n p p' : nat) :
  n <> 0 -> bytes_at b p (dec n ++ [":"]) -> p' = p + length (dec n) + 1 ->
  snext b p = (n, p').
Proof. intros Hn H ->. now apply snext_dec. Qed.

Lemma smatch_at_pos (b : list byte) (n p p' : nat) (tok : list byte) :
  n = length tok -> bytes_at b p tok -> p' = p + n ->
  smatch b p n tok = (true, p').
Proof. intros Hn H ->. now apply smatch_at_len. Qed.

Lemma canon_loop_atom_at (b : list byte) (f L p d n p' : nat) :
  n <> 0 -> bytes_at b p (dec n ++ [":"]) -> p' = p + length (dec n) + 1 + n ->
  L = 0 \/ p' <= L ->
  canon_loop (S f) b L p d = canon_loop f b L p' d.
Proof.
  intros Hn H -> HL.
  rewrite (canon_loop_atom f b L p d n (p + length (dec n) + 1)).
  - reflexivity.
  - now apply snext_dec.
  - assumption.
  - pose proof (bytes_at_peek b p (dec n ++ [":"]) 0 H) as E.
    rewrite Nat.add_0_r in E. rewrite E.
    + rewrite peek_app_l by apply dec_nonempty. now apply dec_first_nonzero.
    + rewrite length_app. pose proof (dec_nonempty n). lia.
  - assumption.
Qed.

(** ** The protected list inside a buffer *)

Section ProtectedList.
Variables (b salt iv ct : list byte) (s : nat).
Hypothesis Hsalt : length salt = 8.
Hypothesis Hiv : length iv = 16.
Hypothesis Hat : bytes_at b s (protected_list salt iv ct).

Lemma pl_length :
  length (protected_list salt iv ct)
  = 85 + length (dec (length ct)) + length ct.
Proof.
  unfold protected_list, atom. rewrite !length_app, Hsalt, Hiv.
  change (length (lit "protected")) with 9.
  change (length modestr) with 25.
  change (length (lit "sha1")) with 4.
  change (length (lit "96")) with 2.
  cbn. lia.
Qed.

Lemma pl_pieces :
  peek b s = "(" /\
  bytes_at b (s + 1) (dec 9 ++ [":"]) /\
  bytes_at b (s + 3) (lit "protected") /\
  bytes_at b (s + 12) (dec 25 ++ [":"]) /\
  bytes_at b (s + 15) modestr /\
  peek b (s + 40) = "(" /\
  peek b (s + 41) = "(" /\
  bytes_at b (s + 42) (dec 4 ++ [":"]) /\
  bytes_at b (s + 44) (lit "sha1") /\
  bytes_at b (s + 48) (dec 8 ++ [":"]) /\
  bytes_at b (s + 50) salt /\
  bytes_at b (s + 58) (dec 2 ++ [":"]) /\
  bytes_at b (s + 60) (lit "96") /\
  peek b (s + 62) = ")" /\
  bytes_at b (s + 63) (dec 16 ++ [":"]) /\
  bytes_at b (s + 66) iv /\
  peek b (s + 82) = ")" /\
  bytes_at b (s + 83) (dec (length ct) ++ [":"]) /\
  bytes_at b (s + 84 + length (dec (length ct))) ct /\
  peek b (s + 84 + length (dec (length ct)) + length ct) = ")".
Proof.
  pose proof Hat as H. unfold protected_list, atom in H.
  rewrite Hsalt, Hiv in H.
  change (length (lit "protected")) with 9 in H.
  change (length modestr) with 25 in H.
  change (length (lit "sha1")) with 4 in H.
  change (length (lit "96")) with 2 in H.
  change (lit ":") with [":"] in H.
  change (lit "((") with (["("] ++ ["("]) in H.
  change (lit "(") with ["("] in H.
  change (lit ")") with [")"] in H.
  rewrite <- !app_assoc in H.
  rewrite !(app_assoc (dec _) [":"]) in H.
  repeat match type of H with
         | bytes_at _ _ (_ ++ _) =>
             let F := fresh "F" in apply bytes_at_app in H as [F H]
         end.
  rewrite !length_app in *.
  change (length (dec 9)) with 1 in *. change (length (dec 25)) with 2 in *.
  change (length (dec 4)) with 1 in *. change (length (dec 8)) with 1 in *.
  change (length (dec 2)) with 1 in *. change (length (dec 16)) with 2 in *.
  change (length (lit "protected")) with 9 in *.
  change (length modestr) with 25 in *.
  change (length (lit "sha1")) with 4 in *.
  change (length (lit "96")) with 2 in *.
  change (length ["("]) with 1 in *.
  change (length [")"]) with 1 in *.
  change (length [":"]) with 1 in *.
  rewrite ?Hsalt, ?Hiv in *.
  repeat split;
    try apply bytes_at_peek1;
    match goal with
    | HF : bytes_at _ ?p ?x |- bytes_at _ ?q ?x =>
        replace q with p by lia; exact HF
    end.
Qed.

Hypothesis Hct : length ct <> 0.



Lemma unprotect_protected_list_ok (pbeg : nat) :
  unprotect_protected_list b pbeg (s + 12)
  = Ok {| u_prot_begin := pbeg; u_s2ksalt := s + 50; u_s2kcount := 96%Z;
          u_iv := s + 66;
          u_protected := s + 84 + length (dec (length ct));
          u_protectedlen := length ct |}.
Proof.
  destruct pl_pieces as (F0 & F1 & F2 & F3 & F4 & F5 & F6 & F7 & F8 & F9 & F10
                         & F11 & F12 & F13 & F14 & F15 & F16 & F17 & F18 & F19).
  unfold unprotect_protected_list.
  rewrite (snext_at b 25 (s + 12) (s + 15)) by (assumption || discriminate || (cbn; lia)).
  cbn [Nat.eqb negb].
  rewrite (smatch_at_pos b 25 (s + 15) (s + 40) modestr) by (assumption || reflexivity || lia).
  rewrite F5. replace (s + 40 + 1) with (s + 41) by lia. rewrite F6.
  rewrite byte_eqb_refl. cbn [negb orb].
  replace (s + 40 + 2) with (s + 42) by lia.
  rewrite (snext_at b 4 (s + 42) (s + 44)) by (assumption || discriminate || (cbn; lia)).
  cbn [Nat.eqb negb].
  rewrite (smatch_at_pos b 4 (s + 44) (s + 48) (lit "sha1")) by (assumption || reflexivity || lia).
  rewrite (snext_at b 8 (s + 48) (s + 50)) by (assumption || discriminate || (cbn; lia)).
  cbn [Nat.eqb].
  replace (s + 50 + 8) with (s + 58) by lia.
  rewrite (snext_at b 2 (s + 58) (s + 60)) by (assumption || discriminate || (cbn; lia)).
  cbn [Nat.eqb negb].
  replace (s + 60 + 2) with (s + 62) by lia. rewrite F13, byte_eqb_refl.
  assert (E96 : strtoul b (s + 60) = 96%Z).
  { apply strtoul_96.
    - pose proof (bytes_at_peek b (s + 60) (lit "96") 0 F12 ltac:(cbn; lia)) as E.
      now rewrite Nat.add_0_r in E.
    - pose proof (bytes_at_peek b (s + 60) (lit "96") 1 F12 ltac:(cbn; lia)) as E.
      now rewrite Nat.add_1_r in E.
    - replace (S (S (s + 60))) with (s + 62) by lia. exact F13. }
  rewrite E96. cbn [Z.eqb negb].
  replace (S (s + 62)) with (s + 63) by lia.
  rewrite (snext_at b 16 (s + 63) (s + 66)) by (assumption || discriminate || (cbn; lia)).
  cbn [Nat.eqb].
  replace (s + 66 + 16) with (s + 82) by lia. rewrite F16, byte_eqb_refl.
  replace (S (s + 82)) with (s + 83) by lia.
  rewrite (snext_at b (length ct) (s + 83) (s + 84 + length (dec (length ct))))
    by (assumption || lia).
  now rewrite (neq_0_eqb _ Hct).
Qed.

(** The list is one value for [sskip] and for the canonical length. *)
Lemma sskip_loop_pl (f d : nat) :
  sskip_loop (12 + f) b (s + 1) (S d)
  = sskip_loop f b (s + length (protected_list salt iv ct)) d.
Proof.
  destruct pl_pieces as (F0 & F1 & F2 & F3 & F4 & F5 & F6 & F7 & F8 & F9 & F10
                         & F11 & F12 & F13 & F14 & F15 & F16 & F17 & F18 & F19).
  rewrite pl_length.
  change (12 + f) with (S (S (S (S (S (S (S (S (S (S (S (S f)))))))))))).
  rewrite (sskip_loop_atom _ _ _ _ _ _ (snext_at b 9 (s + 1) (s + 3) ltac:(lia) F1 ltac:(cbn; lia)))
    by lia.
  replace (s + 3 + 9) with (s + 12) by lia.
  rewrite (sskip_loop_atom _ _ _ _ _ _ (snext_at b 25 (s + 12) (s + 15) ltac:(lia) F3 ltac:(cbn; lia)))
    by lia.
  replace (s + 15 + 25) with (s + 40) by lia.
  rewrite (sskip_loop_open _ _ _ _ F5) by lia.
  replace (S (s + 40)) with (s + 41) by lia.
  rewrite (sskip_loop_open _ _ _ _ F6) by lia.
  replace (S (s + 41)) with (s + 42) by lia.
  rewrite (sskip_loop_atom _ _ _ _ _ _ (snext_at b 4 (s + 42) (s + 44) ltac:(lia) F7 ltac:(cbn; lia)))
    by lia.
  replace (s + 44 + 4) with (s + 48) by lia.
  rewrite (sskip_loop_atom _ _ _ _ _ _ (snext_at b 8 (s + 48) (s + 50) ltac:(lia) F9 ltac:(cbn; lia)))
    by lia.
  replace (s + 50 + 8) with (s + 58) by lia.
  rewrite (sskip_loop_atom _ _ _ _ _ _ (snext_at b 2 (s + 58) (s + 60) ltac:(lia) F11 ltac:(cbn; lia)))
    by lia.
  replace (s + 60 + 2) with (s + 62) by lia.
  rewrite (sskip_loop_close _ _ _ _ F13) by lia.
  replace (S (s + 62)) with (s + 63) by lia.
  rewrite (sskip_loop_atom _ _ _ _ _ _ (snext_at b 16 (s + 63) (s + 66) ltac:(lia) F14 ltac:(cbn; lia)))
    by lia.
  replace (s + 66 + 16) with (s + 82) by lia.
  rewrite (sskip_loop_close _ _ _ _ F16) by lia.
  replace (S (s + 82)) with (s + 83) by lia.
  rewrite (sskip_loop_atom _ _ _ _ _ _
             (snext_at b (length ct) (s + 83) (s + 84 + length (dec (length ct)))
                       Hct F17 ltac:(lia))) by lia.
  rewrite (sskip_loop_close _ _ _ _ F19) by lia.
  f_equal; lia.
Qed.


Lemma canon_loop_pl (f L d : nat) :
  0 < d -> L = 0 \/ s + length (protected_list salt iv ct) <= L ->
  canon_loop (13 + f) b L s d
  = canon_loop f b L (s + length (protected_list salt iv ct)) d.
Proof.
  intros Hd HL.
  destruct pl_pieces as (F0 & F1 & F2 & F3 & F4 & F5 & F6 & F7 & F8 & F9 & F10
                         & F11 & F12 & F13 & F14 & F15 & F16 & F17 & F18 & F19).
  rewrite pl_length in *.
  assert (HB : forall q, q <= s + (85 + length (dec (length ct)) + length ct) ->
                         L = 0 \/ q <= L)
    by (intros q Hq; destruct HL; [now left|right; lia]).
  assert (HB' : forall q, q < s + (85 + length (dec (length ct)) + length ct) ->
                          L = 0 \/ q < L)
    by (intros q Hq; destruct HL; [now left|right; lia]).
  change (13 + f) with (S (S (S (S (S (S (S (S (S (S (S (S (S f))))))))))))).
  rewrite (canon_loop_open _ _ _ _ _ F0) by (apply HB'; lia).
  replace (S s) with (s + 1) by lia.
  rewrite (canon_loop_atom_at b _ L (s + 1) _ 9 (s + 12))
    by (assumption || discriminate || (cbn; lia) || (apply HB; lia)).
  rewrite (canon_loop_atom_at b _ L (s + 12) _ 25 (s + 40))
    by (assumption || discriminate || (cbn; lia) || (apply HB; lia)).
  rewrite (canon_loop_open _ _ _ _ _ F5) by (apply HB'; lia).
  replace (S (s + 40)) with (s + 41) by lia.
  rewrite (canon_loop_open _ _ _ _ _ F6) by (apply HB'; lia).
  replace (S (s + 41)) with (s + 42) by lia.
  rewrite (canon_loop_atom_at b _ L (s + 42) _ 4 (s + 48))
    by (assumption || discriminate || (cbn; lia) || (apply HB; lia)).
  rewrite (canon_loop_atom_at b _ L (s + 48) _ 8 (s + 58))
    by (assumption || discriminate || (cbn; lia) || (apply HB; lia)).
  rewrite (canon_loop_atom_at b _ L (s + 58) _ 2 (s + 62))
    by (assumption || discriminate || (cbn; lia) || (apply HB; lia)).
  rewrite (canon_loop_close _ _ _ _ _ F13) by ((apply HB'; lia) || lia).
  replace (S (s + 62)) with (s + 63) by lia.
  rewrite (canon_loop_atom_at b _ L (s + 63) _ 16 (s + 82))
    by (assumption || discriminate || (cbn; lia) || (apply HB; lia)).
  rewrite (canon_loop_close _ _ _ _ _ F16) by ((apply HB'; lia) || lia).
  replace (S (s + 82)) with (s + 83) by lia.
  rewrite (canon_loop_atom_at b _ L (s + 83) _ (length ct)
             (s + 84 + length (dec (length ct)) + length ct))
    by (assumption || lia || (apply HB; lia)).
  rewrite (canon_loop_close _ _ _ _ _ F19) by ((apply HB'; lia) || lia).
  f_equal; lia.
Qed.
End ProtectedList.

(** ** The derived key depends on the eight salt bytes only *)

Lemma s2k_feed_salt_ext (fuel : nat) (s1 s2 : list byte * nat)
      (pw : list byte) (pwlen : nat) (len2 count : Z) :
  read_bytes (fst s1) (snd s1) 8 = read_bytes (fst s2) (snd s2) 8 ->
  s2k_feed fuel s1 pw pwlen len2 count = s2k_feed fuel s2 pw pwlen len2 count.
Proof.
  intro H. revert count; induction fuel as [|f IH]; intros count;
    cbn [s2k_feed]; [reflexivity|].
  destruct (len2 <? count)%Z; [|reflexivity]. now rewrite H, IH.
Qed.

Lemma s2k_material_salt_ext (pw : list byte) (mode : nat) (s1 s2 : list byte * nat)
      (c : Z) (md : list byte) :
  read_bytes (fst s1) (snd s1) 8 = read_bytes (fst s2) (snd s2) 8 ->
  s2k_material pw mode s1 c md = s2k_material pw mode s2 c md.
Proof.
  intro H. unfold s2k_material.
  destruct ((mode =? 1) || (mode =? 3)); [|reflexivity].
  rewrite (s2k_feed_salt_ext _ s1 s2) by assumption.
  destruct (s2k_feed _ s2 _ _ _ _) as [[md' count]|]; [|reflexivity].
  cbn [bind]. destruct (count <? 8)%Z eqn:E; [|now rewrite H].
  apply Z.ltb_lt in E. do 3 f_equal.
  pose proof (agree_sub (fst s2) (fst s1) (snd s2) (snd s1) 8 0 (Z.to_nat count) H
                        ltac:(lia)) as A.
  now rewrite !Nat.add_0_r in A.
Qed.

Lemma hash_passphrase_loop_salt_ext {G : Gcrypt} (fuel : nat) (pw : list byte)
      (algo mode : nat) (s1 s2 : list byte * nat) (c : Z) (keylen pass used : nat)
      (key : list byte) :
  read_bytes (fst s1) (snd s1) 8 = read_bytes (fst s2) (snd s2) 8 ->
  hash_passphrase_loop fuel pw algo mode s1 c keylen pass used key
  = hash_passphrase_loop fuel pw algo mode s2 c keylen pass used key.
Proof.
  intro H. revert pass used key; induction fuel as [|f IH]; intros pass used key;
    cbn [hash_passphrase_loop]; [reflexivity|].
  destruct (used <? keylen); [|reflexivity].
  rewrite (s2k_material_salt_ext pw mode s1 s2) by assumption.
  destruct (s2k_material pw mode s2 c (repeat NUL pass)); [|reflexivity].
  cbn [bind]. apply IH.
Qed.

Lemma hash_passphrase_salt_ext {G : Gcrypt} (e1 e2 : Env) (pw : list byte)
      (algo mode : nat) (s1 s2 : list byte * nat) (c : Z) (keylen : nat) :
  read_bytes (fst s1) (snd s1) 8 = read_bytes (fst s2) (snd s2) 8 ->
  gcry_md_open_rc e1 = gcry_md_open_rc e2 ->
  hash_passphrase e1 pw algo mode (Some s1) c keylen
  = hash_passphrase e2 pw algo mode (Some s2) c keylen.
Proof.
  intros H He. unfold hash_passphrase.
  now rewrite He, (hash_passphrase_loop_salt_ext _ _ _ _ s1 s2).
Qed.

Lemma hash_passphrase_ok_md_open {G : Gcrypt} (e : Env) (pw : list byte)
      (algo mode : nat) (salt : option (list byte * nat)) (c : Z) (keylen : nat)
      (key : list byte) :
  hash_passphrase e pw algo mode salt c keylen = Ok key ->
  gcry_md_open_rc e = None.
Proof.
  unfold hash_passphrase. intro H.
  destruct (negb _); [|discriminate].
  destruct salt.
  - destruct (gcry_md_open_rc e); [discriminate|reflexivity].
  - destruct (negb _); [|discriminate].
    destruct (gcry_md_open_rc e); [discriminate|reflexivity].
Qed.

(** ** The buffer agent_protect returns for a canonical key *)

Section ProtectedKey.
Variables (K salt iv ct : list byte) (a3 : nat) (sc : protect_scan).
Hypothesis L : key_layout true K 4 a3 (length K) sc.
Hypothesis Z3 : peek K 16 <> "0".
Hypothesis Hsalt : length salt = 8.
Hypothesis Hiv : length iv = 16.
Hypothesis Hct : length ct <> 0.

Let pb := prot_begin sc.
Let he := hash_end sc.
Let PL := protected_list salt iv ct.
Let P := protected_key K sc salt iv ct.

Lemma pk_sizes :
  16 < a3 /\ a3 + 15 <= pb /\ pb + 24 <= he /\ S he < length K
  /\ he = prot_end sc + 1 /\ real_end sc - prot_end sc = length K - he.
Proof.
  pose proof (key_layout_sizes _ _ _ _ _ _ L) as (S1 & S2 & S3 & S4 & S5 & S6).
  pose proof (kl_hash_end _ _ _ _ _ _ L) as HE.
  pose proof (kl_real_end _ _ _ _ _ _ L) as RE.
  unfold pb, he. lia.
Qed.

Lemma pk_eq :
  P = lit "(21:protected-" ++ read_bytes K 4 (pb - 4) ++ PL
      ++ read_bytes K he (length K - he).
Proof.
  destruct pk_sizes as (S1 & S2 & S3 & S4 & S5 & S6).
  unfold P, protected_key. fold pb PL. now rewrite <- S5, S6.
Qed.

Lemma pk_length : length P = pb + 10 + length PL + (length K - he).
Proof.
  destruct pk_sizes as (S1 & S2 & S3 & S4 & S5 & S6).
  rewrite pk_eq, !length_app, !length_read_bytes.
  change (length (lit "(21:protected-")) with 14. lia.
Qed.

Lemma pk_front (x m : nat) :
  4 <= x -> x + m <= pb -> read_bytes P (x + 10) m = read_bytes K x m.
Proof.
  intros H1 H2. rewrite pk_eq.
  rewrite read_bytes_app_r by (change (length (lit "(21:protected-")) with 14; lia).
  change (length (lit "(21:protected-")) with 14.
  rewrite read_bytes_app_l by (rewrite length_read_bytes; lia).
  rewrite read_bytes_read_bytes by lia. f_equal. lia.
Qed.

Lemma pk_front_peek (x : nat) :
  4 <= x -> x < pb -> peek P (x + 10) = peek K x.
Proof.
  intros H1 H2. apply (agree_peek0 K P x _ 1); [|lia]. apply pk_front; lia.
Qed.

Lemma pk_pl : bytes_at P (pb + 10) PL.
Proof.
  destruct pk_sizes as (S1 & S2 & S3 & S4 & S5 & S6).
  rewrite pk_eq. apply bytes_at_skip_to.
  { change (length (lit "(21:protected-")) with 14. lia. }
  change (length (lit "(21:protected-")) with 14.
  apply bytes_at_skip_to; rewrite length_read_bytes; [lia|].
  replace (pb + 10 - 14 - (pb - 4)) with 0 by lia. apply bytes_at_here.
Qed.

Lemma pk_back (x m : nat) :
  he <= x -> x + m <= length K ->
  read_bytes P (x - he + (pb + 10 + length PL)) m = read_bytes K x m.
Proof.
  intros H1 H2. destruct pk_sizes as (S1 & S2 & S3 & S4 & S5 & S6).
  rewrite pk_eq.
  rewrite read_bytes_app_r by (change (length (lit "(21:protected-")) with 14; lia).
  change (length (lit "(21:protected-")) with 14.
  rewrite read_bytes_app_r by (rewrite length_read_bytes; lia).
  rewrite length_read_bytes.
  rewrite read_bytes_app_r by lia.
  rewrite read_bytes_read_bytes by lia. f_equal. lia.
Qed.

Lemma pk_back_peek (x : nat) :
  he <= x -> x < length K ->
  peek P (x - he + (pb + 10 + length PL)) = peek K x.
Proof.
  intros H1 H2.
  apply (agree_peek0 K P x _ 1); [|lia]. apply pk_back; lia.
Qed.

Lemma pk_head : bytes_at P 0 (lit "(21:protected-private-key").
Proof.
  destruct pk_sizes as (S1 & S2 & S3 & S4 & S5 & S6).
  change (lit "(21:protected-private-key")
    with (lit "(21:protected-" ++ lit "private-key").
  apply bytes_at_app. split.
  - rewrite pk_eq. apply bytes_at_here.
  - change (0 + length (lit "(21:protected-")) with (4 + 10).
    unfold bytes_at. change (length (lit "private-key")) with 11.
    rewrite pk_front by lia. exact (kl_name _ _ _ _ _ _ L).
Qed.

Lemma pk_public : param_chain true P (lit "ne") (a3 + 13) (pb + 10).
Proof.
  destruct pk_sizes as (S1 & S2 & S3 & S4 & S5 & S6).
  pose proof (param_chain_transport true K P (lit "ne") (a3 + 3) (a3 + 13) pb
                (kl_public _ _ _ _ _ _ L)) as T.
  replace (a3 + 13 + (pb - (a3 + 3))) with (pb + 10) in T by lia.
  apply T. replace (a3 + 13) with (a3 + 3 + 10) by lia.
  apply pk_front; fold pb; lia.
Qed.

Lemma pk_algolen : snext P 26 = (3, a3 + 10).
Proof.
  destruct pk_sizes as (S1 & S2 & S3 & S4 & S5 & S6).
  pose proof (kl_algolen _ _ _ _ _ _ L) as A. change (S (4 + 11)) with 16 in A.
  rewrite (snext_transport K P 16 26 3 a3 A) by
    (try discriminate; change 26 with (16 + 10); apply pk_front; lia).
  f_equal. lia.
Qed.

Lemma pk_scan :
  agent_unprotect_scan P
  = Ok {| u_prot_begin := pb + 10; u_s2ksalt := pb + 60; u_s2kcount := 96%Z;
          u_iv := pb + 76;
          u_protected := pb + 94 + length (dec (length ct));
          u_protectedlen := length ct |}.
Proof.
  destruct pk_sizes as (S1 & S2 & S3 & S4 & S5 & S6).
  pose proof pk_head as Hh.
  change (lit "(21:protected-private-key")
    with (["("] ++ (dec 21 ++ [":"]) ++ lit "protected-private-key") in Hh.
  apply bytes_at_app in Hh as [H0 Hh]. apply bytes_at_app in Hh as [H1 H2].
  apply bytes_at_peek1 in H0.
  destruct (pl_pieces P salt iv ct (pb + 10) Hsalt Hiv pk_pl)
    as (F0 & F1 & F2 & _).
  unfold agent_unprotect_scan, unprotect_find.
  rewrite H0, byte_eqb_refl.
  rewrite (snext_at P 21 1 4) by (assumption || discriminate || reflexivity).
  cbn [Nat.eqb negb].
  rewrite (smatch_at_pos P 21 4 25 (lit "protected-private-key"))
    by (assumption || reflexivity).
  replace (peek P 25) with "(".
  2:{ change 25 with (15 + 10). rewrite pk_front_peek by lia.
      symmetry. exact (kl_open2 _ _ _ _ _ _ L). }
  rewrite byte_eqb_refl, pk_algolen. cbn [Nat.eqb negb].
  cbn [find_algo protect_info algo].
  rewrite (smatch_at_pos P 3 (a3 + 10) (a3 + 13) (lit "rsa")); [|reflexivity| |lia].
  2:{ unfold bytes_at. change (length (lit "rsa")) with 3.
      rewrite pk_front by lia. exact (kl_algo _ _ _ _ _ _ L). }
  replace (S (length P)) with (length (lit "ne") + S (length P - 2))
    by (rewrite pk_length; change (length (lit "ne")) with 2; lia).
  rewrite (find_protected_chain _ _ _ _ _ _ pk_public).
  cbn [find_protected]. rewrite F0, byte_eqb_refl.
  replace (S (pb + 10)) with (pb + 10 + 1) by lia.
  rewrite (snext_at P 9 (pb + 10 + 1) (pb + 10 + 3))
    by (assumption || discriminate || (cbn; lia)).
  cbn [Nat.eqb negb].
  rewrite (smatch_at_pos P 9 (pb + 10 + 3) (pb + 10 + 12) (lit "protected"))
    by (assumption || reflexivity || lia).
  cbn [bind].
  rewrite (unprotect_protected_list_ok P salt iv ct (pb + 10) Hsalt Hiv pk_pl Hct).
  do 2 f_equal; lia.
Qed.

Hypothesis Htail : canon_loop (length K - 27) K 0 he 2 = length K.
Hypothesis Hbig : he - pb <= length ct.

Lemma pk_tail_agree :
  read_bytes P (pb + 10 + length PL) (length K - he)
  = read_bytes K he (length K - he).
Proof.
  pose proof (pk_back he (length K - he) ltac:(lia)) as E.
  rewrite Nat.sub_diag in E. apply E.
  destruct pk_sizes as (S1 & S2 & S3 & S4 & S5 & S6). lia.
Qed.

Lemma pk_canon_len : gcry_sexp_canon_len P 0 = length P.
Proof.
  destruct pk_sizes as (S1 & S2 & S3 & S4 & S5 & S6).
  pose proof pk_head as Hh.
  change (lit "(21:protected-private-key")
    with (["("] ++ (dec 21 ++ [":"]) ++ lit "protected-private-key") in Hh.
  apply bytes_at_app in Hh as [H0 Hh]. apply bytes_at_app in Hh as [H1 H2].
  apply bytes_at_peek1 in H0.
  assert (Hlen : length K <> 0) by lia.
  unfold gcry_sexp_canon_len. rewrite H0, byte_eqb_refl.
  replace (S (length P))
    with (S (S (S (S (4 * length (lit "ne") + (13 + (length P - 24)))))))
    by (rewrite pk_length; change (length (lit "ne")) with 2; lia).
  rewrite (canon_loop_open _ _ _ _ _ H0) by now left.
  rewrite (canon_loop_atom_at P _ 0 1 _ 21 25)
    by (assumption || discriminate || reflexivity || now left).
  rewrite canon_loop_open; [| |now left].
  2:{ change 25 with (15 + 10). rewrite pk_front_peek by lia.
      exact (kl_open2 _ _ _ _ _ _ L). }
  rewrite (canon_loop_atom _ P 0 26 _ 3 (a3 + 10) pk_algolen);
    [|discriminate| |now left].
  2:{ change 26 with (16 + 10). rewrite pk_front_peek by lia. exact Z3. }
  replace (a3 + 10 + 3) with (a3 + 13) by lia.
  rewrite (canon_loop_chain _ _ _ _ _ _ _ pk_public) by (lia || now left).
  rewrite (canon_loop_pl P salt iv ct (pb + 10) Hsalt Hiv pk_pl Hct)
    by (lia || now left).
  fold PL.
  pose proof (canon_loop_fuel_mono _ (length P - 24) _ _ _ _ _ Htail Hlen) as Hm.
  pose proof (canon_loop_transport (length P - 24) K P 0 he (pb + 10 + length PL)
                2 (length K)) as T.
  rewrite T.
  - rewrite pk_length. lia.
  - apply Hm. rewrite pk_length.
    pose proof (pl_length salt iv ct Hsalt Hiv) as PLn. fold PL in PLn. lia.
  - assumption.
  - apply pk_tail_agree.
  - now left.
Qed.

Lemma pk_sskip_pl : sskip P (S (pb + 10)) 1 = Ok (pb + 10 + length PL, 0).
Proof.
  destruct pk_sizes as (S1 & S2 & S3 & S4 & S5 & S6).
  unfold sskip.
  replace (S (length P)) with (12 + (length P - 11))
    by (rewrite pk_length; lia).
  replace (S (pb + 10)) with (pb + 10 + 1) by lia.
  rewrite (sskip_loop_pl P salt iv ct (pb + 10) Hsalt Hiv pk_pl Hct).
  apply sskip_loop_done.
Qed.

Lemma pk_sskip_rest :
  sskip P (pb + 10 + length PL) 2 = Ok (length P, 0).
Proof.
  destruct pk_sizes as (S1 & S2 & S3 & S4 & S5 & S6).
  pose proof (pl_length salt iv ct Hsalt Hiv) as PLn. fold PL in PLn.
  unfold sskip.
  rewrite sskip_loop_close; [| |lia].
  2:{ pose proof (pk_back_peek he ltac:(lia) ltac:(lia)) as E.
      rewrite Nat.sub_diag in E. cbn [Nat.add] in E. rewrite E.
      exact (kl_close _ _ _ _ _ _ L). }
  pose proof (kl_rest _ _ _ _ _ _ L) as R. unfold sskip in R. fold he in R.
  apply sskip_loop_fuel_mono with (S (length K)); [|rewrite pk_length; lia].
  pose proof (sskip_loop_transport _ K P (S he) (S (pb + 10 + length PL)) 1
                (length K) 0 R) as T.
  replace (S (pb + 10 + length PL) + (length K - S he)) with (length P) in T
    by (rewrite pk_length; lia).
  apply T.
  pose proof (pk_back (S he) (length K - S he) ltac:(lia) ltac:(lia)) as E.
  replace (S he - he + (pb + 10 + length PL)) with (S (pb + 10 + length PL)) in E
    by lia.
  exact E.
Qed.
End ProtectedKey.

(** ** The decrypted text *)

Section Cleartext.
Variables (K mic C : list byte) (a3 : nat) (sc : protect_scan).
Hypothesis L : key_layout true K 4 a3 (length K) sc.
Hypothesis Hmic : length mic = 20.

Let pb := prot_begin sc.
Let he := hash_end sc.
Let protlen := he - pb.

Hypothesis HC :
  bytes_at C 0 (protect_plaintext (read_bytes K pb protlen) mic []).
Hypothesis HClen : protlen + 41 <= length C.

Lemma ct_pieces :
  peek C 0 = "(" /\
  peek C 1 = "(" /\
  read_bytes C 2 protlen = read_bytes K pb protlen /\
  peek C (protlen + 2) = ")" /\
  peek C (protlen + 3) = "(" /\
  bytes_at C (protlen + 4) (dec 4 ++ [":"]) /\
  bytes_at C (protlen + 6) (lit "hash") /\
  bytes_at C (protlen + 10) (dec 4 ++ [":"]) /\
  bytes_at C (protlen + 12) (lit "sha1") /\
  bytes_at C (protlen + 16) (dec 20 ++ [":"]) /\
  bytes_at C (protlen + 19) mic /\
  peek C (protlen + 39) = ")" /\
  peek C (protlen + 40) = ")".
Proof.
  pose proof HC as H. unfold protect_plaintext in H.
  rewrite List.app_nil_r in H.
  change (lit "((") with (["("] ++ ["("]) in H.
  change (lit ")(4:hash4:sha120:")
    with ([")"] ++ ["("] ++ (dec 4 ++ [":"]) ++ lit "hash" ++ (dec 4 ++ [":"])
          ++ lit "sha1" ++ (dec 20 ++ [":"])) in H.
  change (lit "))") with ([")"] ++ [")"]) in H.
  rewrite <- !app_assoc in H.
  rewrite !(app_assoc (dec _) [":"]) in H.
  repeat match type of H with
         | bytes_at _ _ (_ ++ _) =>
             let F := fresh "F" in apply bytes_at_app in H as [F H]
         end.
  rewrite !length_app in *. rewrite ?length_read_bytes, ?Hmic in *.
  change (length (dec 4)) with 1 in *. change (length (dec 20)) with 2 in *.
  change (length (lit "hash")) with 4 in *.
  change (length (lit "sha1")) with 4 in *.
  change (length ["("]) with 1 in *.
  change (length [")"]) with 1 in *.
  change (length [":"]) with 1 in *.
  repeat split;
    try apply bytes_at_peek1;
    try match goal with
    | HF : bytes_at _ ?p ?x |- bytes_at _ ?q ?x =>
        replace q with p by lia; exact HF
    end.
  unfold bytes_at in F1. now rewrite length_read_bytes in F1.
Qed.

Lemma ct_sizes : pb + 24 <= he /\ he < length K.
Proof.
  pose proof (key_layout_sizes _ _ _ _ _ _ L) as (S1 & S2 & S3 & S4 & S5 & S6).
  pose proof (kl_hash_end _ _ _ _ _ _ L) as HE. unfold pb, he. lia.
Qed.

Lemma ct_chain : param_chain true C (lit "dpqu") 2 (protlen + 2).
Proof.
  destruct ct_pieces as (F0 & F1 & F2 & _).
  destruct ct_sizes as [S1 S2].
  pose proof (kl_secret _ _ _ _ _ _ L) as S.
  rewrite <- (kl_hash_end _ _ _ _ _ _ L) in S. fold pb he in S.
  pose proof (param_chain_transport true K C (lit "dpqu") pb 2 he S) as T.
  fold protlen in T. replace (2 + protlen) with (protlen + 2) in T by lia.
  apply T. exact F2.
Qed.

Lemma ct_canon_len (L' : nat) :
  L' = 0 \/ protlen + 41 <= L' -> gcry_sexp_canon_len C L' = protlen + 41.
Proof.
  intro HL.
  destruct ct_pieces as (F0 & F1 & F2 & F3 & F4 & F5 & F6 & F7 & F8 & F9 & F10
                         & F11 & F12).
  assert (HB : forall q, q <= protlen + 41 -> L' = 0 \/ q <= L')
    by (intros q Hq; destruct HL; [now left|right; lia]).
  assert (HB' : forall q, q < protlen + 41 -> L' = 0 \/ q < L')
    by (intros q Hq; destruct HL; [now left|right; lia]).
  unfold gcry_sexp_canon_len. rewrite F0, byte_eqb_refl.
  replace (S (length C))
    with (S (S (4 * length (lit "dpqu")
                + S (S (S (S (S (S (S (length C - 24))))))))))
    by (change (length (lit "dpqu")) with 4; lia).
  rewrite (canon_loop_open _ _ _ _ _ F0) by (apply HB'; lia).
  rewrite (canon_loop_open _ _ _ _ _ F1) by (apply HB'; lia).
  rewrite (canon_loop_chain _ _ _ _ _ _ _ ct_chain) by (lia || (apply HB; lia)).
  rewrite (canon_loop_close _ _ _ _ _ F3) by ((apply HB'; lia) || lia).
  replace (S (protlen + 2)) with (protlen + 3) by lia.
  rewrite (canon_loop_open _ _ _ _ _ F4) by (apply HB'; lia).
  replace (S (protlen + 3)) with (protlen + 4) by lia.
  rewrite (canon_loop_atom_at C _ L' (protlen + 4) _ 4 (protlen + 10))
    by (assumption || discriminate || (cbn; lia) || (apply HB; lia)).
  rewrite (canon_loop_atom_at C _ L' (protlen + 10) _ 4 (protlen + 16))
    by (assumption || discriminate || (cbn; lia) || (apply HB; lia)).
  rewrite (canon_loop_atom_at C _ L' (protlen + 16) _ 20 (protlen + 39))
    by (assumption || discriminate || (cbn; lia) || (apply HB; lia)).
  rewrite (canon_loop_close _ _ _ _ _ F11) by ((apply HB'; lia) || lia).
  replace (S (protlen + 39)) with (protlen + 40) by lia.
  rewrite (canon_loop_last _ _ _ _ F12) by (apply HB'; lia).
  lia.
Qed.
End Cleartext.

(** ** merge_lists puts the key together again *)

Lemma protect_enclen_bounds (protlen : nat) :
  protect_enclen protlen mod blklen = 0
  /\ protlen + 42 <= protect_enclen protlen <= protlen + 57.
Proof.
  unfold protect_enclen. change blklen with 16.
  replace (2 + protlen + 2 + 6 + 6 + 23 + 2 + 16) with (protlen + 57) by lia.
  split.
  - apply Nat.Div0.mod_mul.
  - pose proof (Nat.div_mod_eq (protlen + 57) 16) as E.
    pose proof (Nat.mod_upper_bound (protlen + 57) 16 ltac:(lia)). lia.
Qed.

Section Merge.
Variables (K salt iv ct mic C : list byte) (a3 : nat) (sc : protect_scan) (e : Env).
Hypothesis L : key_layout true K 4 a3 (length K) sc.
Hypothesis Hhead : bytes_at K 0 (lit "(11:private-key").
Hypothesis Z3 : peek K 16 <> "0".
Hypothesis Hsalt : length salt = 8.
Hypothesis Hiv : length iv = 16.
Hypothesis Hct : length ct <> 0.
Hypothesis Hmic : length mic = 20.

Let pb := prot_begin sc.
Let he := hash_end sc.
Let protlen := he - pb.
Let PL := protected_list salt iv ct.
Let P := protected_key K sc salt iv ct.

Hypothesis Htail : canon_loop (length K - 27) K 0 he 2 = length K.
Hypothesis Hbig : he - pb <= length ct.
Hypothesis HC :
  bytes_at C 0 (protect_plaintext (read_bytes K pb protlen) mic []).
Hypothesis HClen : protlen + 41 <= length C.
Hypothesis Halloc : forall n, gcry_malloc_secure_ok e n = true.

Lemma key_split :
  K = lit "(11:private-key" ++ read_bytes K 15 (pb - 15)
      ++ read_bytes K pb protlen ++ read_bytes K he (length K - he).
Proof.
  destruct (pk_sizes K salt iv ct a3 sc L Hsalt Hiv Hct) as (S1 & S2 & S3 & S4 & S5 & S6).
  fold pb he in S1, S2, S3, S4, S5, S6.
  rewrite <- (read_bytes_all K) at 1.
  replace (length K) with (15 + ((pb - 15) + (protlen + (length K - he))))
    at 1 by (unfold protlen; lia).
  rewrite !read_bytes_app.
  replace (0 + 15 + (pb - 15)) with pb by lia.
  replace (pb + protlen) with he by (unfold protlen; lia).
  f_equal. exact Hhead.
Qed.

Lemma merge_lists_ok :
  merge_lists e P (pb + 10) C
  = Ok (mic, heap_block e (length P + (protlen + 41)) K).
Proof.
  destruct (pk_sizes K salt iv ct a3 sc L Hsalt Hiv Hct) as (S1 & S2 & S3 & S4 & S5 & S6).
  fold pb he in S1, S2, S3, S4, S5, S6.
  destruct (ct_pieces K mic C sc Hmic HC HClen)
    as (F0 & F1 & F2 & F3 & F4 & F5 & F6 & F7 & F8 & F9 & F10 & F11 & F12).
  fold pb he protlen in F2, F3, F4, F5, F6, F7, F8, F9, F10, F11, F12.
  pose proof (ct_chain K mic C a3 sc L Hmic HC HClen) as Hchain.
  fold pb he protlen in Hchain.
  pose proof (pl_length salt iv ct Hsalt Hiv) as PLn. fold PL in PLn.
  pose proof (pk_length K salt iv ct a3 sc L Hsalt Hiv Hct) as Plen. fold pb he PL P in Plen.
  pose proof (pk_canon_len K salt iv ct a3 sc L Z3 Hsalt Hiv Hct Htail Hbig) as Ecan.
  fold P in Ecan.
  pose proof (ct_canon_len K mic C a3 sc L Hmic HC HClen 0 (or_introl eq_refl)) as Ecan2.
  fold pb he protlen in Ecan2.
  pose proof (pk_sskip_pl K salt iv ct a3 sc L Hsalt Hiv Hct Htail Hbig) as Esk1.
  fold pb PL P in Esk1.
  pose proof (pk_sskip_rest K salt iv ct a3 sc L Hsalt Hiv Hct Htail Hbig) as Esk2.
  fold pb PL P in Esk2.
  pose proof (pk_tail_agree K salt iv ct a3 sc L Hsalt Hiv Hct Htail Hbig) as Etail.
  fold pb he PL P in Etail.
  pose proof (pk_front K salt iv ct a3 sc L Hsalt Hiv Hct 15 (pb - 15)
                ltac:(lia) ltac:(fold pb; lia)) as Efront.
  fold P in Efront.
  unfold merge_lists.
  replace (pb + 10 <? 26) with false by (symmetry; apply Nat.ltb_ge; lia).
  cbn [negb].
  rewrite Ecan.
  replace (length P =? 0) with false by (symmetry; apply Nat.eqb_neq; lia).
  cbn [negb].
  rewrite Ecan2.
  replace (protlen + 41 =? 0) with false by (symmetry; apply Nat.eqb_neq; lia).
  cbn [negb]. rewrite Halloc.
  rewrite F0, byte_eqb_refl. cbn [negb andb].
  change (0 + 2) with 2.
  replace (S (length C)) with (length (lit "dpqu") + S (length C - 4))
    by (change (length (lit "dpqu")) with 4; lia).
  rewrite (pair_loop_chain _ _ _ _ _ _ Hchain).
  rewrite pair_loop_stop by (rewrite F3; discriminate).
  cbn [bind]. rewrite F3, byte_eqb_refl.
  replace (S (protlen + 2)) with (protlen + 3) by lia.
  rewrite F4, byte_eqb_refl.
  replace (S (protlen + 3)) with (protlen + 4) by lia.
  rewrite (snext_at C 4 (protlen + 4) (protlen + 6))
    by (assumption || discriminate || (cbn; lia)).
  rewrite (smatch_at_pos C 4 (protlen + 6) (protlen + 10) (lit "hash"))
    by (assumption || reflexivity || lia).
  rewrite (snext_at C 4 (protlen + 10) (protlen + 12))
    by (assumption || discriminate || (cbn; lia)).
  rewrite (smatch_at_pos C 4 (protlen + 12) (protlen + 16) (lit "sha1"))
    by (assumption || reflexivity || lia).
  rewrite (snext_at C 20 (protlen + 16) (protlen + 19))
    by (assumption || discriminate || (cbn; lia)).
  cbn [Nat.eqb].
  replace (protlen + 19 + 20) with (protlen + 39) by lia.
  rewrite F11, byte_eqb_refl.
  rewrite Esk1. cbn [bind]. rewrite Esk2. cbn [bind].
  f_equal. f_equal.
  - unfold bytes_at in F10. now rewrite Hmic in F10.
  - f_equal.
    replace (pb + 10 - 15 - 10) with (pb - 15) by lia.
    replace (protlen + 2 - 2) with protlen by lia.
    replace (length P - (pb + 10 + length PL)) with (length K - he) by lia.
    change (15 + 10) with 25 in *. rewrite Efront, F2, Etail.
    rewrite <- !app_assoc. symmetry. exact key_split.
Qed.
End Merge.

(** ** Unprotecting what agent_protect returned *)

Lemma protect_plaintext_pad (region mic pad : list byte) :
  protect_plaintext region mic pad = protect_plaintext region mic [] ++ pad.
Proof.
  unfold protect_plaintext. rewrite <- !app_assoc. reflexivity.
Qed.

Lemma length_protect_plaintext (region mic pad : list byte) :
  length (protect_plaintext region mic pad)
  = length region + length mic + length pad + 21.
Proof.
  unfold protect_plaintext. rewrite !length_app.
  change (length (lit "((")) with 2.
  change (length (lit ")(4:hash4:sha120:")) with 17.
  change (length (lit "))")) with 2. lia.
Qed.

Lemma heap_block_prefix (e : Env) (n : nat) (w : list byte) :
  read_bytes (heap_block e n w) 0 (length w) = w.
Proof. unfold heap_block. apply read_bytes_prefix. Qed.

Lemma heap_block_length (e : Env) (n : nat) (w : list byte) :
  length w <= length (heap_block e n w).
Proof. unfold heap_block. rewrite length_app. lia. Qed.

Section RoundTrip.
Context {G : Gcrypt} {GL : GcryptLaws G}.
Variables (K iv key pw : list byte) (a3 : nat) (sc : protect_scan) (e : Env).
Hypothesis L : key_layout true K 4 a3 (length K) sc.
Hypothesis Hhead : bytes_at K 0 (lit "(11:private-key").
Hypothesis Z3 : peek K 16 <> "0".
Hypothesis Htail : canon_loop (length K - 27) K 0 (hash_end sc) 2 = length K.
Hypothesis Hcanon : gcry_sexp_canon_len K 0 = length K.
Hypothesis Henv : env_ok e.
Hypothesis Hkey :
  hash_passphrase e pw GCRY_MD_SHA1 3 (Some (iv, 2 * blklen)) 96%Z
                  PROT_CIPHER_KEYLEN = Ok key.

Let pb := prot_begin sc.
Let he := hash_end sc.
Let protlen := he - pb.
Let salt := read_bytes iv (2 * blklen) 8.
Let iv16 := read_bytes iv 0 blklen.
Let mic := read_bytes (protect_mic K sc) 0 20.
Let enclen := protect_enclen protlen.
Let plain := protect_plaintext (read_bytes K pb protlen) mic
                               (read_bytes iv blklen blklen).
Let C := read_bytes plain 0 enclen.
Let ct := protect_ciphertext K sc iv key.
Let P := protected_key K sc salt iv16 ct.

Lemma rt_protlen : prot_end sc - prot_begin sc + 1 = protlen.
Proof.
  pose proof (key_layout_sizes _ _ _ _ _ _ L) as (S1 & S2 & S3 & S4 & S5 & S6).
  pose proof (kl_hash_end _ _ _ _ _ _ L). unfold protlen, he, pb. lia.
Qed.

Lemma rt_ct :
  ct = gcry_cbc_encrypt (read_bytes key 0 PROT_CIPHER_KEYLEN) iv16 C
  /\ length ct = enclen.
Proof.
  unfold ct, protect_ciphertext. rewrite rt_protlen.
  fold pb mic enclen plain C iv16.
  assert (Hl : length (gcry_cbc_encrypt (read_bytes key 0 PROT_CIPHER_KEYLEN)
                                        iv16 C) = enclen).
  { rewrite cbc_encrypt_length. unfold C. apply length_read_bytes. }
  split; [|apply length_read_bytes].
  rewrite <- Hl at 2. apply read_bytes_prefix.
Qed.

Lemma rt_mic_length : length (protect_mic K sc) = 20.
Proof. unfold protect_mic. rewrite md_digest_length. apply sha1_dlen. Qed.

Lemma rt_cleartext :
  bytes_at C 0 (protect_plaintext (read_bytes K pb protlen) mic [])
  /\ length C = enclen /\ protlen + 41 <= length C.
Proof.
  pose proof (protect_enclen_bounds protlen) as [_ B]. fold enclen in B.
  assert (Hl : length (protect_plaintext (read_bytes K pb protlen) mic [])
               = protlen + 41).
  { rewrite length_protect_plaintext. unfold mic.
    rewrite !length_read_bytes. cbn [length]. lia. }
  split; [|split].
  - unfold bytes_at, C. rewrite read_bytes_read_bytes by lia.
    unfold plain. rewrite protect_plaintext_pad. cbn [Nat.add].
    apply read_bytes_prefix.
  - unfold C. apply length_read_bytes.
  - unfold C. rewrite length_read_bytes. lia.
Qed.

Lemma rt_key_unprotect :
  hash_passphrase e pw GCRY_MD_SHA1 3 (Some (P, pb + 60)) 96%Z
                  PROT_CIPHER_KEYLEN = Ok key.
Proof.
  rewrite <- Hkey. apply hash_passphrase_salt_ext; [|reflexivity].
  cbn [fst snd].
  destruct rt_ct as [_ Hct].
  pose proof (protect_enclen_bounds protlen) as [_ B]. fold enclen in B.
  destruct (pl_pieces P salt iv16 ct (pb + 10)
              (length_read_bytes _ _ _) (length_read_bytes _ _ _)
              (pk_pl K salt iv16 ct a3 sc L (length_read_bytes _ _ _)
                     (length_read_bytes _ _ _) ltac:(lia)))
    as (_ & _ & _ & _ & _ & _ & _ & _ & _ & _ & F10 & _).
  assert (Hs : length salt = 8) by apply length_read_bytes.
  unfold bytes_at in F10. rewrite Hs in F10.
  replace (pb + 10 + 50) with (pb + 60) in F10 by lia.
  rewrite F10. reflexivity.
Qed.

Lemma rt_do_decryption :
  do_decryption e (P, pb + 94 + length (dec (length ct))) (length ct) pw
                (P, pb + 60) 96%Z (P, pb + 76) 16 = Ok C.
Proof.
  destruct Henv as (E1 & E2 & E3 & E4 & E5 & E6 & E7).
  destruct rt_ct as [Ect Hct].
  destruct rt_cleartext as (HC & HCl & HCm).
  pose proof (protect_enclen_bounds protlen) as [Bm B]. fold enclen in Bm, B.
  destruct (pl_pieces P salt iv16 ct (pb + 10)
              (length_read_bytes _ _ _) (length_read_bytes _ _ _)
              (pk_pl K salt iv16 ct a3 sc L (length_read_bytes _ _ _)
                     (length_read_bytes _ _ _) ltac:(lia)))
    as (_ & _ & _ & _ & _ & _ & _ & _ & _ & _ & _ & _ & _ & _ & _
        & F15 & _ & _ & F18 & _).
  unfold do_decryption.
  rewrite Hct.
  replace (enclen <? 4) with false by (symmetry; apply Nat.ltb_ge; lia).
  rewrite Bm. cbn [Nat.eqb negb orb].
  rewrite E1, E6, E2, E6, rt_key_unprotect, E3, E4. cbn [of_rc bind fst snd].
  assert (Hi : length iv16 = 16) by apply length_read_bytes.
  unfold bytes_at in F15, F18. rewrite Hi in F15.
  replace (pb + 10 + 66) with (pb + 76) in F15 by lia.
  replace (pb + 10 + 84) with (pb + 94) in F18 by lia.
  rewrite Hct in F18.
  rewrite F15, F18, Ect.
  rewrite cbc_decrypt_encrypt by (rewrite HCl; exact Bm).
  destruct (ct_pieces K mic C sc (length_read_bytes _ _ _) HC HCm)
    as (F0 & _).
  rewrite F0, byte_eqb_refl. cbn [negb andb].
  rewrite (ct_canon_len K mic C a3 sc L (length_read_bytes _ _ _) HC HCm enclen)
    by (right; fold pb he protlen; lia).
  fold pb he protlen.
  replace (protlen + 41 =? 0) with false by (symmetry; apply Nat.eqb_neq; lia).
  replace (protlen + 41 + blklen <? enclen) with false
    by (symmetry; apply Nat.ltb_ge; change blklen with 16; lia).
  reflexivity.
Qed.

Lemma rt_calculate_mic (n : nat) :
  calculate_mic (heap_block e n K) = Ok (protect_mic K sc).
Proof.
  pose proof (key_layout_sizes _ _ _ _ _ _ L) as (S1 & S2 & S3 & S4 & S5 & S6).
  pose proof (kl_hash_end _ _ _ _ _ _ L) as HE.
  pose proof (kl_hash_begin _ _ _ _ _ _ L) as HB.
  assert (Hag : read_bytes (heap_block e n K) 0 (length K)
                = read_bytes K 0 (length K))
    by (rewrite heap_block_prefix; symmetry; apply read_bytes_all).
  pose proof (key_layout_same _ _ _ _ _ _ _ L Hag (heap_block_length e n K)) as L'.
  unfold calculate_mic. rewrite (mic_span_layout _ _ _ _ _ _ L'). cbn [bind].
  unfold protect_mic. do 2 f_equal.
  replace (S (hash_end sc) - hash_begin sc)
    with (hash_end sc - hash_begin sc + 1) by lia.
  apply (agree_same K (heap_block e n K) (length K)); [exact Hag|lia].
Qed.

Lemma rt_final :
  exists n, agent_unprotect_final e P pw = Ok (heap_block e n K).
Proof.
  destruct rt_ct as [Ect Hct].
  destruct rt_cleartext as (HC & HCl & HCm).
  pose proof (protect_enclen_bounds protlen) as [Bm B]. fold enclen in Bm, B.
  pose proof (pk_scan K salt iv16 ct a3 sc L (length_read_bytes _ _ _)
                (length_read_bytes _ _ _) ltac:(lia)) as Hscan.
  fold pb P in Hscan.
  pose proof (merge_lists_ok K salt iv16 ct mic C a3 sc e L Hhead Z3
                (length_read_bytes _ _ _) (length_read_bytes _ _ _)
                ltac:(lia) (length_read_bytes _ _ _) Htail
                ltac:(fold pb he protlen; lia) HC HCm
                (proj1 (proj2 (proj2 (proj2 (proj2 (proj2 Henv))))))) as Hmerge.
  fold pb he protlen P in Hmerge.
  exists (length P + (protlen + 41)).
  unfold agent_unprotect_final. rewrite Hscan. cbn [bind].
  cbn [u_protected u_protectedlen u_s2ksalt u_s2kcount u_iv u_prot_begin].
  rewrite rt_do_decryption. cbn [bind].
  rewrite Nat.sub_0_r, Hmerge. cbn [bind].
  rewrite rt_calculate_mic. cbn [bind].
  fold mic.
  replace (read_bytes mic 0 20) with mic.
  2:{ symmetry. replace 20 with (length mic) at 1 by apply length_read_bytes.
      apply read_bytes_all. }
  now rewrite bytes_eqb_refl.
Qed.

Lemma rt_unprotect (o : cptr * nat) :
  exists out,
    agent_unprotect e P pw o = (None, out) /\ returned_buffer out = K.
Proof.
  destruct rt_final as [n Hf].
  pose proof (key_layout_sizes _ _ _ _ _ _ L) as (S1 & S2 & S3 & S4 & S5 & S6).
  assert (Hag : read_bytes (heap_block e n K) 0 (length K)
                = read_bytes K 0 (length K))
    by (rewrite heap_block_prefix; symmetry; apply read_bytes_all).
  assert (Hlen : gcry_sexp_canon_len (heap_block e n K) 0 = length K).
  { pose proof Hcanon as Hc. unfold gcry_sexp_canon_len in *.
    rewrite (kl_open _ _ _ _ _ _ L), byte_eqb_refl in Hc.
    replace (peek (heap_block e n K) 0) with "(".
    2:{ rewrite (agree_same_peek K (heap_block e n K) (length K))
          by (assumption || lia).
        symmetry. exact (kl_open _ _ _ _ _ _ L). }
    rewrite byte_eqb_refl.
    apply canon_loop_fuel_mono with (f' := S (length (heap_block e n K))) in Hc;
      [|lia|pose proof (heap_block_length e n K); lia].
    pose proof (canon_loop_transport _ K (heap_block e n K) 0 0 0 0 (length K)
                  Hc ltac:(lia)) as T.
    rewrite Nat.sub_0_r in T. rewrite T; [lia|exact Hag|now left]. }
  eexists. split.
  - unfold agent_unprotect. rewrite Hf. reflexivity.
  - unfold returned_buffer. cbn [fst snd]. rewrite Hlen.
    apply heap_block_prefix.
Qed.
End RoundTrip.

(** ** The small instance satisfies the laws of the library *)

Lemma xor_byte_involutive (k c : byte) : xor_byte k (xor_byte k c) = c.
Proof.
  destruct k as [k0 k1 k2 k3 k4 k5 k6 k7], c as [c0 c1 c2 c3 c4 c5 c6 c7].
  cbn [xor_byte].
  f_equal; rewrite <- xorb_assoc, xorb_nilpotent; apply xorb_false_l.
Qed.

Lemma toy_crypt_involutive (k iv m : list byte) :
  toy_crypt k iv (toy_crypt k iv m) = m.
Proof.
  unfold toy_crypt. rewrite map_map.
  induction m as [|c m IH]; [reflexivity|].
  cbn [map]. now rewrite xor_byte_involutive, IH.
Qed.

Lemma toy_gcrypt_laws : GcryptLaws toy_gcrypt.
Proof.
  split; cbv [toy_gcrypt gcry_md_digest gcry_md_get_algo_dlen
                  gcry_cbc_encrypt gcry_cbc_decrypt].
  - intros a m. unfold toy_digest. now rewrite length_map, length_seq.
  - reflexivity.
  - intros k iv m. unfold toy_crypt. apply length_map.
  - intros k iv m. unfold toy_crypt. apply length_map.
  - intros k iv m _. apply toy_crypt_involutive.
Qed.

Lemma env_ok_quiet : env_ok quiet_env.
Proof. repeat split. Qed.

(** ** Protect followed by unprotect *)

(** C1.  For every canonical private-key buffer [K] and passphrase [pw]:
    if [agent_protect] succeeds on [K] (so the algorithm of [K] is in the
    protection table), then [agent_unprotect], run on the returned buffer
    with the same passphrase in an environment without allocation or
    library failures, succeeds and returns exactly the bytes of [K]. *)
Theorem agent_protect_unprotect_round_trip
        {G : Gcrypt} {GL : GcryptLaws G} (e1 e2 : Env) (K pw : list byte)
        (o1 o2 out : cptr * nat) :
  gcry_sexp_canon_len K 0 = length K ->
  agent_protect e1 K pw o1 = (None, out) ->
  env_ok e2 ->
  exists out2,
    agent_unprotect e2 (returned_buffer out) pw o2 = (None, out2)
    /\ returned_buffer out2 = K
    /\ snd out2 = length K.
Proof.
  intros Hcanon Hprot Henv.
  destruct (@agent_protect_ok_inv G _ _ _ _ _ Hprot)
    as (sc & iv & key & Hscan & _ & Hkey & Hout & _).
  destruct (agent_protect_scan_inv _ _ Hscan) as (a0 & a3 & e & L0).
  destruct (key_layout_canonical _ _ _ _ _ L0 Hcanon) as (L & Hhead & Z3 & Htail).
  assert (Hkey2 : hash_passphrase e2 pw GCRY_MD_SHA1 3 (Some (iv, 2 * blklen))
                                  96%Z PROT_CIPHER_KEYLEN = Ok key).
  { rewrite <- Hkey. apply hash_passphrase_salt_ext; [reflexivity|].
    rewrite (@hash_passphrase_ok_md_open G _ _ _ _ _ _ _ _ Hkey).
    now destruct Henv as (_ & _ & _ & _ & -> & _). }
  destruct (@rt_unprotect G GL K iv key pw a3 sc e2 L Hhead Z3 Htail Hcanon
                         Henv Hkey2 o2) as (out2 & Hun & Hret).
  exists out2. subst out. unfold returned_buffer at 1. cbn [fst snd].
  rewrite read_bytes_all. split; [exact Hun|]. split; [exact Hret|].
  revert Hret. unfold returned_buffer. destruct (fst out2).
  - intro H. rewrite <- H in Hhead. discriminate Hhead.
  - intro H. rewrite <- H. now rewrite length_read_bytes.
Qed.

(** The round trip on scenario S1, with the small library instance. *)
Lemma agent_protect_unprotect_round_trip_S1 :
  exists out2,
    agent_unprotect (G := toy_gcrypt) quiet_env (returned_buffer protected_S1)
                    (lit "abc") no_out
    = (None, out2)
    /\ returned_buffer out2 = key_S1
    /\ snd out2 = length key_S1.
Proof.
  apply (agent_protect_unprotect_round_trip (G := toy_gcrypt)
           (GL := toy_gcrypt_laws)
           quiet_env quiet_env key_S1 (lit "abc") no_out no_out protected_S1).
  - vm_compute. reflexivity.
  - vm_compute. reflexivity.
  - exact env_ok_quiet.
Defined.

(** ** The buffer agent_protect returns *)




(** ** The integrity check value *)

(** C5.  For every private-key buffer [K] accepted by the scan of
    [agent_protect]: the value [agent_protect] hashes inline, from
    [hash_begin] through [hash_end] inclusive, is the value
    [calculate_mic] returns for [K]; the hashed span starts at the open
    paren right behind [(private-key], and [sskip] started inside that
    list stops right behind the byte [hash_end], which is the matching
    close paren; both digests are SHA-1 of exactly these bytes of [K]. *)
Theorem protect_mic_calculate_mic
        {G : Gcrypt} (K : list byte) (sc : protect_scan) :
  agent_protect_scan K = Ok sc ->
  calculate_mic K = Ok (protect_mic K sc)
  /\ protect_mic K sc
     = gcry_md_digest GCRY_MD_SHA1
         (read_bytes K (hash_begin sc) (hash_end sc - hash_begin sc + 1))
  /\ (exists a0, snext K 1 = (11, a0) /\ bytes_at K a0 (lit "private-key")
                 /\ hash_begin sc = a0 + 11)
  /\ peek K (hash_begin sc) = "("
  /\ peek K (hash_end sc) = ")"
  /\ sskip K (S (hash_begin sc)) 1 = Ok (S (hash_end sc), 0).
Proof.
  intro Hscan.
  destruct (agent_protect_scan_inv _ _ Hscan) as (a0 & a3 & e & L).
  pose proof (key_layout_sizes _ _ _ _ _ _ L) as Hs.
  split; [|split; [reflexivity|split; [|split; [|split]]]].
  - unfold calculate_mic. rewrite (mic_span_layout _ _ _ _ _ _ L).
    cbn [bind]. unfold protect_mic. do 3 f_equal.
    rewrite (kl_hash_begin _ _ _ _ _ _ L), (kl_hash_end _ _ _ _ _ _ L). lia.
  - exists a0. split; [apply (kl_len _ _ _ _ _ _ L)|].
    split; [apply (kl_name _ _ _ _ _ _ L)|apply (kl_hash_begin _ _ _ _ _ _ L)].
  - rewrite (kl_hash_begin _ _ _ _ _ _ L). apply (kl_open2 _ _ _ _ _ _ L).
  - apply (kl_close _ _ _ _ _ _ L).
  - apply (key_layout_inner_list _ _ _ _ _ _ L).
Qed.

Lemma protect_mic_calculate_mic_S1 :
  let sc := {| hash_begin := 15; hash_end := 69; prot_begin := 37;
               prot_end := 68; real_end := 70 |} in
  calculate_mic (G := toy_gcrypt) key_S1
  = Ok (protect_mic (G := toy_gcrypt) key_S1 sc)
  /\ protect_mic (G := toy_gcrypt) key_S1 sc
     = @gcry_md_digest toy_gcrypt GCRY_MD_SHA1
         (read_bytes key_S1 (hash_begin sc) (hash_end sc - hash_begin sc + 1))
  /\ (exists a0, snext key_S1 1 = (11, a0)
                 /\ bytes_at key_S1 a0 (lit "private-key")
                 /\ hash_begin sc = a0 + 11)
  /\ peek key_S1 (hash_begin sc) = "("
  /\ peek key_S1 (hash_end sc) = ")"
  /\ sskip key_S1 (S (hash_begin sc)) 1 = Ok (S (hash_end sc), 0).
Proof.
  apply (protect_mic_calculate_mic (G := toy_gcrypt) key_S1).
  vm_compute. reflexivity.
Defined.

(** ** Classification *)






(** The head of the buffer [agent_protect] returns for a key that starts
    with [(11:]. *)
Lemma protected_key_head (K : list byte) (a0 a3 e : nat) (sc : protect_scan)
      (salt iv ct : list byte) :
  key_layout false K a0 a3 e sc ->
  bytes_at K 0 (lit "(11:") ->
  bytes_at (protected_key K sc salt iv ct) 0 (lit "(21:protected-private-key").
Proof.
  intros L H.
  pose proof (key_layout_sizes _ _ _ _ _ _ L) as (S1 & S2 & S3 & S4 & S5).
  change (lit "(11:") with (lit "(" ++ (dec 11 ++ [":"])) in H.
  apply bytes_at_app in H. destruct H as [_ H1]. cbn [length lit Nat.add] in H1.
  pose proof (snext_at K 11 1 4 ltac:(discriminate) H1 eq_refl) as E.
  rewrite (kl_len _ _ _ _ _ _ L) in E. injection E as ->.
  change (lit "(21:protected-private-key")
    with (lit "(21:protected-" ++ lit "private-key").
  unfold protected_key. apply bytes_at_app. split; [apply bytes_at_here|].
  change (0 + length (lit "(21:protected-")) with (length (lit "(21:protected-") + 0).
  apply bytes_at_skip. unfold bytes_at.
  change (length (lit "private-key")) with 11.
  rewrite read_bytes_app_l by (rewrite length_read_bytes; lia).
  rewrite read_bytes_read_bytes by lia.
  exact (kl_name _ _ _ _ _ _ L).
Qed.




(** ** The key derivation of hash_passphrase *)



(** C10.  For every passphrase, S2K mode and positive key length, when
    the digest length is positive: a pass of the loop of [hash_passphrase]
    that starts with [used < keylen] copies
    [min (digest length) (keylen - used) > 0] bytes into the key, and the
    loop, started with [used = 0], ends after exactly
    [ceiling (keylen / digest length)] passes with [used = keylen] and
    [keylen] key bytes. *)
Theorem hash_passphrase_loop_terminates
        {G : Gcrypt} (passphrase : list byte) (hashalgo s2kmode : nat)
        (s2ksalt : list byte * nat) (s2kcount : Z) (keylen fuel : nat) :
  0 < gcry_md_get_algo_dlen hashalgo -> 0 < keylen -> keylen <= fuel ->
  (forall f pass used key,
      used < keylen ->
      0 < Nat.min (gcry_md_get_algo_dlen hashalgo) (keylen - used)
      /\ exists md,
          s2k_material passphrase s2kmode s2ksalt s2kcount (repeat NUL pass)
          = Ok md
          /\ hash_passphrase_loop (S f) passphrase hashalgo s2kmode s2ksalt
                                  s2kcount keylen pass used key
             = hash_passphrase_loop f passphrase hashalgo s2kmode s2ksalt
                 s2kcount keylen (S pass)
                 (used + Nat.min (gcry_md_get_algo_dlen hashalgo) (keylen - used))
                 (key ++ read_bytes (gcry_md_digest hashalgo md) 0
                           (Nat.min (gcry_md_get_algo_dlen hashalgo)
                                    (keylen - used))))
  /\ exists key,
      hash_passphrase_loop fuel passphrase hashalgo s2kmode s2ksalt s2kcount
                           keylen 0 0 []
      = Ok (passes_needed keylen (gcry_md_get_algo_dlen hashalgo), keylen, key)
      /\ length key = keylen
      /\ passes_needed keylen (gcry_md_get_algo_dlen hashalgo)
         * gcry_md_get_algo_dlen hashalgo < keylen + gcry_md_get_algo_dlen hashalgo
      /\ keylen <= passes_needed keylen (gcry_md_get_algo_dlen hashalgo)
                   * gcry_md_get_algo_dlen hashalgo.
Proof.
  intros Hd Hk Hf. split.
  - intros f pass used key Hu. split; [lia|].
    apply hash_passphrase_loop_step. exact Hu.
  - destruct (hash_passphrase_loop_runs passphrase hashalgo s2kmode s2ksalt
                s2kcount keylen fuel 0 0 [] Hd ltac:(lia) ltac:(lia))
      as (key & Hrun & Hlen).
    exists key. rewrite Nat.sub_0_r in *. cbn [Nat.add length] in *.
    split; [exact Hrun|]. split; [exact Hlen|].
    unfold passes_needed.
    set (d := gcry_md_get_algo_dlen hashalgo) in *.
    pose proof (Nat.div_mod_eq (keylen + d - 1) d) as E.
    pose proof (Nat.mod_upper_bound (keylen + d - 1) d ltac:(lia)) as B.
    split; nia.
Qed.

Lemma hash_passphrase_loop_terminates_aes_key :
  (forall f pass used key,
      used < 16 ->
      0 < Nat.min (gcry_md_get_algo_dlen (Gcrypt := toy_gcrypt) GCRY_MD_SHA1)
                  (16 - used)
      /\ exists md,
          s2k_material (lit "abc") 3 (lit "SSSSSSSS", 0) 96%Z (repeat NUL pass)
          = Ok md
          /\ hash_passphrase_loop (G := toy_gcrypt) (S f) (lit "abc") GCRY_MD_SHA1
                                  3 (lit "SSSSSSSS", 0) 96%Z 16 pass used key
             = hash_passphrase_loop (G := toy_gcrypt) f (lit "abc") GCRY_MD_SHA1
                 3 (lit "SSSSSSSS", 0) 96%Z 16 (S pass)
                 (used + Nat.min (gcry_md_get_algo_dlen (Gcrypt := toy_gcrypt)
                                                        GCRY_MD_SHA1) (16 - used))
                 (key ++ read_bytes
                           (gcry_md_digest (Gcrypt := toy_gcrypt) GCRY_MD_SHA1 md)
                           0
                           (Nat.min (gcry_md_get_algo_dlen (Gcrypt := toy_gcrypt)
                                                           GCRY_MD_SHA1)
                                    (16 - used))))
  /\ exists key,
      hash_passphrase_loop (G := toy_gcrypt) 16 (lit "abc") GCRY_MD_SHA1 3
                           (lit "SSSSSSSS", 0) 96%Z 16 0 0 []
      = Ok (passes_needed 16 (gcry_md_get_algo_dlen (Gcrypt := toy_gcrypt)
                                                    GCRY_MD_SHA1), 16, key)
      /\ length key = 16
      /\ passes_needed 16 (gcry_md_get_algo_dlen (Gcrypt := toy_gcrypt) GCRY_MD_SHA1)
         * gcry_md_get_algo_dlen (Gcrypt := toy_gcrypt) GCRY_MD_SHA1
         < 16 + gcry_md_get_algo_dlen (Gcrypt := toy_gcrypt) GCRY_MD_SHA1
      /\ 16 <= passes_needed 16 (gcry_md_get_algo_dlen (Gcrypt := toy_gcrypt)
                                                      GCRY_MD_SHA1)
               * gcry_md_get_algo_dlen (Gcrypt := toy_gcrypt) GCRY_MD_SHA1.
Proof.
  apply (hash_passphrase_loop_terminates (G := toy_gcrypt) (lit "abc")
           GCRY_MD_SHA1 3 (lit "SSSSSSSS", 0) 96%Z 16 16).
  - cbn. lia.
  - lia.
  - lia.
Defined.

(** ** What an error leaves in the caller's variables *)

(** C3, as far as it holds.  When [agent_unprotect] returns an error,
    the caller's result pointer and result length are as before the call.
    When [agent_protect] returns an error they are as before the call,
    except when the allocation of the result buffer itself fails: then
    the computed length and a null pointer have been stored and the error
    is [GNUPG_Out_Of_Core].  Likewise [agent_shadow_key] leaves the result
    pointer as it was, except that a failed allocation of the result
    buffer has stored a null pointer. *)
Theorem outputs_after_error
        {G : Gcrypt} (e : Env) (key passphrase shadow_info : list byte)
        (o o' : cptr * nat) (p p' : cptr) (rc : gnupg_error) :
  (agent_unprotect e key passphrase o = (Some rc, o') -> o' = o)
  /\ (agent_protect e key passphrase o = (Some rc, o') ->
      o' = o
      \/ (rc = GNUPG_Out_Of_Core
          /\ exists sc protected protectedlen,
              agent_protect_scan key = Ok sc
              /\ do_encryption e (key, prot_begin sc)
                               (prot_end sc - prot_begin sc + 1) passphrase
                               (protect_mic key sc)
                 = Ok (protected, protectedlen)
              /\ xtrymalloc_ok e (10 + prot_begin sc + protectedlen
                                  + (real_end sc - prot_end sc)) = false
              /\ o' = (NullPtr, 10 + prot_begin sc + protectedlen
                                + (real_end sc - prot_end sc))))
  /\ (agent_shadow_key e key shadow_info p = (Some rc, p') ->
      p' = p
      \/ (rc = GNUPG_Out_Of_Core /\ p' = NullPtr
          /\ exists point, agent_shadow_point key = Ok point)).
Proof.
  split; [|split].
  - unfold agent_unprotect.
    destruct (agent_unprotect_final e key passphrase); intro H;
      [discriminate|congruence].
  - unfold agent_protect.
    destruct (agent_protect_scan key) as [sc|]; [|intro H; left; congruence].
    destruct (do_encryption _ _ _ _ _) as [[protected protectedlen]|] eqn:E;
      [|intro H; left; congruence].
    destruct (xtrymalloc_ok e _) eqn:A; [discriminate|].
    intro H. right. split; [congruence|].
    exists sc, protected, protectedlen.
    split; [reflexivity|]. split; [exact E|]. split; [exact A|congruence].
  - unfold agent_shadow_key.
    destruct (_ || _); [intro H; left; congruence|].
    destruct (agent_shadow_point key) as [point|]; [|intro H; left; congruence].
    destruct (xtrymalloc_ok e _); [discriminate|].
    intro H. right. split; [congruence|]. split; [congruence|].
    exists point. reflexivity.
Qed.

Lemma outputs_after_error_examples :
  snd (agent_unprotect (G := toy_gcrypt) quiet_env short_salt_input (lit "abc")
                       (Ptr (lit "old"), 3))
  = (Ptr (lit "old"), 3)
  /\ (snd (agent_protect (G := toy_gcrypt) quiet_env (lit "(11:public-key)")
                         (lit "abc") (Ptr (lit "old"), 3))
      = (Ptr (lit "old"), 3)
      \/ exists sc protected protectedlen,
          agent_protect_scan (lit "(11:public-key)") = Ok sc
          /\ do_encryption (G := toy_gcrypt) quiet_env
                           (lit "(11:public-key)", prot_begin sc)
                           (prot_end sc - prot_begin sc + 1) (lit "abc")
                           (protect_mic (G := toy_gcrypt)
                                        (lit "(11:public-key)") sc)
             = Ok (protected, protectedlen)
          /\ xtrymalloc_ok quiet_env (10 + prot_begin sc + protectedlen
                                      + (real_end sc - prot_end sc)) = false
          /\ snd (agent_protect (G := toy_gcrypt) quiet_env
                                (lit "(11:public-key)") (lit "abc")
                                (Ptr (lit "old"), 3))
             = (NullPtr, 10 + prot_begin sc + protectedlen
                         + (real_end sc - prot_end sc)))
  /\ (snd (agent_shadow_key quiet_env (lit "(11:private-key)") shadow_info_S4
                            (Ptr (lit "old")))
      = Ptr (lit "old")
      \/ snd (agent_shadow_key quiet_env (lit "(11:private-key)") shadow_info_S4
                               (Ptr (lit "old")))
         = NullPtr).
Proof.
  split; [|split].
  - apply (outputs_after_error (G := toy_gcrypt) quiet_env short_salt_input
             (lit "abc") [] (Ptr (lit "old"), 3) _ NullPtr NullPtr
             GNUPG_Corrupted_Protection).
    vm_compute. reflexivity.
  - destruct (outputs_after_error (G := toy_gcrypt) quiet_env
                (lit "(11:public-key)") (lit "abc") []
                (Ptr (lit "old"), 3)
                (snd (agent_protect (G := toy_gcrypt) quiet_env
                                    (lit "(11:public-key)") (lit "abc")
                                    (Ptr (lit "old"), 3)))
                NullPtr NullPtr GNUPG_Unknown_Sexp) as (_ & B & _).
    destruct B as [B|(_ & sc & pr & prl & B1 & B2 & B3 & B4)].
    + vm_compute. reflexivity.
    + left. exact B.
    + right. exists sc, pr, prl. repeat split; assumption.
  - destruct (outputs_after_error (G := toy_gcrypt) quiet_env
                (lit "(11:private-key)") [] shadow_info_S4 no_out no_out
                (Ptr (lit "old"))
                (snd (agent_shadow_key quiet_env (lit "(11:private-key)")
                                       shadow_info_S4 (Ptr (lit "old"))))
                GNUPG_Unknown_Sexp) as (_ & _ & C).
    destruct C as [C|(_ & C & _)].
    + vm_compute. reflexivity.
    + left. exact C.
    + right. exact C.
Defined.

(** The statement of C3 fails when the allocation of the result buffer
    fails: [agent_protect] has then overwritten both variables of the
    caller, and [agent_shadow_key] the result pointer. *)
Lemma outputs_written_on_out_of_core :
  agent_protect (G := toy_gcrypt) (env_xtrymalloc_fails 216) key_S1 (lit "abc")
                (Ptr (lit "old"), 3)
  = (Some GNUPG_Out_Of_Core, (NullPtr, 216))
  /\ agent_shadow_key (env_xtrymalloc_fails 89) pubkey_S4 shadow_info_S4
                      (Ptr (lit "old"))
     = (Some GNUPG_Out_Of_Core, NullPtr).
Proof. split; vm_compute; reflexivity. Qed.

(** ** The quick check of do_decryption *)

(** [do_decryption] hands the decrypted bytes back as soon as the first
    of them is an open paren and their canonical length fits, whatever
    the second byte is. *)
Lemma do_decryption_first_paren_suffices
      {G : Gcrypt} (e : Env) (protected : list byte * nat) (protectedlen : nat)
      (passphrase : list byte) (s2ksalt : list byte * nat) (s2kcount : Z)
      (iv : list byte * nat) (ivlen : nat) (key : list byte) :
  env_ok e ->
  4 <= protectedlen -> protectedlen mod blklen = 0 ->
  hash_passphrase e passphrase GCRY_MD_SHA1 3 (Some s2ksalt) s2kcount
                  PROT_CIPHER_KEYLEN = Ok key ->
  let outbuf := gcry_cbc_decrypt (read_bytes key 0 PROT_CIPHER_KEYLEN)
                  (read_bytes (fst iv) (snd iv) ivlen)
                  (read_bytes (fst protected) (snd protected) protectedlen) in
  peek outbuf 0 = "(" ->
  gcry_sexp_canon_len outbuf protectedlen <> 0 ->
  protectedlen <= gcry_sexp_canon_len outbuf protectedlen + blklen ->
  do_decryption e protected protectedlen passphrase s2ksalt s2kcount iv ivlen
  = Ok outbuf.
Proof.
  intros (E1 & E2 & E3 & E4 & E5 & E6 & E7) H4 Hmod Hkey outbuf H0 Hc Hb.
  unfold do_decryption.
  replace (protectedlen <? 4) with false by (symmetry; apply Nat.ltb_ge; lia).
  rewrite Hmod. cbn [Nat.eqb negb orb].
  rewrite E1, !E6, E2, Hkey, E3, E4. cbn [of_rc bind].
  fold outbuf. rewrite H0, byte_eqb_refl. cbn [negb andb].
  replace (gcry_sexp_canon_len outbuf protectedlen =? 0) with false
    by (symmetry; apply Nat.eqb_neq; exact Hc).
  replace (gcry_sexp_canon_len outbuf protectedlen + blklen <? protectedlen)
    with false by (symmetry; apply Nat.ltb_ge; lia).
  reflexivity.
Qed.

(** C2 does not hold of the code.  The quick check of [do_decryption]
    rejects the decrypted bytes only if neither of the first two is an
    open paren.  For the key [quick_check_input], whose ciphertext
    decrypts to [(1:a)] and padding, [do_decryption] succeeds although
    the second byte is a digit, and [agent_unprotect] fails later, in
    [merge_lists], with [GNUPG_Invalid_Sexp] and not with
    [GNUPG_Bad_Passphrase]. *)
Theorem quick_check_accepts_one_open_paren :
  agent_unprotect_scan quick_check_input
  = Ok {| u_prot_begin := 47; u_s2ksalt := 97; u_s2kcount := 96%Z;
          u_iv := 113; u_protected := 133; u_protectedlen := 16 |}
  /\ do_decryption (G := toy_gcrypt) quiet_env (quick_check_input, 133) 16
                   (lit "abc") (quick_check_input, 97) 96%Z
                   (quick_check_input, 113) 16
     = Ok quick_check_plaintext
  /\ peek quick_check_plaintext 0 = "("
  /\ peek quick_check_plaintext 1 = "1"
  /\ merge_lists quiet_env quick_check_input 47 quick_check_plaintext
     = Err GNUPG_Invalid_Sexp
  /\ agent_unprotect (G := toy_gcrypt) quiet_env quick_check_input (lit "abc")
                     no_out
     = (Some GNUPG_Invalid_Sexp, no_out).
Proof. vm_compute. repeat split. Qed.

(** ** The validation of the protected list *)

Lemma length_atom (x : list byte) :
  length (atom x) = length (dec (length x)) + 1 + length x.
Proof.
  unfold atom. rewrite !length_app. change (length (lit ":")) with 1. lia.
Qed.

Lemma snext_atom (b : list byte) (p : nat) (x : list byte) :
  bytes_at b p (atom x) -> length x <> 0 ->
  snext b p = (length x, p + length (dec (length x)) + 1)
  /\ bytes_at b (p + length (dec (length x)) + 1) x.
Proof.
  intros H Hx. unfold atom in H.
  change (lit ":" ++ x) with ([":"] ++ x) in H.
  rewrite app_assoc in H. apply bytes_at_app in H. destruct H as [H1 H2].
  rewrite length_app in H2. cbn [length] in H2.
  split.
  - apply snext_dec; assumption.
  - rewrite Nat.add_assoc in H2. exact H2.
Qed.






Section ProtectedListWith.
Variables (b salt cnt iv ct : list byte) (p : nat).
Hypothesis Hat : bytes_at b p (protected_list_with salt cnt iv ct).



End ProtectedListWith.




(** ** Shadowed keys *)

Lemma shadow_loop_unfold (f : nat) (b : list byte) (s : nat) :
  shadow_loop (S f) b s
  = if negb (byte_eqb (peek b s) ")") then
      guard byte_eqb (peek b s) "(" orelse GNUPG_Invalid_Sexp ;;
      let '(n, a) := snext b (S s) in
      guard negb (n =? 0) orelse GNUPG_Invalid_Sexp ;;
      let '(n2, a2) := snext b (a + n) in
      guard negb (n2 =? 0) orelse GNUPG_Invalid_Sexp ;;
      guard byte_eqb (peek b (a2 + n2)) ")" orelse GNUPG_Invalid_Sexp ;;
      shadow_loop f b (S (a2 + n2))
    else Ok s.
Proof. reflexivity. Qed.

Lemma shadow_loop_stop (f : nat) (b : list byte) (s : nat) :
  peek b s = ")" -> shadow_loop f b s = Ok s.
Proof.
  intro H. destruct f; cbn [shadow_loop]; rewrite H; reflexivity.
Qed.

(** One turn of the loop of [agent_shadow_key]. *)
Lemma shadow_loop_step (f : nat) (b : list byte) (s point : nat) :
  shadow_loop f b s = Ok point -> peek b s <> ")" ->
  exists f' n a n2 a2,
    f = S f' /\ peek b s = "(" /\ snext b (S s) = (n, a) /\ n <> 0 /\
    snext b (a + n) = (n2, a2) /\ n2 <> 0 /\ peek b (a2 + n2) = ")" /\
    shadow_loop f' b (S (a2 + n2)) = Ok point.
Proof.
  intros H Hp. apply byte_eqb_neq in Hp.
  destruct f as [|f']; cbn [shadow_loop] in H; rewrite Hp in H; cbn [negb] in H;
    [discriminate|].
  destruct (byte_eqb (peek b s) "(") eqn:E0; [|discriminate].
  destruct (snext b (S s)) as [n a] eqn:E1.
  destruct (n =? 0) eqn:Z1; [discriminate|]. cbn [negb] in H.
  destruct (snext b (a + n)) as [n2 a2] eqn:E2.
  destruct (n2 =? 0) eqn:Z2; [discriminate|]. cbn [negb] in H.
  destruct (byte_eqb (peek b (a2 + n2)) ")") eqn:E3; [|discriminate].
  exists f', n, a, n2, a2.
  apply byte_eqb_eq in E0, E3. apply Nat.eqb_neq in Z1, Z2.
  repeat split; assumption.
Qed.

Lemma shadow_loop_le (f : nat) (b : list byte) (s point : nat) :
  shadow_loop f b s = Ok point -> s <= point.
Proof.
  revert s; induction f as [|f IH]; intros s H.
  - cbn [shadow_loop] in H. destruct (negb _); [discriminate|].
    injection H as <-. lia.
  - destruct (byte_eqb (peek b s) ")") eqn:E.
    + apply byte_eqb_eq in E. rewrite (shadow_loop_stop _ _ _ E) in H.
      injection H as <-. lia.
    + apply byte_eqb_neq in E.
      destruct (shadow_loop_step _ _ _ _ H E)
        as (f' & n & a & n2 & a2 & Ef & _ & E1 & N1 & E2 & N2 & _ & Hrec).
      injection Ef as <-. apply IH in Hrec.
      pose proof (snext_lt _ _ _ _ E1 N1). pose proof (snext_lt _ _ _ _ E2 N2).
      lia.
Qed.

(** [agent_get_shadow_info] walks over the parameters that
    [agent_shadow_key] has copied, as long as none is named [shadowed]. *)
Lemma find_shadowed_walk (R : result nat) (b b' : list byte) (point : nat)
      (f : nat) :
  forall s s' f',
    shadow_loop f b s = Ok point ->
    names_free f b s = true ->
    read_bytes b' s' (point - s) = read_bytes b s (point - s) ->
    (forall g, find_shadowed (S g) b' (s' + (point - s)) = R) ->
    point - s <= f' ->
    find_shadowed (S f') b' s' = R.
Proof.
  induction f as [|f IH]; intros s s' f' Hloop Hfree Hag Hend Hfuel.
  - cbn [shadow_loop] in Hloop. destruct (negb _); [discriminate|].
    injection Hloop as <-. rewrite Nat.sub_diag, Nat.add_0_r in Hend. apply Hend.
  - destruct (byte_eqb (peek b s) ")") eqn:E.
    + apply byte_eqb_eq in E. rewrite (shadow_loop_stop _ _ _ E) in Hloop.
      injection Hloop as <-. rewrite Nat.sub_diag, Nat.add_0_r in Hend. apply Hend.
    + apply byte_eqb_neq in E.
      destruct (shadow_loop_step _ _ _ _ Hloop E)
        as (f0 & n & a & n2 & a2 & Ef & P0 & E1 & N1 & E2 & N2 & P3 & Hrec).
      injection Ef as <-.
      pose proof (shadow_loop_le _ _ _ _ Hrec) as Hle.
      pose proof (snext_lt _ _ _ _ E1 N1) as L1.
      pose proof (snext_lt _ _ _ _ E2 N2) as L2.
      cbn [names_free] in Hfree. rewrite P0, byte_eqb_refl, E1, E2 in Hfree.
      apply andb_prop in Hfree. destruct Hfree as [Hname Hfree].
      apply negb_true_iff in Hname.
      (* the same bytes are under the cursor of the other walk *)
      assert (A : forall x m, s <= x -> x + m <= point ->
                  read_bytes b' (s' + (x - s)) m = read_bytes b x m).
      { intros x m Hx Hm. apply (agree_at b b' s s' (point - s)); (assumption || lia). }
      assert (P0' : peek b' s' = "(").
      { rewrite <- P0. apply (agree_peek0 b b' s s' (point - s)); (assumption || lia). }
      assert (E1' : snext b' (S s') = (n, s' + (a - s))).
      { pose proof (snext_transport b b' (S s) (s' + (S s - s)) n a E1 N1
                      (A (S s) (a - S s) ltac:(lia) ltac:(lia))) as T.
        replace (S s') with (s' + (S s - s)) by lia.
        rewrite T. f_equal. lia. }
      assert (M' : smatch b' (s' + (a - s)) n (lit "shadowed")
                   = (false, s' + (a - s))).
      { destruct (Nat.eq_dec n (length (lit "shadowed"))) as [En|Nn];
          [|apply smatch_length_neq; exact Nn].
        apply smatch_bytes_neq.
        rewrite (A a (length (lit "shadowed")) ltac:(lia) ltac:(rewrite <- En; lia)).
        intro Hb. rewrite (smatch_at_len b a n (lit "shadowed") En Hb) in Hname.
        discriminate. }
      assert (E2' : snext b' (s' + (a - s) + n) = (n2, s' + (a2 - s))).
      { pose proof (snext_transport b b' (a + n) (s' + (a + n - s)) n2 a2 E2 N2
                      (A (a + n) (a2 - (a + n)) ltac:(lia) ltac:(lia))) as T.
        replace (s' + (a - s) + n) with (s' + (a + n - s)) by lia.
        rewrite T. f_equal. lia. }
      assert (P3' : peek b' (s' + (a2 - s) + n2) = ")").
      { rewrite <- P3.
        replace (s' + (a2 - s) + n2) with (s' + (a2 + n2 - s)) by lia.
        replace (a2 + n2) with (s + (a2 + n2 - s)) at 2 by lia.
        apply (agree_peek b b' s s' (point - s)); (assumption || lia). }
      destruct f' as [|f'']; [lia|].
      change (find_shadowed (S (S f'')) b' s')
        with (guard negb (byte_eqb (peek b' s') ")") orelse GNUPG_Unknown_Sexp ;;
              guard byte_eqb (peek b' s') "(" orelse GNUPG_Invalid_Sexp ;;
              let '(n, s1) := snext b' (S s') in
              guard negb (n =? 0) orelse GNUPG_Invalid_Sexp ;;
              let '(m, s2) := smatch b' s1 n (lit "shadowed") in
              if m then Ok s2
              else
                let s3 := s2 + n in
                let '(n0, s4) := snext b' s3 in
                guard negb (n0 =? 0) orelse GNUPG_Invalid_Sexp ;;
                let s5 := s4 + n0 in
                guard byte_eqb (peek b' s5) ")" orelse GNUPG_Invalid_Sexp ;;
                find_shadowed (S f'') b' (S s5)).
      rewrite P0'. cbn [byte_eqb negb].
      change (byte_eqb "(" ")") with false. change (byte_eqb "(" "(") with true.
      cbn [negb]. rewrite E1', (neq_0_eqb _ N1). cbn [negb].
      rewrite M', E2', (neq_0_eqb _ N2). cbn [negb].
      rewrite P3', byte_eqb_refl.
      apply (IH (S (a2 + n2))); try assumption.
      * replace (S (s' + (a2 - s) + n2)) with (s' + (S (a2 + n2) - s)) by lia.
        apply A; lia.
      * intro g.
        replace (S (s' + (a2 - s) + n2) + (point - S (a2 + n2)))
          with (s' + (point - s)) by lia.
        apply Hend.
      * lia.
Qed.

Lemma agent_shadow_point_inv (pubkey : list byte) (point : nat) :
  agent_shadow_point pubkey = Ok point ->
  exists a0 n3 a3,
    peek pubkey 0 = "(" /\ snext pubkey 1 = (10, a0) /\
    bytes_at pubkey a0 (lit "public-key") /\ peek pubkey (a0 + 10) = "(" /\
    snext pubkey (S (a0 + 10)) = (n3, a3) /\ n3 <> 0 /\
    shadow_loop (S (length pubkey)) pubkey (a3 + n3) = Ok point.
Proof.
  unfold agent_shadow_point. intro H.
  destruct (byte_eqb (peek pubkey 0) "(") eqn:E0; [|discriminate].
  destruct (snext pubkey 1) as [n a0] eqn:E1.
  destruct (n =? 0) eqn:Z1; [discriminate|]. cbn [negb] in H.
  destruct (smatch pubkey a0 n (lit "public-key")) as [m s1] eqn:E2.
  destruct m; [|discriminate].
  destruct (smatch_true_inv _ _ _ _ _ E2) as (En & Hb & ->).
  change (length (lit "public-key")) with 10 in *. subst n.
  destruct (byte_eqb (peek pubkey (a0 + 10)) "(") eqn:E3; [|discriminate].
  destruct (snext pubkey (S (a0 + 10))) as [n3 a3] eqn:E4.
  destruct (n3 =? 0) eqn:Z3; [discriminate|]. cbn [negb] in H.
  exists a0, n3, a3. apply byte_eqb_eq in E0, E3. apply Nat.eqb_neq in Z3.
  repeat split; assumption.
Qed.

(** A buffer with a canonical length does not start its first atom with
    a zero. *)
Lemma canon_len_first_prefix (b : list byte) (n a : nat) :
  gcry_sexp_canon_len b 0 <> 0 -> snext b 1 = (n, a) -> n <> 0 ->
  peek b 0 = "(" /\ peek b 1 <> "0".
Proof.
  unfold gcry_sexp_canon_len. intros H E N.
  destruct (byte_eqb (peek b 0) "(") eqn:E0; [|contradiction].
  apply byte_eqb_eq in E0. split; [exact E0|].
  destruct b as [|c b']; [discriminate|]. cbn [length] in H.
  remember (canon_loop (S (S (length b'))) (c :: b') 0 0 0) as r eqn:Er.
  symmetry in Er. apply (canon_loop_open_inv _ _ _ _ _ E0) in Er.
  destruct (canon_loop_atom_inv _ _ _ _ _ _ _ E N Er H) as [Hz _]. exact Hz.
Qed.

(** C6, as far as it holds.  Let [agent_shadow_key] succeed on the
    public key [PUB] and the canonical shadow information [SI], and let
    no parameter of [PUB] be named [shadowed].  Then
    [agent_get_shadow_info] succeeds on the buffer returned and the
    bytes from the offset it returns are those of [SI]. *)
Theorem agent_get_shadow_info_of_shadow_key
        (e : Env) (PUB SI : list byte) (o : cptr) (block : list byte) :
  agent_shadow_key e PUB SI o = (None, Ptr block) ->
  gcry_sexp_canon_len SI 0 = length SI ->
  shadowed_free PUB = true ->
  exists pos,
    agent_get_shadow_info block = Ok pos
    /\ read_bytes block pos (length SI) = SI.
Proof.
  intros Hsh HSI Hfree. unfold agent_shadow_key in Hsh.
  destruct (gcry_sexp_canon_len PUB 0 =? 0) eqn:ZP; [discriminate|].
  destruct (gcry_sexp_canon_len SI 0 =? 0) eqn:ZS; [discriminate|].
  cbn [orb] in Hsh. apply Nat.eqb_neq in ZP, ZS.
  destruct (agent_shadow_point PUB) as [point|] eqn:Hpoint; [|discriminate].
  destruct (xtrymalloc_ok e _); [|discriminate].
  destruct (agent_shadow_point_inv _ _ Hpoint)
    as (a0 & n3 & a3 & P0 & E1 & Hname & P2 & E3 & N3 & Hloop).
  destruct (canon_len_first_prefix PUB 10 a0 ZP E1 ltac:(discriminate)) as [_ Hz].
  destruct (snext_two_digits PUB 1 10 a0 E1 ltac:(lia) Hz) as [-> _].
  change (1 + 3 + 10) with 14 in *. change (1 + 3) with 4 in *.
  pose proof (shadow_loop_le _ _ _ _ Hloop) as Hle.
  pose proof (snext_lt _ _ _ _ E3 N3) as L3.
  (* the first byte of the shadow information *)
  assert (S0 : peek SI 0 = "(").
  { revert ZS. unfold gcry_sexp_canon_len.
    destruct (byte_eqb (peek SI 0) "(") eqn:E; [|contradiction].
    intros _. now apply byte_eqb_eq. }
  rewrite HSI in *.
  (* the bytes written to the block *)
  set (W := ((((lit "(20:shadowed-private-key"
               ++ read_bytes PUB 14 (point - (0 + 14)))
              ++ lit "(8:shadowed5:t1-v1")
             ++ read_bytes SI 0 (length SI)) ++ [")"])
            ++ read_bytes PUB point (gcry_sexp_canon_len PUB 0 - (point - 0)))
    in Hsh.
  match type of Hsh with
  | (None, Ptr ?x) = _ => assert (Eb : block = x) by congruence
  end.
  clear Hsh.
  assert (HW : W = lit "(20:shadowed-private-key"
                   ++ read_bytes PUB 14 (point - 14)
                   ++ lit "(8:shadowed5:t1-v1"
                   ++ SI ++ [")"]
                   ++ read_bytes PUB point (gcry_sexp_canon_len PUB 0 - (point - 0))).
  { unfold W. rewrite read_bytes_all. rewrite <- !app_assoc. reflexivity. }
  assert (Hblock : bytes_at block 0 W).
  { rewrite Eb. apply heap_block_prefix. }
  assert (Hlen : length W <= length block).
  { rewrite Eb. apply heap_block_length. }
  rewrite HW in Hblock, Hlen. clear HW W Eb.
  apply bytes_at_app in Hblock as [B1 Hblock].
  apply bytes_at_app in Hblock as [B2 Hblock].
  apply bytes_at_app in Hblock as [B3 Hblock].
  apply bytes_at_app in Hblock as [B4 _].
  rewrite !length_app in Hlen. rewrite !length_read_bytes in *.
  change (length (lit "(20:shadowed-private-key")) with 24 in *.
  change (length (lit "(8:shadowed5:t1-v1")) with 18 in *.
  change (0 + 24) with 24 in *.
  replace (24 + (point - 14)) with (point + 10) in * by lia.
  unfold bytes_at in B2. rewrite length_read_bytes in B2.
  (* the head of the block *)
  change (lit "(20:shadowed-private-key")
    with (lit "(" ++ (dec 20 ++ [":"]) ++ lit "shadowed-private-key") in B1.
  apply bytes_at_app in B1 as [H0 B1]. apply bytes_at_app in B1 as [H1 H2].
  cbn [length lit Nat.add] in H1, H2.
  (* the list that was inserted *)
  change (lit "(8:shadowed5:t1-v1")
    with (lit "(" ++ (dec 8 ++ [":"]) ++ lit "shadowed"
          ++ (dec 5 ++ [":"]) ++ lit "t1-v1") in B3.
  apply bytes_at_app in B3 as [I0 B3]. apply bytes_at_app in B3 as [I1 B3].
  apply bytes_at_app in B3 as [I2 B3]. apply bytes_at_app in B3 as [I3 I4].
  change (length (lit "(")) with 1 in *.
  change (length (dec 8 ++ [":"])) with 2 in *.
  change (length (lit "shadowed")) with 8 in *.
  change (length (dec 5 ++ [":"])) with 2 in *.
  (* what the search finds *)
  assert (Hfind : find_shadowed (S (length block)) block (a3 + n3 + 10)
                  = Ok (point + 21)).
  { apply (find_shadowed_walk (Ok (point + 21)) PUB block point
             (S (length PUB)) (a3 + n3) (a3 + n3 + 10) (length block) Hloop).
    - revert Hfree. unfold shadowed_free. rewrite E1.
      change (4 + 10) with 14. now rewrite E3.
    - pose proof (agree_at PUB block 14 24 (point - 14) (a3 + n3)
                    (point - (a3 + n3)) B2 ltac:(lia) ltac:(lia)) as A.
      replace (24 + (a3 + n3 - 14)) with (a3 + n3 + 10) in A by lia. exact A.
    - intro g. replace (a3 + n3 + 10 + (point - (a3 + n3))) with (point + 10) by lia.
      cbn [find_shadowed].
      rewrite (bytes_at_peek1 _ _ _ I0).
      change (byte_eqb "(" ")") with false. change (byte_eqb "(" "(") with true.
      cbn [negb].
      rewrite (snext_at block 8 (S (point + 10)) (point + 13))
        by (discriminate || (cbn; lia)
            || (replace (S (point + 10)) with (point + 10 + 1) by lia; exact I1)).
      cbn [Nat.eqb negb].
      rewrite (smatch_at_pos block 8 (point + 13) (point + 21) (lit "shadowed"))
        by (reflexivity || lia
            || (replace (point + 13) with (point + 10 + 1 + 2) by lia; exact I2)).
      reflexivity.
    - lia. }
  exists (point + 28). split.
  - unfold agent_get_shadow_info.
    rewrite (bytes_at_peek1 _ _ _ H0), byte_eqb_refl.
    rewrite (snext_at block 20 1 4) by (assumption || discriminate || reflexivity).
    cbn [Nat.eqb negb].
    rewrite (smatch_at_pos block 20 4 24 (lit "shadowed-private-key"))
      by (assumption || reflexivity).
    assert (P24 : peek block 24 = "(").
    { rewrite <- P2. apply (agree_peek0 PUB block 14 24 (point - 14) B2). lia. }
    rewrite P24, byte_eqb_refl.
    assert (E25 : snext block 25 = (n3, a3 + 10)).
    { pose proof (snext_transport PUB block 15 25 n3 a3 E3 N3) as T.
      rewrite T.
      - f_equal. lia.
      - pose proof (agree_at PUB block 14 24 (point - 14) 15 (a3 - 15) B2
                      ltac:(lia) ltac:(lia)) as A.
        exact A. }
    rewrite E25, (neq_0_eqb _ N3). cbn [negb].
    replace (a3 + 10 + n3) with (a3 + n3 + 10) by lia.
    rewrite Hfind. cbn [bind].
    rewrite (snext_at block 5 (point + 21) (point + 23))
      by (discriminate || (cbn; lia)
          || (replace (point + 21) with (point + 10 + 1 + 2 + 8) by lia; exact I3)).
    cbn [Nat.eqb negb].
    rewrite (smatch_at_pos block 5 (point + 23) (point + 28) (lit "t1-v1"))
      by (reflexivity || lia
          || (replace (point + 23) with (point + 10 + 1 + 2 + 8 + 2) by lia;
              exact I4)).
    assert (P28 : peek block (point + 28) = "(").
    { rewrite <- S0.
      pose proof (bytes_at_peek block (point + 10 + 18) SI 0 B4) as Q.
      rewrite Nat.add_0_r in Q. replace (point + 28) with (point + 10 + 18) by lia.
      apply Q. destruct SI; [discriminate S0|cbn; lia]. }
    rewrite P28, byte_eqb_refl. reflexivity.
  - replace (point + 28) with (point + 10 + 18) by lia. exact B4.
Qed.

Lemma agent_get_shadow_info_of_shadow_key_S4 :
  exists pos,
    agent_get_shadow_info
      (match snd (agent_shadow_key quiet_env pubkey_S4 shadow_info_S4 NullPtr)
       with Ptr block => block | NullPtr => [] end)
    = Ok pos
    /\ read_bytes
         (match snd (agent_shadow_key quiet_env pubkey_S4 shadow_info_S4 NullPtr)
          with Ptr block => block | NullPtr => [] end)
         pos (length shadow_info_S4)
       = shadow_info_S4.
Proof.
  apply (agent_get_shadow_info_of_shadow_key quiet_env pubkey_S4 shadow_info_S4
           NullPtr).
  - vm_compute. reflexivity.
  - vm_compute. reflexivity.
  - vm_compute. reflexivity.
Defined.

(** The statement of C6 fails for a canonical public key with a
    parameter named [shadowed]: [agent_get_shadow_info] stops at that
    parameter of the key and fails with [GNUPG_Unsupported_Protocol]. *)
Lemma agent_get_shadow_info_finds_parameter :
  gcry_sexp_canon_len pubkey_shadowed_param 0 = length pubkey_shadowed_param
  /\ gcry_sexp_canon_len shadow_info_S4 0 = length shadow_info_S4
  /\ exists block,
      agent_shadow_key quiet_env pubkey_shadowed_param shadow_info_S4 NullPtr
      = (None, Ptr block)
      /\ agent_get_shadow_info block = Err GNUPG_Unsupported_Protocol.
Proof.
  split; [vm_compute; reflexivity|]. split; [vm_compute; reflexivity|].
  eexists. split; vm_compute; reflexivity.
Qed.

(** * Further properties of the code *)

(** ** The loops of the parser come to an end *)

Lemma peek_char_lt (b : list byte) (s : nat) (c : byte) :
  peek b s = c -> c <> NUL -> s < length b.
Proof. intros <- H. now apply peek_in_bounds. Qed.

Lemma snext_in_buffer (b : list byte) (s n a : nat) :
  snext b s = (n, a) -> n <> 0 -> s < a /\ a <= length b.
Proof.
  intros H Hn. pose proof (snext_lt _ _ _ _ H Hn) as L.
  pose proof (snext_colon _ _ _ _ H Hn) as C.
  apply peek_char_lt in C; [|discriminate]. lia.
Qed.

Lemma sskip_loop_returns (f : nat) (b : list byte) :
  forall s d, length b - s < f -> returns (sskip_loop f b s d).
Proof.
  unfold returns.
  induction f as [|f IH]; intros s d Hf; [lia|].
  rewrite sskip_loop_unfold. destruct (d =? 0); [discriminate|].
  destruct (byte_eqb (peek b s) "(") eqn:E1.
  { apply byte_eqb_eq in E1. apply peek_char_lt in E1; [|discriminate].
    apply IH. lia. }
  destruct (byte_eqb (peek b s) ")") eqn:E2.
  { apply byte_eqb_eq in E2. apply peek_char_lt in E2; [|discriminate].
    apply IH. lia. }
  destruct (snext b s) as [n a] eqn:E3.
  destruct (n =? 0) eqn:Z; [discriminate|]. apply Nat.eqb_neq in Z.
  destruct (snext_in_buffer _ _ _ _ E3 Z). apply IH. lia.
Qed.

Lemma sskip_returns (b : list byte) (s d : nat) : returns (sskip b s d).
Proof. apply sskip_loop_returns. lia. Qed.


Lemma shadow_loop_returns (f : nat) (b : list byte) :
  forall s, length b - s < f -> returns (shadow_loop f b s).
Proof.
  unfold returns.
  induction f as [|f IH]; intros s Hf; [lia|].
  rewrite shadow_loop_unfold. cbv zeta.
  destruct (negb (byte_eqb (peek b s) ")")); [|discriminate].
  destruct (byte_eqb (peek b s) "(") eqn:E1; [|discriminate].
  apply byte_eqb_eq in E1. apply peek_char_lt in E1; [|discriminate].
  destruct (snext b (S s)) as [n a] eqn:E2.
  destruct (n =? 0) eqn:Z; [cbn [negb]; discriminate|]. apply Nat.eqb_neq in Z. cbn [negb].
  destruct (snext_in_buffer _ _ _ _ E2 Z).
  destruct (snext b (a + n)) as [n2 a2] eqn:E3.
  destruct (n2 =? 0) eqn:Z2; [cbn [negb]; discriminate|]. apply Nat.eqb_neq in Z2. cbn [negb].
  destruct (snext_in_buffer _ _ _ _ E3 Z2).
  destruct (byte_eqb (peek b (a2 + n2)) ")"); [|discriminate].
  apply IH. lia.
Qed.



(** The error codes the loops can end with. *)
Ltac split_tests :=
  cbv zeta;
  repeat match goal with
         | |- context [match ?x with (_, _) => _ end] => destruct x
         | |- context [if ?c then _ else _] => destruct c
         end.

Ltac error_leaf IH :=
  let H := fresh "H" in
  intro H;
  first [ discriminate H
        | injection H as <-; auto
        | apply IH in H; exact H ].

Lemma sskip_loop_error (f : nat) (b : list byte) :
  forall s d rc,
    sskip_loop f b s d = Err rc -> rc = GNUPG_Invalid_Sexp \/ rc = No_Return.
Proof.
  induction f as [|f IH]; intros s d rc.
  - cbn [sskip_loop]. destruct (d =? 0); intro H; [discriminate|].
    injection H as <-. auto.
  - rewrite sskip_loop_unfold. split_tests; error_leaf IH.
Qed.


Lemma shadow_loop_error (f : nat) (b : list byte) :
  forall s rc,
    shadow_loop f b s = Err rc -> rc = GNUPG_Invalid_Sexp \/ rc = No_Return.
Proof.
  induction f as [|f IH]; intros s rc.
  - cbn [shadow_loop]. destruct (negb _); intro H; [|discriminate].
    injection H as <-. auto.
  - rewrite shadow_loop_unfold. split_tests; error_leaf IH.
Qed.



Lemma protect_parms_error (parms : list byte) (info : protect_info_t)
      (b : list byte) :
  forall i s pb pe rc,
    protect_parms parms i info b s pb pe = Err rc -> rc = GNUPG_Invalid_Sexp.
Proof.
  induction parms as [|c parms IH]; intros i s pb pe rc.
  - cbn [protect_parms]. discriminate.
  - cbn [protect_parms]. split_tests; error_leaf IH.
Qed.

Lemma sskip_error (b : list byte) (s d : nat) (rc : gnupg_error) :
  sskip b s d = Err rc -> rc = GNUPG_Invalid_Sexp.
Proof.
  intro E. pose proof (sskip_returns b s d) as R. unfold returns in R.
  unfold sskip in E.
  destruct (sskip_loop_error _ _ _ _ _ E) as [->| ->]; [reflexivity|].
  unfold sskip in R. now rewrite E in R.
Qed.






(** ** What agent_protect reads *)

Lemma agent_protect_scan_error (K : list byte) (rc : gnupg_error) :
  agent_protect_scan K = Err rc ->
  rc = GNUPG_Invalid_Sexp \/ rc = GNUPG_Unknown_Sexp
  \/ rc = GNUPG_Unsupported_Algorithm.
Proof.
  unfold agent_protect_scan.
  destruct (byte_eqb (peek K 0) "("); [|intro H; injection H as <-; auto].
  destruct (snext K 1) as [n a0].
  destruct (negb (n =? 0)); [|intro H; injection H as <-; auto].
  destruct (smatch K a0 n (lit "private-key")) as [m s2].
  destruct m; [|intro H; injection H as <-; auto].
  destruct (byte_eqb (peek K s2) "("); [|intro H; injection H as <-; auto].
  destruct (snext K (S s2)) as [n3 a3].
  destruct (negb (n3 =? 0)); [|intro H; injection H as <-; auto].
  destruct (find_algo protect_info K a3 n3) as [[info s5]|];
    [|intro H; injection H as <-; auto].
  destruct (protect_parms _ _ _ _ _ _ _) as [[[s6 pb] pe]|rc'] eqn:E; cbn [bind].
  - destruct (byte_eqb (peek K s6) ")"); [|intro H; injection H as <-; auto].
    destruct pb as [pb|]; [|intro H; injection H as <-; auto].
    destruct pe as [pe|]; [|intro H; injection H as <-; auto].
    destruct (sskip K (S s6) (2 - 1)) as [[s8 d]|rc''] eqn:E8; cbn [bind];
      [discriminate|].
    intro H. injection H as <-.
    rewrite (sskip_error _ _ _ _ E8). auto.
  - intro H. injection H as <-. apply protect_parms_error in E. auto.
Qed.

(** X3.  When the scan of [agent_protect] accepts a key, the offsets it
    has found are ordered and lie inside the key: the hashed span and the
    three spans [agent_protect] copies are parts of the input buffer, the
    byte at [real_end] is a close paren, and at least the four bytes
    overwritten by the new head precede [prot_begin].  When the scan
    fails, it fails with [GNUPG_Invalid_Sexp], [GNUPG_Unknown_Sexp] or
    [GNUPG_Unsupported_Algorithm]. *)
Theorem agent_protect_scan_bounds (K : list byte) :
  (exists sc,
      agent_protect_scan K = Ok sc
      /\ 4 <= hash_begin sc /\ hash_begin sc < prot_begin sc
      /\ prot_begin sc < prot_end sc
      /\ hash_end sc = prot_end sc + 1
      /\ hash_end sc <= real_end sc /\ real_end sc < length K
      /\ peek K (hash_begin sc) = "(" /\ peek K (prot_begin sc) = "("
      /\ peek K (prot_end sc) = ")" /\ peek K (hash_end sc) = ")"
      /\ peek K (real_end sc) = ")")
  \/ agent_protect_scan K = Err GNUPG_Invalid_Sexp
  \/ agent_protect_scan K = Err GNUPG_Unknown_Sexp
  \/ agent_protect_scan K = Err GNUPG_Unsupported_Algorithm.
Proof.
  destruct (agent_protect_scan K) as [sc|rc] eqn:E.
  - left. exists sc. split; [reflexivity|].
    destruct (agent_protect_scan_inv _ _ E) as (a0 & a3 & e & L).
    pose proof (key_layout_sizes _ _ _ _ _ _ L) as (S1 & S2 & S3 & S4 & S5 & S6).
    pose proof (kl_hash_begin _ _ _ _ _ _ L) as Hb.
    pose proof (kl_hash_end _ _ _ _ _ _ L) as He.
    pose proof (kl_real_end _ _ _ _ _ _ L) as Hr.
    pose proof (kl_rest _ _ _ _ _ _ L) as Hrest.
    destruct (sskip_loop_last _ _ _ _ _ _ Hrest ltac:(lia)) as (R1 & R2 & R3).
    pose proof (kl_secret _ _ _ _ _ _ L) as Hsec.
    destruct Hsec as (m & (a1 & n2 & a2 & Q0 & _) & _).
    assert (Pe : peek K (prot_end sc) = ")").
    { pose proof (kl_close _ _ _ _ _ _ L) as C.
      pose proof (key_layout_params _ _ _ _ _ _ L) as Hall.
      clear - L. pose proof (kl_secret _ _ _ _ _ _ L) as Hsec.
      cbn [param_chain lit list_ascii_of_string] in Hsec.
      destruct Hsec as (m1 & _ & m2 & _ & m3 & _ & m4 & Hu & Hend).
      destruct Hu as (a1 & n2 & a2 & _ & _ & _ & _ & _ & Hp & Hm & _).
      subst m4. injection Hend as <-. exact Hp. }
    rewrite Hb, He, Hr.
    repeat split; try lia; try assumption.
    + rewrite <- Hb. rewrite Hb. apply (kl_open2 _ _ _ _ _ _ L).
    + rewrite <- He. apply (kl_close _ _ _ _ _ _ L).
  - right. destruct (agent_protect_scan_error _ _ E) as [->|[->| ->]]; auto.
Qed.

(** ** The arguments and the result of hash_passphrase *)

Lemma hash_passphrase_loop_key {G : Gcrypt} (passphrase : list byte)
      (hashalgo s2kmode : nat) (s2ksalt : list byte * nat) (s2kcount : Z)
      (keylen : nat) :
  0 < gcry_md_get_algo_dlen hashalgo ->
  exists key,
    hash_passphrase_loop keylen passphrase hashalgo s2kmode s2ksalt s2kcount
                         keylen 0 0 []
    = Ok (passes_needed keylen (gcry_md_get_algo_dlen hashalgo), keylen, key)
    /\ length key = keylen.
Proof.
  intro Hd.
  destruct (hash_passphrase_loop_runs passphrase hashalgo s2kmode s2ksalt
              s2kcount keylen keylen 0 0 [] Hd ltac:(lia) ltac:(lia))
    as (key & Hrun & Hlen).
  exists key. rewrite Nat.sub_0_r in *. cbn [Nat.add length] in *. auto.
Qed.

(** X4.  With a digest of positive length, [hash_passphrase] returns a
    key, which then has exactly [keylen] bytes, if and only if the mode is
    0, 1 or 3, the hash algorithm and the key length are not zero, a salt
    is given unless the mode is 0, and the digest context can be opened. *)
Theorem hash_passphrase_succeeds_iff
        {G : Gcrypt} (e : Env) (passphrase : list byte) (hashalgo s2kmode : nat)
        (s2ksalt : option (list byte * nat)) (s2kcount : Z) (keylen : nat) :
  0 < gcry_md_get_algo_dlen hashalgo ->
  (exists key,
      hash_passphrase e passphrase hashalgo s2kmode s2ksalt s2kcount keylen
      = Ok key /\ length key = keylen)
  <-> ((s2kmode = 0 \/ s2kmode = 1 \/ s2kmode = 3)
       /\ hashalgo <> 0 /\ keylen <> 0
       /\ (s2kmode = 0 \/ s2ksalt <> None)
       /\ gcry_md_open_rc e = None).
Proof.
  intro Hd. unfold hash_passphrase. split.
  - intros (key & H & _).
    destruct (negb _) eqn:Hg in H; [|discriminate H].
    apply negb_true_iff in Hg. apply orb_false_iff in Hg as [Hg K0].
    apply orb_false_iff in Hg as [Hg A0]. apply Nat.eqb_neq in A0, K0.
    assert (Hmode : s2kmode = 0 \/ s2kmode = 1 \/ s2kmode = 3).
    { destruct (s2kmode =? 0) eqn:M0; [apply Nat.eqb_eq in M0; auto|].
      destruct (s2kmode =? 1) eqn:M1; [apply Nat.eqb_eq in M1; auto|].
      destruct (s2kmode =? 3) eqn:M3; [apply Nat.eqb_eq in M3; auto|].
      discriminate Hg. }
    split; [exact Hmode|]. split; [exact A0|]. split; [exact K0|].
    destruct s2ksalt as [salt|].
    + split; [right; discriminate|].
      destruct (gcry_md_open_rc e); [discriminate H|reflexivity].
    + destruct (negb _) eqn:Hs in H; [|discriminate H].
      apply negb_true_iff in Hs. apply orb_false_iff in Hs as [M1 M3].
      apply Nat.eqb_neq in M1, M3.
      split; [left; destruct Hmode as [?|[?|?]]; (assumption || contradiction)|].
      destruct (gcry_md_open_rc e); [discriminate H|reflexivity].
  - intros (Hm & Ha & Hk & Hs & Ho).
    apply Nat.eqb_neq in Ha, Hk. rewrite Ha, Hk, Ho.
    assert (Hmode : negb (s2kmode =? 0) && negb (s2kmode =? 1)
                    && negb (s2kmode =? 3) = false).
    { destruct Hm as [->|[->| ->]]; reflexivity. }
    rewrite Hmode. cbn [negb orb of_rc bind].
    destruct s2ksalt as [salt|].
    + destruct (hash_passphrase_loop_key passphrase hashalgo s2kmode salt
                  s2kcount keylen Hd) as (key & -> & Hl).
      exists key. auto.
    + destruct Hs as [->|Hs]; [|contradiction]. cbn [Nat.eqb orb negb].
      destruct (hash_passphrase_loop_key passphrase hashalgo 0 ([], 0)
                  s2kcount keylen Hd) as (key & -> & Hl).
      exists key. auto.
Qed.

Lemma hash_passphrase_succeeds_iff_aes :
  (exists key,
      hash_passphrase (G := toy_gcrypt) quiet_env (lit "abc") GCRY_MD_SHA1 3
                      (Some (lit "SSSSSSSS", 0)) 96%Z PROT_CIPHER_KEYLEN
      = Ok key /\ length key = PROT_CIPHER_KEYLEN)
  <-> ((3 = 0 \/ 3 = 1 \/ 3 = 3)
       /\ GCRY_MD_SHA1 <> 0 /\ PROT_CIPHER_KEYLEN <> 0
       /\ (3 = 0 \/ Some (lit "SSSSSSSS", 0) <> None)
       /\ gcry_md_open_rc quiet_env = None).
Proof.
  apply (hash_passphrase_succeeds_iff (G := toy_gcrypt) quiet_env (lit "abc")
           GCRY_MD_SHA1 3 (Some (lit "SSSSSSSS", 0)) 96%Z PROT_CIPHER_KEYLEN).
  cbn. lia.
Defined.

(** X5.  What a pass writes to the digest context in the modes 0 and 1:
    in mode 0 the passphrase, in mode 1 the eight salt bytes followed by
    the passphrase, in both cases once and whatever the count is. *)
Theorem s2k_material_simple_and_salted
        (passphrase : list byte) (s2ksalt : list byte * nat) (s2kcount : Z)
        (md : list byte) :
  s2k_material passphrase 0 s2ksalt s2kcount md
  = Ok (md ++ read_bytes passphrase 0 (strlen passphrase))
  /\ s2k_material passphrase 1 s2ksalt s2kcount md
     = Ok (md ++ read_bytes (fst s2ksalt) (snd s2ksalt) 8
              ++ read_bytes passphrase 0 (strlen passphrase)).
Proof.
  split; [reflexivity|].
  unfold s2k_material. cbn [Nat.eqb orb].
  set (len2 := (Z.of_nat (strlen passphrase) + 8)%Z).
  assert (H8 : (8 <= len2)%Z) by (unfold len2; lia).
  assert (E : s2k_feed (Z.to_nat len2) s2ksalt passphrase (strlen passphrase)
                       len2 len2 = Ok ([], len2)).
  { destruct (Z.to_nat len2); cbn [s2k_feed]; now rewrite Z.ltb_irrefl. }
  rewrite E. cbn [bind].
  replace (len2 <? 8)%Z with false by (symmetry; apply Z.ltb_ge; exact H8).
  cbn [app]. repeat f_equal. unfold len2. lia.
Qed.

(** X6.  A key no longer than the digest is the head of the digest of
    the first pass: for [0 < keylen <= digest length], a valid mode and
    hash algorithm, a salt and a digest context that can be opened,
    [hash_passphrase] returns the first [keylen] bytes of the digest of
    the bytes written in pass 0. *)
Theorem hash_passphrase_short_key
        {G : Gcrypt} (e : Env) (passphrase : list byte) (hashalgo s2kmode : nat)
        (s2ksalt : list byte * nat) (s2kcount : Z) (keylen : nat) :
  0 < keylen <= gcry_md_get_algo_dlen hashalgo ->
  s2kmode = 0 \/ s2kmode = 1 \/ s2kmode = 3 ->
  hashalgo <> 0 ->
  gcry_md_open_rc e = None ->
  exists md,
    s2k_material passphrase s2kmode s2ksalt s2kcount [] = Ok md
    /\ hash_passphrase e passphrase hashalgo s2kmode (Some s2ksalt) s2kcount
                       keylen
       = Ok (read_bytes (gcry_md_digest hashalgo md) 0 keylen).
Proof.
  intros [Hk Hd] Hm Ha Ho.
  destruct keylen as [|k]; [lia|].
  destruct (hash_passphrase_loop_step passphrase hashalgo s2kmode s2ksalt
              s2kcount (S k) k 0 0 [] ltac:(lia)) as (md & Hmd & Hstep).
  exists md. split; [exact Hmd|].
  unfold hash_passphrase. apply Nat.eqb_neq in Ha. rewrite Ha, Ho.
  assert (Hmode : negb (s2kmode =? 0) && negb (s2kmode =? 1)
                  && negb (s2kmode =? 3) = false).
  { destruct Hm as [->|[->| ->]]; reflexivity. }
  rewrite Hmode. cbn [Nat.eqb negb orb of_rc bind].
  rewrite Hstep. rewrite Nat.sub_0_r, Nat.min_r by lia. cbn [Nat.add app].
  destruct k; cbn [hash_passphrase_loop]; rewrite Nat.ltb_irrefl; reflexivity.
Qed.

Lemma hash_passphrase_short_key_aes :
  exists md,
    s2k_material (lit "abc") 3 (lit "SSSSSSSS", 0) 96%Z [] = Ok md
    /\ hash_passphrase (G := toy_gcrypt) quiet_env (lit "abc") GCRY_MD_SHA1 3
                       (Some (lit "SSSSSSSS", 0)) 96%Z PROT_CIPHER_KEYLEN
       = Ok (read_bytes (gcry_md_digest (Gcrypt := toy_gcrypt) GCRY_MD_SHA1 md)
                        0 PROT_CIPHER_KEYLEN).
Proof.
  apply (hash_passphrase_short_key (G := toy_gcrypt) quiet_env (lit "abc")
           GCRY_MD_SHA1 3 (lit "SSSSSSSS", 0) 96%Z PROT_CIPHER_KEYLEN).
  - cbn. lia.
  - right. right. reflexivity.
  - discriminate.
  - reflexivity.
Defined.

(** ** Every operation accepts keys of its own kind only *)

Lemma agent_private_key_type_atom (b : list byte) (n a : nat) :
  peek b 0 = "(" -> snext b 1 = (n, a) -> n <> 0 ->
  (bytes_at b a (lit "private-key") -> n = 11 ->
   agent_private_key_type b = PRIVATE_KEY_CLEAR)
  /\ (bytes_at b a (lit "protected-private-key") -> n = 21 ->
      agent_private_key_type b = PRIVATE_KEY_PROTECTED)
  /\ (bytes_at b a (lit "shadowed-private-key") -> n = 20 ->
      agent_private_key_type b = PRIVATE_KEY_SHADOWED).
Proof.
  intros H0 H1 Hn. unfold agent_private_key_type.
  rewrite H0, byte_eqb_refl, H1, (neq_0_eqb _ Hn). cbn [negb].
  split; [|split]; intros Hb ->.
  - rewrite (smatch_length_neq b a 11 (lit "protected-private-key"))
      by discriminate.
    rewrite (smatch_length_neq b a 11 (lit "shadowed-private-key"))
      by discriminate.
    rewrite (smatch_at_len b a 11 (lit "private-key") eq_refl Hb). reflexivity.
  - rewrite (smatch_at_len b a 21 (lit "protected-private-key") eq_refl Hb).
    reflexivity.
  - rewrite (smatch_length_neq b a 20 (lit "protected-private-key"))
      by discriminate.
    rewrite (smatch_at_len b a 20 (lit "shadowed-private-key") eq_refl Hb).
    reflexivity.
Qed.

Lemma snext_two_bytes (b : list byte) (s n a : nat) :
  snext b s = (n, a) -> n <> 0 -> s + 2 <= a.
Proof.
  intros H Hn.
  destruct (snext_inv _ _ _ _ H Hn) as (e & _ & -> & Hle & Hc).
  pose proof (snext_first_digit _ _ _ _ H Hn) as Hd.
  destruct (Nat.eq_dec e s) as [->|]; [|lia].
  rewrite Hc in Hd. discriminate.
Qed.

Lemma find_protected_inv (f : nat) (b : list byte) :
  forall s pb s',
    find_protected f b s = Ok (pb, s') ->
    s <= pb /\ peek b pb = "(" /\ pb + 12 <= s' /\ s' <= length b
    /\ bytes_at b (s' - 9) (lit "protected").
Proof.
  induction f as [|f IH]; intros s pb s'; cbn [find_protected]; [discriminate|].
  cbv zeta.
  destruct (byte_eqb (peek b s) "(") eqn:E0; [|discriminate].
  apply byte_eqb_eq in E0.
  destruct (snext b (S s)) as [n a] eqn:E1.
  destruct (n =? 0) eqn:Z; [discriminate|]. apply Nat.eqb_neq in Z. cbn [negb].
  destruct (snext_in_buffer _ _ _ _ E1 Z) as [L1 L2].
  pose proof (snext_two_bytes _ _ _ _ E1 Z) as L3.
  destruct (smatch b a n (lit "protected")) as [m s1] eqn:E2.
  destruct m.
  - intro H. injection H as <- <-.
    destruct (smatch_true_inv _ _ _ _ _ E2) as (En & Hb & ->).
    change (length (lit "protected")) with 9 in *.
    replace (a + 9 - 9) with a by lia.
    assert (a + 9 <= length b).
    { apply (read_bytes_no_NUL_in_bounds b a 9); [|lia].
      unfold bytes_at in Hb. change (length (lit "protected")) with 9 in Hb.
      rewrite Hb. repeat constructor; discriminate. }
    repeat split; (assumption || lia).
  - apply smatch_false_cursor in E2. subst s1.
    destruct (sskip b (a + n) 1) as [[s2 i]|] eqn:E3; [|discriminate].
    cbn [bind]. intro H. apply IH in H.
    destruct (sskip_loop_ok_inv _ _ _ _ _ _ E3) as [_ Hs].
    destruct H as (Hle & Hrest).
    split; [lia|exact Hrest].
Qed.

Lemma unprotect_find_inv (b : list byte) (pb s : nat) :
  unprotect_find b = Ok (pb, s) ->
  exists a0 a3,
    peek b 0 = "(" /\ snext b 1 = (21, a0) /\
    bytes_at b a0 (lit "protected-private-key") /\
    peek b (a0 + 21) = "(" /\ snext b (S (a0 + 21)) = (3, a3) /\
    bytes_at b a3 (lit "rsa") /\
    find_protected (S (length b)) b (a3 + 3) = Ok (pb, s).
Proof.
  unfold unprotect_find. intro H.
  destruct (byte_eqb (peek b 0) "(") eqn:E0; [|discriminate].
  destruct (snext b 1) as [n a0] eqn:E1.
  destruct (n =? 0) eqn:Z1; [discriminate|]. cbn [negb] in H.
  destruct (smatch b a0 n (lit "protected-private-key")) as [m s2] eqn:E2.
  destruct m; [|discriminate].
  destruct (smatch_true_inv _ _ _ _ _ E2) as (En & Hb & ->).
  change (length (lit "protected-private-key")) with 21 in *. subst n.
  destruct (byte_eqb (peek b (a0 + 21)) "(") eqn:E3; [|discriminate].
  destruct (snext b (S (a0 + 21))) as [n3 a3] eqn:E4.
  destruct (n3 =? 0) eqn:Z3; [discriminate|]. cbn [negb] in H.
  cbn [find_algo protect_info algo] in H.
  destruct (smatch b a3 n3 (lit "rsa")) as [m s5] eqn:E5.
  destruct m; [|discriminate].
  destruct (smatch_true_inv _ _ _ _ _ E5) as (En3 & Hb3 & ->).
  change (length (lit "rsa")) with 3 in *. subst n3.
  exists a0, a3. apply byte_eqb_eq in E0, E3. repeat split; assumption.
Qed.

(** X7.  Every operation accepts keys of its own kind only: a key on
    which [agent_protect] or [calculate_mic] succeeds is classified as
    clear by [agent_private_key_type], a key on which [agent_unprotect]
    succeeds as protected, and a key on which [agent_get_shadow_info]
    succeeds as shadowed. *)
Theorem operations_accept_their_kind {G : Gcrypt} (b : list byte) :
  (forall e pw o out, agent_protect e b pw o = (None, out) ->
                      agent_private_key_type b = PRIVATE_KEY_CLEAR)
  /\ (forall h, calculate_mic b = Ok h ->
                agent_private_key_type b = PRIVATE_KEY_CLEAR)
  /\ (forall e pw o out, agent_unprotect e b pw o = (None, out) ->
                         agent_private_key_type b = PRIVATE_KEY_PROTECTED)
  /\ (forall pos, agent_get_shadow_info b = Ok pos ->
                  agent_private_key_type b = PRIVATE_KEY_SHADOWED).
Proof.
  split; [|split; [|split]].
  - intros e pw o out H.
    destruct (@agent_protect_ok_inv G _ _ _ _ _ H) as (sc & _ & _ & Hscan & _).
    destruct (agent_protect_scan_inv _ _ Hscan) as (a0 & a3 & e' & L).
    apply (agent_private_key_type_atom b 11 a0 (kl_open _ _ _ _ _ _ L)
             (kl_len _ _ _ _ _ _ L) ltac:(discriminate));
      [exact (kl_name _ _ _ _ _ _ L)|reflexivity].
  - intros h H. unfold calculate_mic in H.
    destruct (mic_span b) as [[hb he]|] eqn:E; [|discriminate]. clear H.
    unfold mic_span in E.
    destruct (byte_eqb (peek b 0) "(") eqn:E0; [|discriminate].
    destruct (snext b 1) as [n a0] eqn:E1.
    destruct (n =? 0) eqn:Z1; [discriminate|]. cbn [negb] in E.
    destruct (smatch b a0 n (lit "private-key")) as [m s2] eqn:E2.
    destruct m; [|discriminate].
    destruct (smatch_true_inv _ _ _ _ _ E2) as (En & Hb & _).
    change (length (lit "private-key")) with 11 in En. subst n.
    apply byte_eqb_eq in E0.
    apply (agent_private_key_type_atom b 11 a0 E0 E1 ltac:(discriminate));
      [exact Hb|reflexivity].
  - intros e pw o out H. unfold agent_unprotect in H.
    destruct (agent_unprotect_final e b pw) as [final|] eqn:E; [|discriminate].
    unfold agent_unprotect_final, agent_unprotect_scan in E.
    destruct (unprotect_find b) as [[pb s]|] eqn:Ef; [|discriminate].
    destruct (unprotect_find_inv _ _ _ Ef) as (a0 & a3 & H0 & H1 & Hb & _).
    apply (agent_private_key_type_atom b 21 a0 H0 H1 ltac:(discriminate));
      [exact Hb|reflexivity].
  - intros pos H. unfold agent_get_shadow_info in H.
    destruct (byte_eqb (peek b 0) "(") eqn:E0; [|discriminate].
    destruct (snext b 1) as [n a0] eqn:E1.
    destruct (n =? 0) eqn:Z1; [discriminate|]. cbn [negb] in H.
    destruct (smatch b a0 n (lit "shadowed-private-key")) as [m s2] eqn:E2.
    destruct m; [|discriminate].
    destruct (smatch_true_inv _ _ _ _ _ E2) as (En & Hb & _).
    change (length (lit "shadowed-private-key")) with 20 in En. subst n.
    apply byte_eqb_eq in E0.
    apply (agent_private_key_type_atom b 20 a0 E0 E1 ltac:(discriminate));
      [exact Hb|reflexivity].
Qed.

Lemma operations_accept_their_kind_S1 :
  agent_private_key_type key_S1 = PRIVATE_KEY_CLEAR
  /\ agent_private_key_type (returned_buffer protected_S1) = PRIVATE_KEY_PROTECTED.
Proof.
  split.
  - destruct (operations_accept_their_kind (G := toy_gcrypt) key_S1) as (A & _).
    apply (A quiet_env (lit "abc") no_out protected_S1).
    vm_compute. reflexivity.
  - destruct (operations_accept_their_kind (G := toy_gcrypt)
                (returned_buffer protected_S1)) as (_ & _ & C & _).
    apply (C quiet_env (lit "abc") no_out
             (snd (agent_unprotect (G := toy_gcrypt) quiet_env
                     (returned_buffer protected_S1) (lit "abc") no_out))).
    vm_compute. reflexivity.
Defined.

(** X8.  A key that [agent_protect] has accepted is refused by
    [agent_unprotect], and the buffer [agent_protect] has returned for a
    key starting with [(11:] is refused by [agent_protect],
    [calculate_mic] and [agent_get_shadow_info]: each of them fails with
    [GNUPG_Unknown_Sexp] and stores nothing. *)
Theorem wrong_kind_is_unknown_sexp
        {G : Gcrypt} (e e' : Env) (K pw pw' : list byte)
        (o out o' : cptr * nat) :
  agent_protect e K pw o = (None, out) ->
  bytes_at K 0 (lit "(11:") ->
  agent_unprotect e' K pw' o' = (Some GNUPG_Unknown_Sexp, o')
  /\ agent_protect e' (returned_buffer out) pw' o' = (Some GNUPG_Unknown_Sexp, o')
  /\ calculate_mic (returned_buffer out) = Err GNUPG_Unknown_Sexp
  /\ agent_get_shadow_info (returned_buffer out) = Err GNUPG_Unknown_Sexp.
Proof.
  intros Hprot Hhead.
  destruct (@agent_protect_ok_inv G _ _ _ _ _ Hprot)
    as (sc & iv & key & Hscan & _ & _ & Hout & _).
  destruct (agent_protect_scan_inv _ _ Hscan) as (a0 & a3 & e0 & L).
  pose proof (protected_key_head K a0 a3 e0 sc (read_bytes iv (2 * blklen) 8)
                (read_bytes iv 0 blklen) (protect_ciphertext K sc iv key)
                L Hhead) as HP.
  subst out. unfold returned_buffer. cbn [fst snd]. rewrite read_bytes_all.
  set (P := protected_key K sc _ _ _) in *.
  change (lit "(21:protected-private-key")
    with (lit "(" ++ (dec 21 ++ [":"]) ++ lit "protected-private-key") in HP.
  apply bytes_at_app in HP as [H0 HP]. apply bytes_at_app in HP as [H1 H2].
  cbn [length lit Nat.add] in H1, H2.
  pose proof (bytes_at_peek1 _ _ _ H0) as P0.
  pose proof (snext_at P 21 1 4 ltac:(discriminate) H1 eq_refl) as S1.
  split; [|split; [|split]].
  - unfold agent_unprotect, agent_unprotect_final, agent_unprotect_scan,
      unprotect_find.
    rewrite (kl_open _ _ _ _ _ _ L), byte_eqb_refl, (kl_len _ _ _ _ _ _ L).
    cbn [Nat.eqb negb].
    rewrite (smatch_length_neq K a0 11 (lit "protected-private-key"))
      by discriminate.
    reflexivity.
  - unfold agent_protect, agent_protect_scan.
    rewrite P0, byte_eqb_refl, S1. cbn [Nat.eqb negb].
    rewrite (smatch_length_neq P 4 21 (lit "private-key")) by discriminate.
    reflexivity.
  - unfold calculate_mic, mic_span.
    rewrite P0, byte_eqb_refl, S1. cbn [Nat.eqb negb].
    rewrite (smatch_length_neq P 4 21 (lit "private-key")) by discriminate.
    reflexivity.
  - unfold agent_get_shadow_info.
    rewrite P0, byte_eqb_refl, S1. cbn [Nat.eqb negb].
    rewrite (smatch_length_neq P 4 21 (lit "shadowed-private-key"))
      by discriminate.
    reflexivity.
Qed.

Lemma wrong_kind_is_unknown_sexp_S1 :
  agent_unprotect (G := toy_gcrypt) quiet_env key_S1 (lit "xyz") no_out
  = (Some GNUPG_Unknown_Sexp, no_out)
  /\ agent_protect (G := toy_gcrypt) quiet_env (returned_buffer protected_S1)
                   (lit "xyz") no_out
     = (Some GNUPG_Unknown_Sexp, no_out)
  /\ calculate_mic (G := toy_gcrypt) (returned_buffer protected_S1)
     = Err GNUPG_Unknown_Sexp
  /\ agent_get_shadow_info (returned_buffer protected_S1)
     = Err GNUPG_Unknown_Sexp.
Proof.
  apply (wrong_kind_is_unknown_sexp (G := toy_gcrypt) quiet_env quiet_env key_S1
           (lit "abc") (lit "xyz") no_out protected_S1 no_out).
  - vm_compute. reflexivity.
  - vm_compute. reflexivity.
Defined.

(** X9.  When [agent_unprotect] has found the list named [protected],
    its offset is at least 26, lies inside the key and holds an open
    paren, and the cursor stands right behind the name: [merge_lists] is
    never called with a position it answers with [GNUPG_Bug], and the
    byte at that position is the open paren it asserts. *)
Theorem unprotect_find_position (b : list byte) (pb s : nat) :
  unprotect_find b = Ok (pb, s) ->
  26 <= pb /\ pb < length b /\ peek b pb = "("
  /\ pb + 12 <= s /\ s <= length b /\ bytes_at b (s - 9) (lit "protected").
Proof.
  intro H.
  destruct (unprotect_find_inv _ _ _ H) as (a0 & a3 & H0 & H1 & _ & _ & H4 & _ & Hf).
  destruct (find_protected_inv _ _ _ _ _ Hf) as (F1 & F2 & F3 & F4 & F5).
  pose proof (snext_lt _ _ _ _ H1 ltac:(discriminate)).
  pose proof (snext_lt _ _ _ _ H4 ltac:(discriminate)).
  repeat split; try assumption; lia.
Qed.

Lemma unprotect_find_position_S1 :
  26 <= 47 /\ 47 < length (returned_buffer protected_S1)
  /\ peek (returned_buffer protected_S1) 47 = "("
  /\ 47 + 12 <= 59 /\ 59 <= length (returned_buffer protected_S1)
  /\ bytes_at (returned_buffer protected_S1) (59 - 9) (lit "protected").
Proof.
  apply (unprotect_find_position (returned_buffer protected_S1) 47 59).
  vm_compute. reflexivity.
Defined.

(** ** More on the buffer agent_protect returns *)

(** X10.  [agent_protect] turns a canonical key into a canonical
    S-expression: if the canonical length of the key is its length, the
    canonical length of the buffer returned is the length returned.  That
    length is the length of the key plus 95 bytes of new list structure,
    plus the digits of the ciphertext length, plus what the ciphertext is
    longer than the region it replaces. *)
Theorem agent_protect_output_canonical
        {G : Gcrypt} (e : Env) (K pw : list byte) (o out : cptr * nat) :
  agent_protect e K pw o = (None, out) ->
  gcry_sexp_canon_len K 0 = length K ->
  gcry_sexp_canon_len (returned_buffer out) 0 = snd out
  /\ exists sc,
      agent_protect_scan K = Ok sc
      /\ let protlen := prot_end sc - prot_begin sc + 1 in
         protlen + 42 <= protect_enclen protlen <= protlen + 57
         /\ snd out + protlen
            = length K + 95 + length (dec (protect_enclen protlen))
              + protect_enclen protlen.
Proof.
  intros Hprot Hcanon.
  destruct (@agent_protect_ok_inv G _ _ _ _ _ Hprot)
    as (sc & iv & key & Hscan & _ & _ & Hout & _).
  destruct (agent_protect_scan_inv _ _ Hscan) as (a0 & a3 & e0 & L0).
  destruct (key_layout_canonical _ _ _ _ _ L0 Hcanon) as (L & Hhead & Z3 & Htail).
  set (salt := read_bytes iv (2 * blklen) 8) in *.
  set (iv16 := read_bytes iv 0 blklen) in *.
  set (ct := protect_ciphertext K sc iv key) in *.
  assert (Hsalt : length salt = 8) by apply length_read_bytes.
  assert (Hiv : length iv16 = 16) by apply length_read_bytes.
  assert (Hct : length ct = protect_enclen (prot_end sc - prot_begin sc + 1))
    by (unfold ct, protect_ciphertext; apply length_read_bytes).
  pose proof (protect_enclen_bounds (prot_end sc - prot_begin sc + 1)) as [_ Hb].
  pose proof (pk_sizes K salt iv16 ct a3 sc L Hsalt Hiv ltac:(lia))
    as (S1 & S2 & S3 & S4 & S5 & S6).
  subst out. unfold returned_buffer. cbn [fst snd]. rewrite read_bytes_all.
  split.
  - apply (pk_canon_len K salt iv16 ct a3 sc L Z3 Hsalt Hiv ltac:(lia) Htail).
    lia.
  - exists sc. split; [exact Hscan|]. cbv zeta. split; [exact Hb|].
    rewrite (pk_length K salt iv16 ct a3 sc L Hsalt Hiv ltac:(lia)).
    rewrite (pl_length salt iv16 ct Hsalt Hiv), Hct. lia.
Qed.

Lemma agent_protect_output_canonical_S1 :
  gcry_sexp_canon_len (returned_buffer protected_S1) 0 = snd protected_S1
  /\ exists sc,
      agent_protect_scan key_S1 = Ok sc
      /\ let protlen := prot_end sc - prot_begin sc + 1 in
         protlen + 42 <= protect_enclen protlen <= protlen + 57
         /\ snd protected_S1 + protlen
            = length key_S1 + 95 + length (dec (protect_enclen protlen))
              + protect_enclen protlen.
Proof.
  apply (agent_protect_output_canonical (G := toy_gcrypt) quiet_env key_S1
           (lit "abc") no_out protected_S1).
  - vm_compute. reflexivity.
  - vm_compute. reflexivity.
Defined.

(** X11.  The key [agent_protect] accepts is an RSA key with exactly the
    six parameter lists n, e, d, p, q, u in this order, each made of a
    one-byte name and one value; the region it encrypts starts with the
    open paren of the list d and ends with the close paren of the list u,
    and the public lists n and e stand before it. *)
Theorem agent_protect_accepts_rsa_parameters
        {G : Gcrypt} (e : Env) (K pw : list byte) (o out : cptr * nat) :
  agent_protect e K pw o = (None, out) ->
  exists sc a0 a3,
    agent_protect_scan K = Ok sc
    /\ snext K 1 = (11, a0) /\ bytes_at K a0 (lit "private-key")
    /\ snext K (S (a0 + 11)) = (3, a3) /\ bytes_at K a3 (lit "rsa")
    /\ param_chain false K (lit "ne") (a3 + 3) (prot_begin sc)
    /\ param_chain false K (lit "dpqu") (prot_begin sc) (S (prot_end sc))
    /\ param_chain false K (lit "nedpqu") (a3 + 3) (hash_end sc)
    /\ peek K (hash_end sc) = ")".
Proof.
  intro Hprot.
  destruct (@agent_protect_ok_inv G _ _ _ _ _ Hprot) as (sc & _ & _ & Hscan & _).
  destruct (agent_protect_scan_inv _ _ Hscan) as (a0 & a3 & e0 & L).
  exists sc, a0, a3.
  split; [exact Hscan|]. split; [exact (kl_len _ _ _ _ _ _ L)|].
  split; [exact (kl_name _ _ _ _ _ _ L)|].
  split; [exact (kl_algolen _ _ _ _ _ _ L)|].
  split; [exact (kl_algo _ _ _ _ _ _ L)|].
  split; [exact (kl_public _ _ _ _ _ _ L)|].
  split; [exact (kl_secret _ _ _ _ _ _ L)|].
  split; [exact (key_layout_params _ _ _ _ _ _ L)|].
  exact (kl_close _ _ _ _ _ _ L).
Qed.

Lemma agent_protect_accepts_rsa_parameters_S1 :
  exists sc a0 a3,
    agent_protect_scan key_S1 = Ok sc
    /\ snext key_S1 1 = (11, a0) /\ bytes_at key_S1 a0 (lit "private-key")
    /\ snext key_S1 (S (a0 + 11)) = (3, a3) /\ bytes_at key_S1 a3 (lit "rsa")
    /\ param_chain false key_S1 (lit "ne") (a3 + 3) (prot_begin sc)
    /\ param_chain false key_S1 (lit "dpqu") (prot_begin sc) (S (prot_end sc))
    /\ param_chain false key_S1 (lit "nedpqu") (a3 + 3) (hash_end sc)
    /\ peek key_S1 (hash_end sc) = ")".
Proof.
  apply (agent_protect_accepts_rsa_parameters (G := toy_gcrypt) quiet_env key_S1
           (lit "abc") no_out protected_S1).
  vm_compute. reflexivity.
Defined.

(** X12.  The integrity check value does not cover what follows the
    key: for a key the scan of [agent_protect] accepts, [calculate_mic]
    returns the same value when further bytes are appended to the
    buffer. *)
Theorem calculate_mic_ignores_trailing_bytes
        {G : Gcrypt} (K junk : list byte) (sc : protect_scan) :
  agent_protect_scan K = Ok sc ->
  calculate_mic (K ++ junk) = calculate_mic K
  /\ calculate_mic K = Ok (protect_mic K sc).
Proof.
  intro Hscan.
  destruct (agent_protect_scan_inv _ _ Hscan) as (a0 & a3 & e & L).
  pose proof (key_layout_sizes _ _ _ _ _ _ L) as (S1 & S2 & S3 & S4 & S5 & S6).
  assert (L' : key_layout false (K ++ junk) a0 a3 e sc).
  { apply (key_layout_same false K (K ++ junk) a0 a3 e sc L).
    - apply read_bytes_app_l. lia.
    - rewrite length_app. lia. }
  pose proof (kl_hash_begin _ _ _ _ _ _ L) as Hb.
  pose proof (kl_hash_end _ _ _ _ _ _ L) as He.
  assert (E : calculate_mic K = Ok (protect_mic K sc)).
  { unfold calculate_mic. rewrite (mic_span_layout _ _ _ _ _ _ L). cbn [bind].
    unfold protect_mic. do 3 f_equal. lia. }
  split; [|exact E]. rewrite E.
  unfold calculate_mic. rewrite (mic_span_layout _ _ _ _ _ _ L'). cbn [bind].
  unfold protect_mic. do 2 f_equal.
  rewrite read_bytes_app_l by lia. f_equal. lia.
Qed.

Lemma calculate_mic_ignores_trailing_bytes_S1 :
  calculate_mic (G := toy_gcrypt) (key_S1 ++ lit "trailing bytes")
  = calculate_mic (G := toy_gcrypt) key_S1
  /\ calculate_mic (G := toy_gcrypt) key_S1
     = Ok (protect_mic (G := toy_gcrypt) key_S1
             {| hash_begin := 15; hash_end := 69; prot_begin := 37;
                prot_end := 68; real_end := 70 |}).
Proof.
  apply (calculate_mic_ignores_trailing_bytes (G := toy_gcrypt) key_S1
           (lit "trailing bytes")).
  vm_compute. reflexivity.
Defined.

(** ** Every canonical RSA key can be protected *)

Lemma length_param (name value : list byte) :
  length (param name value) = 2 + length (atom name) + length (atom value).
Proof.
  unfold param. rewrite !length_app.
  change (length (lit "(")) with 1. change (length (lit ")")) with 1. lia.
Qed.

Lemma param_at_param (b : list byte) (s : nat) (c : byte) (v : list byte) :
  bytes_at b s (param [c] v) -> length v <> 0 ->
  param_at true b s (s + length (param [c] v)) c.
Proof.
  intros H Hv. unfold param in H.
  apply bytes_at_app in H as [H0 H]. apply bytes_at_app in H as [H1 H].
  apply bytes_at_app in H as [H2 H3].
  change (length (lit "(")) with 1 in *.
  change (length (atom [c])) with 3 in *.
  destruct (snext_atom b (s + 1) [c] H1 ltac:(discriminate)) as [E1 B1].
  destruct (snext_atom b (s + 1 + 3) v H2 Hv) as [E2 B2].
  change (length [c]) with 1 in *. change (length (dec 1)) with 1 in *.
  exists (s + 1 + 1 + 1), (length v), (s + 1 + 3 + length (dec (length v)) + 1).
  split; [exact (bytes_at_peek1 _ _ _ H0)|].
  split; [replace (S s) with (s + 1) by lia; exact E1|].
  split; [exact (bytes_at_peek1 _ _ _ B1)|].
  split; [replace (s + 1 + 1 + 1 + 1) with (s + 1 + 3) by lia; exact E2|].
  split; [exact Hv|].
  split.
  { rewrite length_atom in H3.
    replace (s + 1 + 3 + length (dec (length v)) + 1 + length v)
      with (s + 1 + 3 + (length (dec (length v)) + 1 + length v)) by lia.
    exact (bytes_at_peek1 _ _ _ H3). }
  split; [rewrite length_param, !length_atom; change (length [c]) with 1;
          change (length (dec 1)) with 1; lia|].
  intros _. split.
  - replace (S s) with (s + 1 + 0) by lia.
    rewrite (bytes_at_peek b (s + 1) (atom [c]) 0 H1) by (cbn; lia).
    discriminate.
  - replace (s + 1 + 1 + 1 + 1) with (s + 1 + 3 + 0) by lia.
    rewrite (bytes_at_peek b (s + 1 + 3) (atom v) 0 H2)
      by (rewrite length_atom; lia).
    unfold atom. rewrite peek_app_l by apply dec_nonempty.
    apply dec_first_nonzero. exact Hv.
Qed.

Lemma protect_parms_param_at (canon : bool) (c : byte) (ps : list byte) (i : nat)
      (info : protect_info_t) (b : list byte) (s e : nat) (pb pe : option nat) :
  param_at canon b s e c ->
  protect_parms (c :: ps) i info b s pb pe
  = protect_parms ps (S i) info b e
      (if i =? prot_from info then Some s else pb)
      (if i =? prot_to info then Some (e - 1) else pe).
Proof.
  intros (a1 & n2 & a2 & H0 & H1 & H2 & H3 & H4 & H5 & -> & _).
  cbn [protect_parms]. rewrite H0, byte_eqb_refl, H1. cbn [Nat.eqb negb orb].
  rewrite H2, byte_eqb_refl. cbn [negb]. rewrite H3, (neq_0_eqb _ H4).
  cbn [negb]. rewrite H5, byte_eqb_refl.
  now replace (S (a2 + n2) - 1) with (a2 + n2) by lia.
Qed.

(** The scan of [agent_protect] accepts every key of the layout it has
    been shown to find. *)
Lemma agent_protect_scan_of_layout (canon : bool) (K : list byte)
      (a0 a3 e : nat) (sc : protect_scan) :
  key_layout canon K a0 a3 e sc ->
  hash_begin sc = a0 + 11 -> hash_end sc = S (prot_end sc) ->
  real_end sc = e - 1 ->
  agent_protect_scan K = Ok sc.
Proof.
  intros L Hb He Hr.
  pose proof (kl_public _ _ _ _ _ _ L) as Hpub.
  pose proof (kl_secret _ _ _ _ _ _ L) as Hsec.
  cbn [param_chain lit list_ascii_of_string] in Hpub, Hsec.
  destruct Hpub as (m1 & N1 & m2 & N2 & Em2).
  destruct Hsec as (m3 & N3 & m4 & N4 & m5 & N5 & m6 & N6 & Em6).
  subst m2 m6.
  unfold agent_protect_scan.
  rewrite (kl_open _ _ _ _ _ _ L), byte_eqb_refl, (kl_len _ _ _ _ _ _ L).
  cbn [Nat.eqb negb].
  rewrite (smatch_at_len K a0 11 (lit "private-key") eq_refl (kl_name _ _ _ _ _ _ L)).
  rewrite (kl_open2 _ _ _ _ _ _ L), byte_eqb_refl, (kl_algolen _ _ _ _ _ _ L).
  cbn [Nat.eqb negb find_algo protect_info algo].
  rewrite (smatch_at_len K a3 3 (lit "rsa") eq_refl (kl_algo _ _ _ _ _ _ L)).
  cbn [parmlist].
  change (lit "nedpqu") with ["n"; "e"; "d"; "p"; "q"; "u"].
  rewrite (protect_parms_param_at canon _ _ _ _ _ _ _ _ _ N1).
  rewrite (protect_parms_param_at canon _ _ _ _ _ _ _ _ _ N2).
  rewrite (protect_parms_param_at canon _ _ _ _ _ _ _ _ _ N3).
  rewrite (protect_parms_param_at canon _ _ _ _ _ _ _ _ _ N4).
  rewrite (protect_parms_param_at canon _ _ _ _ _ _ _ _ _ N5).
  rewrite (protect_parms_param_at canon _ _ _ _ _ _ _ _ _ N6).
  cbn [protect_parms Nat.eqb prot_from prot_to bind].
  rewrite <- He. rewrite (kl_close _ _ _ _ _ _ L), byte_eqb_refl.
  change (2 - 1) with 1. rewrite (kl_rest _ _ _ _ _ _ L). cbn [bind].
  f_equal. destruct sc as [hb he pb pe re]. cbn in *. subst. f_equal. lia.
Qed.

Lemma do_encryption_succeeds {G : Gcrypt} (e : Env) (protbegin : list byte * nat)
      (protlen : nat) (passphrase sha1hash iv : list byte) :
  env_ok e -> asprintf_ok e = true ->
  gcry_random_bytes e (blklen * 2 + 8) = Some iv ->
  0 < gcry_md_get_algo_dlen GCRY_MD_SHA1 ->
  exists r, do_encryption e protbegin protlen passphrase sha1hash = Ok r.
Proof.
  intros (E1 & E2 & E3 & E4 & E5 & E6 & E7) Ea Er Hd.
  unfold do_encryption. rewrite E1, !E6, Er, E2, E3, E4, Ea. cbn [of_rc bind].
  unfold hash_passphrase. cbn [Nat.eqb negb andb orb]. rewrite E5.
  cbn [of_rc bind].
  destruct (hash_passphrase_loop_key passphrase GCRY_MD_SHA1 3 (iv, 2 * blklen)
              96%Z PROT_CIPHER_KEYLEN Hd) as (key & -> & _).
  cbn [bind].
  destruct (asprintf_protected _) as [[[psave saltpos] ivpos] encpos].
  rewrite E7. eexists. reflexivity.
Qed.

Section RsaKey.
Variables (n e d p q u : list byte).
Hypothesis Hn : length n <> 0.
Hypothesis He : length e <> 0.
Hypothesis Hd : length d <> 0.
Hypothesis Hp : length p <> 0.
Hypothesis Hq : length q <> 0.
Hypothesis Hu : length u <> 0.

Let K := rsa_private_key n e d p q u.
Let sc := rsa_private_key_scan n e d p q u.
Let s1 := 21 + length (param ["n"] n).
Let s2 := s1 + length (param ["e"] e).
Let s3 := s2 + length (param ["d"] d).
Let s4 := s3 + length (param ["p"] p).
Let s5 := s4 + length (param ["q"] q).
Let s6 := s5 + length (param ["u"] u).

Lemma rk_pieces :
  bytes_at K 0 (lit "(11:private-key(3:rsa") /\
  bytes_at K 21 (param ["n"] n) /\ bytes_at K s1 (param ["e"] e) /\
  bytes_at K s2 (param ["d"] d) /\ bytes_at K s3 (param ["p"] p) /\
  bytes_at K s4 (param ["q"] q) /\ bytes_at K s5 (param ["u"] u) /\
  bytes_at K s6 (lit "))") /\ length K = s6 + 2.
Proof.
  assert (H : bytes_at K 0 K) by apply read_bytes_all.
  unfold K at 2 in H. unfold rsa_private_key in H.
  change (lit "n") with ["n"] in H. change (lit "e") with ["e"] in H.
  change (lit "d") with ["d"] in H. change (lit "p") with ["p"] in H.
  change (lit "q") with ["q"] in H. change (lit "u") with ["u"] in H.
  apply bytes_at_app in H as [F0 H]. apply bytes_at_app in H as [F1 H].
  apply bytes_at_app in H as [F2 H]. apply bytes_at_app in H as [F3 H].
  apply bytes_at_app in H as [F4 H]. apply bytes_at_app in H as [F5 H].
  apply bytes_at_app in H as [F6 F7].
  change (0 + length (lit "(11:private-key(3:rsa")) with 21 in *.
  repeat split; try assumption.
  unfold K, rsa_private_key. rewrite !length_app.
  change (length (lit "(11:private-key(3:rsa")) with 21.
  change (length (lit "))")) with 2.
  unfold s6, s5, s4, s3, s2, s1. change (lit "n") with ["n"].
  change (lit "e") with ["e"]. change (lit "d") with ["d"].
  change (lit "p") with ["p"]. change (lit "q") with ["q"].
  change (lit "u") with ["u"]. lia.
Qed.

Lemma rk_scan :
  hash_begin sc = 15 /\ prot_begin sc = s2 /\ prot_end sc = s6 - 1
  /\ hash_end sc = s6 /\ real_end sc = s6 + 1.
Proof.
  unfold sc, rsa_private_key_scan, s6, s5, s4, s3, s2, s1.
  cbn [hash_begin prot_begin prot_end hash_end real_end].
  change (lit "n") with ["n"]. change (lit "e") with ["e"].
  change (lit "d") with ["d"]. change (lit "p") with ["p"].
  change (lit "q") with ["q"]. change (lit "u") with ["u"].
  repeat split; lia.
Qed.

Lemma rk_layout : key_layout true K 4 18 (length K) sc.
Proof.
  destruct rk_pieces as (F0 & F1 & F2 & F3 & F4 & F5 & F6 & F7 & Hlen).
  destruct rk_scan as (Q1 & Q2 & Q3 & Q4 & Q5).
  pose proof (param_at_param K 21 "n" n F1 Hn) as N1.
  pose proof (param_at_param K s1 "e" e F2 He) as N2.
  pose proof (param_at_param K s2 "d" d F3 Hd) as N3.
  pose proof (param_at_param K s3 "p" p F4 Hp) as N4.
  pose proof (param_at_param K s4 "q" q F5 Hq) as N5.
  pose proof (param_at_param K s5 "u" u F6 Hu) as N6.
  fold s1 in N1. fold s2 in N2. fold s3 in N3. fold s4 in N4. fold s5 in N5.
  fold s6 in N6.
  pose proof (param_at_size _ _ _ _ _ N6) as Z6.
  change (lit "(11:private-key(3:rsa")
    with (lit "(" ++ (dec 11 ++ [":"]) ++ lit "private-key" ++ lit "("
          ++ (dec 3 ++ [":"]) ++ lit "rsa") in F0.
  apply bytes_at_app in F0 as [G0 F0]. apply bytes_at_app in F0 as [G1 F0].
  apply bytes_at_app in F0 as [G2 F0]. apply bytes_at_app in F0 as [G3 F0].
  apply bytes_at_app in F0 as [G4 G5].
  cbn [length lit list_ascii_of_string app Nat.add] in G1, G2, G3, G4, G5.
  change (lit "))") with ([")"] ++ [")"]) in F7.
  apply bytes_at_app in F7 as [C1 C2]. change (length [")"]) with 1 in C2.
  constructor.
  - exact (bytes_at_peek1 _ _ _ G0).
  - apply (snext_at K 11 1 4); (assumption || discriminate || reflexivity).
  - exact G2.
  - rewrite Q1. reflexivity.
  - exact (bytes_at_peek1 _ _ _ G3).
  - apply (snext_at K 3 16 18); (assumption || discriminate || reflexivity).
  - exact G5.
  - rewrite Q2. exists s1. split; [exact N1|]. exists s2. split; [exact N2|reflexivity].
  - rewrite Q2, Q3. replace (S (s6 - 1)) with s6 by lia.
    exists s3. split; [exact N3|]. exists s4. split; [exact N4|].
    exists s5. split; [exact N5|]. exists s6. split; [exact N6|reflexivity].
  - rewrite Q3, Q4. lia.
  - rewrite Q4. exact (bytes_at_peek1 _ _ _ C1).
  - rewrite Q4. unfold sskip.
    rewrite (sskip_loop_close _ K (S s6) 1)
      by (lia || (replace (S s6) with (s6 + 1) by lia;
                  exact (bytes_at_peek1 _ _ _ C2))).
    cbn [Nat.sub]. rewrite sskip_loop_done. do 2 f_equal. lia.
  - rewrite Q5. lia.
Qed.

Lemma rk_canonical : gcry_sexp_canon_len K 0 = length K.
Proof.
  pose proof rk_layout as L.
  destruct rk_pieces as (_ & _ & _ & _ & _ & _ & _ & F7 & Hlen).
  destruct rk_scan as (Q1 & Q2 & Q3 & Q4 & Q5).
  pose proof (key_layout_params _ _ _ _ _ _ L) as Hall. rewrite Q4 in Hall.
  pose proof (param_chain_size _ _ _ _ _ Hall) as Hsz.
  change (length (lit "nedpqu")) with 6 in Hsz.
  change (lit "))") with ([")"] ++ [")"]) in F7.
  apply bytes_at_app in F7 as [C1 C2]. change (length [")"]) with 1 in C2.
  unfold gcry_sexp_canon_len.
  rewrite (kl_open _ _ _ _ _ _ L), byte_eqb_refl.
  replace (S (length K)) with (1 + (1 + (1 + (1 + (4 * 6 + (2 + (s6 - 27)))))))
    by lia.
  cbn [Nat.add].
  rewrite (canon_loop_open _ _ _ _ _ (kl_open _ _ _ _ _ _ L)) by now left.
  rewrite (canon_loop_atom _ K 0 1 1 11 4 (kl_len _ _ _ _ _ _ L))
    by (discriminate || (now left)
        || (rewrite (bytes_at_peek K 0 (lit "(11:private-key(3:rsa") 1);
            [discriminate|exact (proj1 rk_pieces)|cbn; lia])).
  change (4 + 11) with 15.
  rewrite (canon_loop_open _ _ _ _ _ (kl_open2 _ _ _ _ _ _ L)) by now left.
  rewrite (canon_loop_atom _ K 0 16 2 3 18 (kl_algolen _ _ _ _ _ _ L))
    by (discriminate || (now left)
        || (rewrite (bytes_at_peek K 0 (lit "(11:private-key(3:rsa") 16);
            [discriminate|exact (proj1 rk_pieces)|cbn; lia])).
  change (4 * 6) with (4 * length (lit "nedpqu")).
  rewrite (canon_loop_chain _ K (lit "nedpqu") 0 (18 + 3) s6 2 Hall)
    by (lia || now left).
  rewrite (canon_loop_close _ _ _ _ _ (bytes_at_peek1 _ _ _ C1))
    by ((now left) || lia).
  cbn [Nat.sub].
  replace (S s6) with (s6 + 1) by lia.
  rewrite (canon_loop_last _ _ _ _ (bytes_at_peek1 _ _ _ C2)) by now left.
  lia.
Qed.
End RsaKey.

(** X13.  Every RSA private key in canonical form can be protected and
    recovered.  Let the six parameter values be non-empty and let the
    key be the canonical S-expression built from them.  The scan of
    [agent_protect] accepts the key, with the offsets that follow from
    the lengths of the parameters.  In an environment where the random
    bytes are delivered and no allocation or library call fails,
    [agent_protect] succeeds for every passphrase, and [agent_unprotect],
    run on the buffer returned with the same passphrase, succeeds and
    returns the key. *)
Theorem rsa_private_key_round_trip
        {G : Gcrypt} {GL : GcryptLaws G} (e1 e2 : Env)
        (n e d p q u pw iv : list byte) (o1 o2 : cptr * nat) :
  length n <> 0 -> length e <> 0 -> length d <> 0 ->
  length p <> 0 -> length q <> 0 -> length u <> 0 ->
  env_ok e1 -> asprintf_ok e1 = true ->
  gcry_random_bytes e1 (blklen * 2 + 8) = Some iv ->
  env_ok e2 ->
  agent_protect_scan (rsa_private_key n e d p q u)
  = Ok (rsa_private_key_scan n e d p q u)
  /\ gcry_sexp_canon_len (rsa_private_key n e d p q u) 0
     = length (rsa_private_key n e d p q u)
  /\ exists out out2,
      agent_protect e1 (rsa_private_key n e d p q u) pw o1 = (None, out)
      /\ agent_unprotect e2 (returned_buffer out) pw o2 = (None, out2)
      /\ returned_buffer out2 = rsa_private_key n e d p q u.
Proof.
  intros Hn He Hd Hp Hq Hu Henv1 Ha Hr Henv2.
  set (K := rsa_private_key n e d p q u).
  set (sc := rsa_private_key_scan n e d p q u).
  pose proof (rk_layout n e d p q u Hn He Hd Hp Hq Hu) as L0.
  pose proof (rk_canonical n e d p q u Hn He Hd Hp Hq Hu) as Hcanon.
  destruct (rk_scan n e d p q u) as (Q1 & Q2 & Q3 & Q4 & Q5).
  destruct (rk_pieces n e d p q u Hn He Hd Hp Hq Hu)
    as (_ & _ & _ & _ & _ & _ & _ & _ & Hlen).
  fold K sc in L0, Hcanon, Q1, Q2, Q3, Q4, Q5, Hlen.
  pose proof (key_layout_sizes _ _ _ _ _ _ L0) as (S1 & S2 & S3 & S4 & S5 & S6).
  assert (Hscan : agent_protect_scan K = Ok sc).
  { apply (agent_protect_scan_of_layout true K 4 18 (length K) sc L0).
    - rewrite Q1. reflexivity.
    - rewrite Q3, Q4. lia.
    - rewrite Q5, Hlen. lia. }
  split; [exact Hscan|]. split; [exact Hcanon|].
  assert (Hdl : 0 < gcry_md_get_algo_dlen GCRY_MD_SHA1)
    by (rewrite sha1_dlen; lia).
  destruct (do_encryption_succeeds e1 (K, prot_begin sc)
              (prot_end sc - prot_begin sc + 1) pw (protect_mic K sc) iv
              Henv1 Ha Hr Hdl) as ([protected protectedlen] & Henc).
  assert (Hprot : exists out, agent_protect e1 K pw o1 = (None, out)).
  { unfold agent_protect. rewrite Hscan, Henc.
    destruct Henv1 as (_ & _ & _ & _ & _ & _ & E7). rewrite E7.
    eexists. reflexivity. }
  destruct Hprot as (out & Hprot). exists out.
  destruct (@agent_protect_ok_inv G _ _ _ _ _ Hprot)
    as (sc' & iv' & key & Hscan' & _ & Hkey & Hout & _).
  rewrite Hscan in Hscan'. injection Hscan' as <-.
  destruct (agent_protect_scan_inv _ _ Hscan) as (b0 & b3 & e0 & Lf).
  destruct (key_layout_canonical _ _ _ _ _ Lf Hcanon) as (L & Hhead & Z3 & Htail).
  assert (Hkey2 : hash_passphrase e2 pw GCRY_MD_SHA1 3 (Some (iv', 2 * blklen))
                                  96%Z PROT_CIPHER_KEYLEN = Ok key).
  { rewrite <- Hkey. apply hash_passphrase_salt_ext; [reflexivity|].
    rewrite (@hash_passphrase_ok_md_open G _ _ _ _ _ _ _ _ Hkey).
    now destruct Henv2 as (_ & _ & _ & _ & -> & _). }
  destruct (@rt_unprotect G GL K iv' key pw b3 sc e2 L Hhead Z3 Htail Hcanon
                          Henv2 Hkey2 o2) as (out2 & Hun & Hret).
  exists out2. split; [exact Hprot|].
  subst out. unfold returned_buffer at 1. cbn [fst snd].
  rewrite read_bytes_all. split; [exact Hun|exact Hret].
Qed.

Lemma rsa_private_key_round_trip_S1 :
  agent_protect_scan (rsa_private_key (lit "x") (lit "y") (lit "z") (lit "a")
                                      (lit "b") (lit "c"))
  = Ok (rsa_private_key_scan (lit "x") (lit "y") (lit "z") (lit "a")
                             (lit "b") (lit "c"))
  /\ gcry_sexp_canon_len (rsa_private_key (lit "x") (lit "y") (lit "z")
                                          (lit "a") (lit "b") (lit "c")) 0
     = length (rsa_private_key (lit "x") (lit "y") (lit "z") (lit "a")
                               (lit "b") (lit "c"))
  /\ exists out out2,
      agent_protect (G := toy_gcrypt) quiet_env
                    (rsa_private_key (lit "x") (lit "y") (lit "z") (lit "a")
                                     (lit "b") (lit "c"))
                    (lit "abc") no_out
      = (None, out)
      /\ agent_unprotect (G := toy_gcrypt) quiet_env (returned_buffer out)
                         (lit "abc") no_out
         = (None, out2)
      /\ returned_buffer out2
         = rsa_private_key (lit "x") (lit "y") (lit "z") (lit "a") (lit "b")
                           (lit "c").
Proof.
  apply (rsa_private_key_round_trip (G := toy_gcrypt) (GL := toy_gcrypt_laws)
           quiet_env quiet_env (lit "x") (lit "y") (lit "z") (lit "a")
           (lit "b") (lit "c") (lit "abc")
           (map (fun i => ascii_of_nat (40 + i)) (seq 0 (blklen * 2 + 8)))
           no_out no_out);
    try (cbn; lia); try exact env_ok_quiet; reflexivity.
Defined.

(** ** The buffer agent_shadow_key returns *)

(** The insertion point lies before the end of the canonical value. *)
Lemma shadow_loop_canon (f : nat) (b : list byte) :
  forall s point f' d r,
    shadow_loop f b s = Ok point ->
    canon_loop f' b 0 s d = r -> r <> 0 -> 1 < d ->
    point + 2 <= r.
Proof.
  assert (Hend : forall s f' d r,
             peek b s = ")" -> canon_loop f' b 0 s d = r -> r <> 0 -> 1 < d ->
             s + 2 <= r).
  { intros s f' d r Hp Hc Hr Hd.
    destruct f' as [|f1]; [cbn in Hc; congruence|].
    rewrite (canon_loop_close _ _ _ _ _ Hp) in Hc by ((now left) || lia).
    pose proof (canon_loop_pos _ _ _ _ _ _ Hc Hr). lia. }
  induction f as [|f IH]; intros s point f' d r Hloop Hc Hr Hd.
  - cbn [shadow_loop] in Hloop.
    destruct (byte_eqb (peek b s) ")") eqn:E; cbn [negb] in Hloop; [|discriminate].
    injection Hloop as <-. apply byte_eqb_eq in E. eapply Hend; eassumption.
  - destruct (byte_eqb (peek b s) ")") eqn:E.
    + apply byte_eqb_eq in E. rewrite (shadow_loop_stop _ _ _ E) in Hloop.
      injection Hloop as <-. eapply Hend; eassumption.
    + apply byte_eqb_neq in E.
      destruct (shadow_loop_step _ _ _ _ Hloop E)
        as (f0 & n & a & n2 & a2 & Ef & P0 & E1 & N1 & E2 & N2 & P3 & Hrec).
      injection Ef as <-.
      destruct f' as [|f1]; [cbn in Hc; congruence|].
      apply (canon_loop_open_inv _ _ _ _ _ P0) in Hc.
      destruct f1 as [|f2]; [cbn in Hc; congruence|].
      destruct (canon_loop_atom_inv _ _ _ _ _ _ _ E1 N1 Hc Hr) as [_ Hc2].
      destruct f2 as [|f3]; [cbn in Hc2; congruence|].
      destruct (canon_loop_atom_inv _ _ _ _ _ _ _ E2 N2 Hc2 Hr) as [_ Hc3].
      destruct f3 as [|f4]; [cbn in Hc3; congruence|].
      rewrite (canon_loop_close _ _ _ _ _ P3) in Hc3 by ((now left) || lia).
      replace (S d - 1) with d in Hc3 by lia.
      exact (IH _ _ _ _ _ Hrec Hc3 Hr Hd).
Qed.

Lemma agent_shadow_point_bounds (pubkey : list byte) (point : nat) :
  agent_shadow_point pubkey = Ok point ->
  gcry_sexp_canon_len pubkey 0 <> 0 ->
  bytes_at pubkey 0 (lit "(10:public-key(")
  /\ 18 <= point /\ point + 2 <= gcry_sexp_canon_len pubkey 0
  /\ peek pubkey point = ")".
Proof.
  intros Hpoint Hc.
  destruct (agent_shadow_point_inv _ _ Hpoint)
    as (a0 & n3 & a3 & P0 & E1 & Hname & P2 & E3 & N3 & Hloop).
  destruct (canon_len_first_prefix pubkey 10 a0 Hc E1 ltac:(discriminate))
    as [_ Hz].
  destruct (snext_two_digits pubkey 1 10 a0 E1 ltac:(lia) Hz) as [-> Hd].
  change (1 + 3) with 4 in *. change (4 + 10) with 14 in *.
  pose proof (shadow_loop_le _ _ _ _ Hloop) as Hle.
  pose proof (snext_two_bytes _ _ _ _ E3 N3) as L3.
  split; [|split; [lia|split]].
  - change (lit "(10:public-key(")
      with (lit "(" ++ lit "10:" ++ lit "public-key" ++ lit "(").
    apply bytes_at_app. split; [apply bytes_at_intro; intros i Hi|].
    { cbn in Hi. replace i with 0 by lia. exact P0. }
    apply bytes_at_app. split; [exact Hd|].
    apply bytes_at_app. split; [exact Hname|].
    apply bytes_at_intro. intros i Hi. cbn in Hi. replace i with 0 by lia.
    rewrite Nat.add_0_r. exact P2.
  - (* the canonical length runs over the same lists *)
    remember (gcry_sexp_canon_len pubkey 0) as r eqn:Er. symmetry in Er.
    unfold gcry_sexp_canon_len in Er. rewrite P0, byte_eqb_refl in Er.
    apply (canon_loop_open_inv _ _ _ _ _ P0) in Er.
    destruct (length pubkey) as [|f1]; [cbn in Er; congruence|].
    destruct (canon_loop_atom_inv _ _ _ _ _ _ _ E1 ltac:(discriminate) Er Hc)
      as [_ Er2].
    change (4 + 10) with 14 in Er2.
    destruct f1 as [|f2]; [cbn in Er2; congruence|].
    apply (canon_loop_open_inv _ _ _ _ _ P2) in Er2.
    destruct f2 as [|f3]; [cbn in Er2; congruence|].
    destruct (canon_loop_atom_inv _ _ _ _ _ _ _ E3 N3 Er2 Hc) as [_ Er3].
    exact (shadow_loop_canon _ _ _ _ _ _ _ Hloop Er3 Hc ltac:(lia)).
  - clear - Hloop. remember (S (length pubkey)) as f eqn:Ef. clear Ef.
    revert Hloop. generalize (a3 + n3) as s. induction f as [|f IH]; intros s H.
    + cbn [shadow_loop] in H.
      destruct (byte_eqb (peek pubkey s) ")") eqn:E; cbn [negb] in H;
        [|discriminate].
      injection H as <-. now apply byte_eqb_eq.
    + destruct (byte_eqb (peek pubkey s) ")") eqn:E.
      * apply byte_eqb_eq in E. rewrite (shadow_loop_stop _ _ _ E) in H.
        injection H as <-. exact E.
      * apply byte_eqb_neq in E.
        destruct (shadow_loop_step _ _ _ _ H E)
          as (f0 & n & a & n2 & a2 & Ef & _ & _ & _ & _ & _ & _ & Hrec).
        injection Ef as <-. exact (IH _ Hrec).
Qed.

(** X14.  When [agent_shadow_key] succeeds, the insertion point lies
    inside the canonical value of the public key, so that the lengths of
    the two spans copied from the key are what the code computes.  The
    bytes written are [(20:shadowed-private-key], the key from offset 14
    up to the point, [(8:shadowed5:t1-v1], the shadow information, a close
    paren and the rest of the key; they number three less than the bytes
    allocated, and the block returned ends with three bytes that were
    never written. *)
Theorem agent_shadow_key_layout
        (e : Env) (pubkey shadow_info : list byte) (o : cptr) (block : list byte) :
  agent_shadow_key e pubkey shadow_info o = (None, Ptr block) ->
  let pubkey_len := gcry_sexp_canon_len pubkey 0 in
  let shadow_info_len := gcry_sexp_canon_len shadow_info 0 in
  exists point,
    agent_shadow_point pubkey = Ok point
    /\ 18 <= point /\ point + 2 <= pubkey_len
    /\ let written :=
         lit "(20:shadowed-private-key" ++ read_bytes pubkey 14 (point - 14)
         ++ lit "(8:shadowed5:t1-v1" ++ read_bytes shadow_info 0 shadow_info_len
         ++ lit ")" ++ read_bytes pubkey point (pubkey_len - point) in
       length written = pubkey_len + shadow_info_len + 29
       /\ length block = pubkey_len + shadow_info_len + 32
       /\ block = written ++ map (uninit e) (seq (length written) 3).
Proof.
  intros H plen slen. unfold agent_shadow_key in H. fold plen slen in H.
  destruct (plen =? 0) eqn:ZP; [discriminate|].
  destruct (slen =? 0) eqn:ZS; [discriminate|].
  cbn [orb] in H. apply Nat.eqb_neq in ZP, ZS.
  destruct (agent_shadow_point pubkey) as [point|] eqn:Hpoint; [|discriminate].
  destruct (xtrymalloc_ok e _); [|discriminate].
  destruct (agent_shadow_point_bounds _ _ Hpoint ZP) as (_ & B1 & B2 & _).
  fold plen in B2.
  exists point. split; [reflexivity|]. split; [exact B1|]. split; [exact B2|].
  cbv zeta.
  match type of H with
  | (None, Ptr ?x) = _ => assert (Eb : block = x) by congruence
  end.
  clear H.
  assert (Hlen : length (lit "(20:shadowed-private-key"
                         ++ read_bytes pubkey 14 (point - 14)
                         ++ lit "(8:shadowed5:t1-v1"
                         ++ read_bytes shadow_info 0 slen
                         ++ lit ")" ++ read_bytes pubkey point (plen - point))
                 = plen + slen + 29).
  { rewrite !length_app, !length_read_bytes.
    change (length (lit "(20:shadowed-private-key")) with 24.
    change (length (lit "(8:shadowed5:t1-v1")) with 18.
    change (length (lit ")")) with 1. lia. }
  split; [exact Hlen|].
  assert (Eb' : block
                = heap_block e (plen + slen + 32)
                    (lit "(20:shadowed-private-key"
                     ++ read_bytes pubkey 14 (point - 14)
                     ++ lit "(8:shadowed5:t1-v1"
                     ++ read_bytes shadow_info 0 slen
                     ++ lit ")" ++ read_bytes pubkey point (plen - point))).
  { rewrite Eb. rewrite <- !app_assoc.
    change (0 + 14) with 14. rewrite Nat.sub_0_r.
    change [")"] with (lit ")"). f_equal. lia. }
  rewrite Eb'. unfold heap_block. rewrite Hlen.
  replace (plen + slen + 32 - (plen + slen + 29)) with 3 by lia.
  split; [|reflexivity].
  rewrite length_app, Hlen, length_map, length_seq. lia.
Qed.

Lemma agent_shadow_key_layout_S4 :
  let pubkey_len := gcry_sexp_canon_len pubkey_S4 0 in
  let shadow_info_len := gcry_sexp_canon_len shadow_info_S4 0 in
  exists point,
    agent_shadow_point pubkey_S4 = Ok point
    /\ 18 <= point /\ point + 2 <= pubkey_len
    /\ let written :=
         lit "(20:shadowed-private-key" ++ read_bytes pubkey_S4 14 (point - 14)
         ++ lit "(8:shadowed5:t1-v1" ++ read_bytes shadow_info_S4 0 shadow_info_len
         ++ lit ")" ++ read_bytes pubkey_S4 point (pubkey_len - point) in
       length written = pubkey_len + shadow_info_len + 29
       /\ length (match snd (agent_shadow_key quiet_env pubkey_S4 shadow_info_S4
                                              NullPtr)
                  with Ptr block => block | NullPtr => [] end)
          = pubkey_len + shadow_info_len + 32
       /\ match snd (agent_shadow_key quiet_env pubkey_S4 shadow_info_S4 NullPtr)
          with Ptr block => block | NullPtr => [] end
          = written ++ map (uninit quiet_env) (seq (length written) 3).
Proof.
  apply (agent_shadow_key_layout quiet_env pubkey_S4 shadow_info_S4 NullPtr).
  vm_compute. reflexivity.
Defined.

(** ** What the parsers of the other operations return *)



Lemma agent_shadow_point_error (pubkey : list byte) (rc : gnupg_error) :
  agent_shadow_point pubkey = Err rc ->
  rc = GNUPG_Invalid_Sexp \/ rc = GNUPG_Unknown_Sexp.
Proof.
  unfold agent_shadow_point.
  destruct (byte_eqb (peek pubkey 0) "("); [|intro H; injection H as <-; auto].
  destruct (snext pubkey 1) as [n a0].
  destruct (negb (n =? 0)); [|intro H; injection H as <-; auto].
  destruct (smatch pubkey a0 n (lit "public-key")) as [m s2].
  destruct m; cbn [negb]; [|intro H; injection H as <-; auto].
  destruct (byte_eqb (peek pubkey s2) "("); [|intro H; injection H as <-; auto].
  destruct (snext pubkey (S s2)) as [n3 a3].
  destruct (negb (n3 =? 0)); [|intro H; injection H as <-; auto].
  intro H. destruct (shadow_loop_error _ _ _ _ H) as [->| ->]; [auto|].
  exfalso. apply (shadow_loop_returns (S (length pubkey)) pubkey (a3 + n3));
    [lia|exact H].
Qed.

(** X16.  The errors of [agent_shadow_key] and what causes them:
    [GNUPG_Invalid_Value] when the public key or the shadow information
    has no canonical length; otherwise [GNUPG_Invalid_Sexp] or
    [GNUPG_Unknown_Sexp] when the walk to the insertion point fails with
    that code; otherwise [GNUPG_Out_Of_Core] when the result buffer
    cannot be allocated.  No other error is returned. *)
Theorem agent_shadow_key_errors
        (e : Env) (pubkey shadow_info : list byte) (o o' : cptr)
        (rc : gnupg_error) :
  agent_shadow_key e pubkey shadow_info o = (Some rc, o') ->
  (rc = GNUPG_Invalid_Value /\ o' = o
   /\ (gcry_sexp_canon_len pubkey 0 = 0 \/ gcry_sexp_canon_len shadow_info 0 = 0))
  \/ ((rc = GNUPG_Invalid_Sexp \/ rc = GNUPG_Unknown_Sexp) /\ o' = o
      /\ gcry_sexp_canon_len pubkey 0 <> 0
      /\ gcry_sexp_canon_len shadow_info 0 <> 0
      /\ agent_shadow_point pubkey = Err rc)
  \/ (rc = GNUPG_Out_Of_Core /\ o' = NullPtr
      /\ xtrymalloc_ok e (gcry_sexp_canon_len pubkey 0
                          + gcry_sexp_canon_len shadow_info 0 + 32) = false).
Proof.
  unfold agent_shadow_key.
  destruct (gcry_sexp_canon_len pubkey 0 =? 0) eqn:ZP.
  { apply Nat.eqb_eq in ZP. cbn [orb]. intro H. injection H as <- <-. auto. }
  destruct (gcry_sexp_canon_len shadow_info 0 =? 0) eqn:ZS.
  { apply Nat.eqb_eq in ZS. cbn [orb]. intro H. injection H as <- <-. auto. }
  cbn [orb]. apply Nat.eqb_neq in ZP, ZS.
  destruct (agent_shadow_point pubkey) as [point|rc'] eqn:Hp.
  - destruct (xtrymalloc_ok e _) eqn:A; [discriminate|].
    intro H. injection H as <- <-. right. right.
    split; [reflexivity|]. split; [reflexivity|].
    rewrite <- A. f_equal. lia.
  - intro H. injection H as <- <-. right. left.
    pose proof (agent_shadow_point_error _ _ Hp). auto.
Qed.

Lemma agent_shadow_key_errors_private_key :
  (GNUPG_Unknown_Sexp = GNUPG_Invalid_Value /\ NullPtr = NullPtr
   /\ (gcry_sexp_canon_len key_S1 0 = 0 \/ gcry_sexp_canon_len shadow_info_S4 0 = 0))
  \/ ((GNUPG_Unknown_Sexp = GNUPG_Invalid_Sexp
       \/ GNUPG_Unknown_Sexp = GNUPG_Unknown_Sexp) /\ NullPtr = NullPtr
      /\ gcry_sexp_canon_len key_S1 0 <> 0
      /\ gcry_sexp_canon_len shadow_info_S4 0 <> 0
      /\ agent_shadow_point key_S1 = Err GNUPG_Unknown_Sexp)
  \/ (GNUPG_Unknown_Sexp = GNUPG_Out_Of_Core /\ NullPtr = NullPtr
      /\ xtrymalloc_ok quiet_env (gcry_sexp_canon_len key_S1 0
                                  + gcry_sexp_canon_len shadow_info_S4 0 + 32)
         = false).
Proof.
  apply (agent_shadow_key_errors quiet_env key_S1 shadow_info_S4 NullPtr NullPtr
           GNUPG_Unknown_Sexp).
  vm_compute. reflexivity.
Defined.


Lemma unprotect_protected_list_inv (b : list byte) (pb s : nat)
      (u : unprotect_scan) :
  unprotect_protected_list b pb s = Ok u ->
  u_prot_begin u = pb
  /\ s + 35 <= u_s2ksalt u /\ u_s2ksalt u + 10 <= u_iv u
  /\ peek b (u_iv u + 16) = ")" /\ u_iv u + 19 <= u_protected u
  /\ u_protected u <= length b
  /\ u_s2kcount u <> 0%Z /\ u_protectedlen u <> 0.
Proof.
  unfold unprotect_protected_list. intro H.
  destruct (snext b s) as [n a] eqn:E1.
  destruct (n =? 0) eqn:Z1; [discriminate|]. apply Nat.eqb_neq in Z1.
  cbn [negb] in H.
  destruct (smatch b a n modestr) as [m s1] eqn:E2. destruct m; [|discriminate].
  destruct (smatch_true_inv _ _ _ _ _ E2) as (_ & _ & ->).
  change (length modestr) with 25 in H.
  destruct (negb _ || negb _); [discriminate|]. cbn [negb] in H.
  destruct (snext b (a + 25 + 2)) as [n0 s3] eqn:E3.
  destruct (n0 =? 0) eqn:Z3; [discriminate|]. apply Nat.eqb_neq in Z3.
  cbn [negb] in H.
  destruct (smatch b s3 n0 (lit "sha1")) as [m s4] eqn:E4.
  destruct m; [|discriminate].
  destruct (smatch_true_inv _ _ _ _ _ E4) as (_ & _ & ->).
  change (length (lit "sha1")) with 4 in H.
  destruct (snext b (s3 + 4)) as [n1 s5] eqn:E5.
  destruct (n1 =? 8) eqn:Z5; [|discriminate]. apply Nat.eqb_eq in Z5. subst n1.
  destruct (snext b (s5 + 8)) as [n2 s7] eqn:E6.
  destruct (n2 =? 0) eqn:Z6; [discriminate|]. apply Nat.eqb_neq in Z6.
  cbn [negb] in H.
  destruct (byte_eqb (peek b (s7 + n2)) ")"); [|discriminate].
  destruct (strtoul b s7 =? 0)%Z eqn:Zc; [discriminate|].
  apply Z.eqb_neq in Zc. cbn [negb] in H.
  destruct (snext b (S (s7 + n2))) as [n3 s10] eqn:E7.
  destruct (n3 =? 16) eqn:Z7; [|discriminate]. apply Nat.eqb_eq in Z7. subst n3.
  destruct (byte_eqb (peek b (s10 + 16)) ")") eqn:E8; [|discriminate].
  apply byte_eqb_eq in E8.
  destruct (snext b (S (s10 + 16))) as [n4 s13] eqn:E9.
  destruct (n4 =? 0) eqn:Z9; [discriminate|]. apply Nat.eqb_neq in Z9.
  cbn [negb] in H. injection H as <-.
  cbn [u_prot_begin u_s2ksalt u_iv u_protected u_s2kcount u_protectedlen].
  pose proof (snext_two_bytes _ _ _ _ E1 Z1).
  pose proof (snext_two_bytes _ _ _ _ E3 Z3).
  pose proof (snext_two_bytes _ _ _ _ E5 ltac:(discriminate)).
  pose proof (snext_two_bytes _ _ _ _ E6 Z6).
  pose proof (snext_two_bytes _ _ _ _ E7 ltac:(discriminate)).
  pose proof (snext_two_bytes _ _ _ _ E9 Z9).
  destruct (snext_in_buffer _ _ _ _ E9 Z9).
  repeat split; try assumption; lia.
Qed.



(** ** has_option *)

Lemma strlen_le (l : list byte) : strlen l <= length l.
Proof.
  induction l as [|c l IH]; [reflexivity|]. cbn [strlen length].
  destruct (byte_eqb c NUL); lia.
Qed.

Lemma peek_strlen (l : list byte) : peek l (strlen l) = NUL.
Proof.
  induction l as [|c l IH]; [reflexivity|]. cbn [strlen].
  destruct (byte_eqb c NUL) eqn:E; [now apply byte_eqb_eq in E|exact IH].
Qed.

Lemma length_cstring (l : list byte) : length (cstring l) = strlen l.
Proof. unfold cstring. rewrite length_firstn. pose proof (strlen_le l). lia. Qed.

Lemma peek_cstring (l : list byte) (i : nat) :
  i < strlen l -> peek (cstring l) i = peek l i.
Proof.
  intro H. unfold cstring. pose proof (strlen_le l).
  transitivity (peek (firstn (strlen l) l ++ skipn (strlen l) l) i).
  - symmetry. apply peek_app_l. rewrite length_firstn. lia.
  - now rewrite firstn_skipn.
Qed.

Lemma cstring_no_NUL (x y : list byte) :
  no_NUL x -> cstring (x ++ y) = x ++ cstring y.
Proof.
  unfold cstring. induction 1 as [|c x Hc Hx IH]; [reflexivity|].
  cbn [app strlen]. apply byte_eqb_neq in Hc. rewrite Hc.
  cbn [firstn]. now rewrite IH.
Qed.

Lemma cstring_self (x : list byte) : no_NUL x -> cstring x = x.
Proof.
  intro H. rewrite <- (List.app_nil_r x) at 1.
  rewrite (cstring_no_NUL x [] H). apply List.app_nil_r.
Qed.

Lemma is_prefix_app (x r : list byte) : is_prefix x (x ++ r) = true.
Proof.
  induction x as [|c x IH]; [reflexivity|].
  cbn [app is_prefix]. now rewrite byte_eqb_refl, IH.
Qed.

Lemma is_prefix_inv (x l : list byte) :
  is_prefix x l = true -> exists r, l = x ++ r.
Proof.
  revert l; induction x as [|c x IH]; intros l H.
  - exists l. reflexivity.
  - destruct l as [|c' l]; [discriminate|]. cbn [is_prefix] in H.
    apply andb_prop in H as [H1 H2]. apply byte_eqb_eq in H1. subst c'.
    destruct (IH _ H2) as [r ->]. exists r. reflexivity.
Qed.

(** What [strstr] returns is the first place at which the needle
    stands. *)
Lemma strstr_from_spec (needle : list byte) :
  forall l i s,
    strstr_from l needle i = Some s ->
    exists pre post,
      l = pre ++ needle ++ post /\ s = i + length pre
      /\ forall pre' post', l = pre' ++ needle ++ post' ->
                            length pre <= length pre'.
Proof.
  induction l as [|c l IH]; intros i s; cbn [strstr_from].
  - destruct (is_prefix needle []) eqn:E; [|discriminate].
    intro H. injection H as <-. apply is_prefix_inv in E as [r E].
    exists [], r. split; [exact E|]. split; [cbn; lia|]. intros; cbn; lia.
  - destruct (is_prefix needle (c :: l)) eqn:E.
    + intro H. injection H as <-. apply is_prefix_inv in E as [r E].
      exists [], r. split; [exact E|]. split; [cbn; lia|]. intros; cbn; lia.
    + intro H. destruct (IH _ _ H) as (pre & post & -> & -> & Hmin).
      exists (c :: pre), post. split; [reflexivity|]. split; [cbn; lia|].
      intros pre' post' E'. destruct pre' as [|c' pre'].
      * cbn [app] in E'. rewrite E', is_prefix_app in E. discriminate.
      * cbn [app] in E'. injection E' as <- E'. cbn [length].
        apply le_n_S. exact (Hmin _ _ E').
Qed.

Lemma strstr_from_first (needle : list byte) :
  forall pre post i,
    (forall pre' post', pre ++ needle ++ post = pre' ++ needle ++ post' ->
                        length pre <= length pre') ->
    strstr_from (pre ++ needle ++ post) needle i = Some (i + length pre).
Proof.
  induction pre as [|c pre IH]; intros post i Hmin.
  - cbn [app length]. rewrite Nat.add_0_r.
    destruct (needle ++ post) as [|c l] eqn:E; cbn [strstr_from];
      rewrite <- E, is_prefix_app; reflexivity.
  - cbn [app strstr_from].
    destruct (is_prefix needle (c :: pre ++ needle ++ post)) eqn:E.
    + apply is_prefix_inv in E as [r E].
      specialize (Hmin [] r E). cbn [length] in Hmin. lia.
    + rewrite IH; [f_equal; cbn [length]; lia|].
      intros pre' post' E'.
      specialize (Hmin (c :: pre') post'). cbn [app length] in Hmin.
      rewrite E' in Hmin. specialize (Hmin eq_refl). lia.
Qed.

Lemma peek_last (c : byte) (pre : list byte) :
  peek (c :: pre) (length pre) = last (c :: pre) NUL.
Proof.
  revert c; induction pre as [|c' pre IH]; intro c; [reflexivity|].
  cbn [length]. change (peek (c :: c' :: pre) (S (length pre)))
    with (peek (c' :: pre) (length pre)).
  rewrite IH. reflexivity.
Qed.

Lemma cstring_no_NUL_all (l : list byte) : no_NUL (cstring l).
Proof.
  unfold cstring. induction l as [|c l IH]; [constructor|].
  cbn [strlen]. destruct (byte_eqb c NUL) eqn:E; [constructor|].
  cbn [firstn]. constructor; [now apply byte_eqb_neq|exact IH].
Qed.

(** The two characters [has_option] looks at, once the name has been
    found after [pre]. *)
Lemma has_option_before (line name pre post : list byte) (c : byte) :
  cstring line = (pre ++ [c]) ++ cstring name ++ post ->
  peek line (length (pre ++ [c]) - 1) = c.
Proof.
  intro El.
  assert (Hlen : strlen line = length (pre ++ [c]) + strlen name + length post).
  { rewrite <- (length_cstring line), El, !length_app, length_cstring. lia. }
  rewrite length_app in *. cbn [length] in *.
  rewrite <- (peek_cstring line) by lia.
  rewrite El, peek_app_l by (rewrite length_app; cbn [length]; lia).
  rewrite peek_app_r by lia.
  replace (length pre + 1 - 1 - length pre) with 0 by lia. reflexivity.
Qed.

Lemma has_option_after (line name pre post : list byte) :
  cstring line = pre ++ cstring name ++ post ->
  peek line (length pre + strlen name) = hd NUL post.
Proof.
  intro El.
  assert (Hlen : strlen line = length pre + strlen name + length post).
  { rewrite <- (length_cstring line), El, !length_app, length_cstring. lia. }
  destruct post as [|c post].
  - cbn [length] in Hlen. rewrite Nat.add_0_r in Hlen. rewrite <- Hlen.
    apply peek_strlen.
  - cbn [length] in Hlen. rewrite <- (peek_cstring line) by lia.
    rewrite El, peek_app_r by lia.
    rewrite peek_app_r by (rewrite length_cstring; lia).
    rewrite length_cstring.
    replace (length pre + strlen name - length pre - strlen name) with 0 by lia.
    reflexivity.
Qed.

(** X18.  [has_option] answers yes exactly when the first place of the
    line at which the characters of the name stand is a word of its own:
    the characters of the line are some [pre], the name and some [post],
    no earlier place of the line holds the name, [pre] is empty or ends
    with a character that [spacep] accepts and [post] is empty or starts
    with one.  A later occurrence of the name is never looked at. *)
Theorem has_option_first_occurrence
        (spacep : byte -> bool) (line name : list byte) :
  has_option spacep line name = true <->
  exists pre post,
    cstring line = pre ++ cstring name ++ post
    /\ (forall pre' post', cstring line = pre' ++ cstring name ++ post' ->
                           length pre <= length pre')
    /\ (pre = [] \/ spacep (last pre NUL) = true)
    /\ (post = [] \/ spacep (hd NUL post) = true).
Proof.
  unfold has_option, strstr. split.
  - intro H.
    destruct (strstr_from (cstring line) (cstring name) 0) as [s|] eqn:E;
      [|discriminate].
    destruct (strstr_from_spec _ _ _ _ E) as (pre & post & El & -> & Hmin).
    cbn [Nat.add] in H. apply andb_prop in H as [H1 H2].
    exists pre, post. split; [exact El|]. split; [exact Hmin|]. split.
    + destruct pre as [|c pre] using rev_ind; [now left|right].
      clear IHpre. rewrite last_last.
      apply orb_prop in H1 as [H1|H1].
      * rewrite length_app in H1. cbn [length] in H1.
        apply Nat.eqb_eq in H1. lia.
      * now rewrite (has_option_before _ _ _ _ _ El) in H1.
    + rewrite (has_option_after _ _ _ _ El) in H2.
      destruct post as [|c post]; [now left|right]. cbn [hd] in *.
      apply orb_prop in H2 as [H2|H2]; [|exact H2].
      apply byte_eqb_eq in H2. subst c. exfalso.
      pose proof (cstring_no_NUL_all line) as N.
      rewrite El in N. unfold no_NUL in N.
      rewrite !Forall_app in N. destruct N as (_ & _ & N).
      inversion N as [|? ? N1 _]. now apply N1.
  - intros (pre & post & El & Hmin & Hpre & Hpost).
    rewrite El at 1. rewrite strstr_from_first
      by (intros pre' post' E'; apply (Hmin pre' post'); now rewrite El).
    cbn [Nat.add]. apply andb_true_intro. split.
    + destruct Hpre as [->|Hpre]; [reflexivity|].
      destruct pre as [|c pre] using rev_ind; [reflexivity|].
      clear IHpre. rewrite last_last in Hpre.
      rewrite (has_option_before _ _ _ _ _ El), Hpre. apply orb_true_r.
    + rewrite (has_option_after _ _ _ _ El).
      destruct Hpost as [->|Hpost]; [reflexivity|].
      rewrite Hpost. apply orb_true_r.
Qed.

Lemma has_option_first_occurrence_force :
  exists pre post,
    cstring (lit "LEARN --force") = pre ++ cstring (lit "--force") ++ post
    /\ (forall pre' post',
           cstring (lit "LEARN --force")
           = pre' ++ cstring (lit "--force") ++ post' ->
           length pre <= length pre')
    /\ (pre = [] \/ blank_or_tab (last pre NUL) = true)
    /\ (post = [] \/ blank_or_tab (hd NUL post) = true).
Proof.
  apply (proj1 (has_option_first_occurrence
                  blank_or_tab (lit "LEARN --force") (lit "--force"))).
  vm_compute. reflexivity.
Defined.

(** ** What follows the key in the buffer *)

Lemma do_encryption_app {G : Gcrypt} (e : Env) (K junk : list byte)
      (pb protlen : nat) (pw h : list byte) :
  pb + protlen <= length K ->
  do_encryption e (K ++ junk, pb) protlen pw h
  = do_encryption e (K, pb) protlen pw h.
Proof.
  intro H. unfold do_encryption. cbn [fst snd].
  rewrite read_bytes_app_l by lia. reflexivity.
Qed.

(** X19.  [agent_protect] looks at the key only: for a key its scan
    accepts, the scan finds the same offsets and [agent_protect] returns
    the same code and the same buffer when further bytes follow the key
    in the input buffer.  None of these bytes reaches the result. *)
Theorem agent_protect_ignores_trailing_bytes
        {G : Gcrypt} (e : Env) (K junk pw : list byte) (o : cptr * nat)
        (sc : protect_scan) :
  agent_protect_scan K = Ok sc ->
  agent_protect_scan (K ++ junk) = Ok sc
  /\ agent_protect e (K ++ junk) pw o = agent_protect e K pw o.
Proof.
  intro Hscan.
  destruct (agent_protect_scan_inv _ _ Hscan) as (a0 & a3 & e' & L).
  pose proof (key_layout_sizes _ _ _ _ _ _ L) as (S1 & S2 & S3 & S4 & S5 & S6).
  pose proof (kl_hash_begin _ _ _ _ _ _ L) as Hb.
  pose proof (kl_hash_end _ _ _ _ _ _ L) as He.
  pose proof (kl_real_end _ _ _ _ _ _ L) as Hr.
  assert (L' : key_layout false (K ++ junk) a0 a3 e' sc).
  { apply (key_layout_same false K (K ++ junk) a0 a3 e' sc L).
    - apply read_bytes_app_l. lia.
    - rewrite length_app. lia. }
  assert (Hscan' : agent_protect_scan (K ++ junk) = Ok sc).
  { exact (agent_protect_scan_of_layout false _ _ _ _ _ L' Hb He Hr). }
  split; [exact Hscan'|].
  unfold agent_protect. rewrite Hscan, Hscan'.
  rewrite do_encryption_app by lia.
  unfold protect_mic. rewrite (read_bytes_app_l K junk (hash_begin sc)) by lia.
  rewrite (read_bytes_app_l K junk 4) by lia.
  rewrite (read_bytes_app_l K junk (prot_end sc + 1)) by lia.
  reflexivity.
Qed.

Lemma agent_protect_ignores_trailing_bytes_S1 :
  agent_protect_scan (key_S1 ++ lit "trailing bytes")
  = Ok {| hash_begin := 15; hash_end := 69; prot_begin := 37;
          prot_end := 68; real_end := 70 |}
  /\ agent_protect (G := toy_gcrypt) quiet_env
       (key_S1 ++ lit "trailing bytes") (lit "abc") no_out
     = agent_protect (G := toy_gcrypt) quiet_env key_S1 (lit "abc") no_out.
Proof.
  apply (agent_protect_ignores_trailing_bytes (G := toy_gcrypt)).
  vm_compute. reflexivity.
Defined.

(** ** The key [agent_unprotect] returns *)

Lemma calculate_mic_clear {G : Gcrypt} (b h : list byte) :
  calculate_mic b = Ok h -> agent_private_key_type b = PRIVATE_KEY_CLEAR.
Proof.
  intro H. unfold calculate_mic in H.
  destruct (mic_span b) as [[hb he]|] eqn:E; [|discriminate]. clear H.
  unfold mic_span in E.
  destruct (byte_eqb (peek b 0) "(") eqn:E0; [|discriminate].
  destruct (snext b 1) as [n a0] eqn:E1.
  destruct (n =? 0) eqn:Z1; [discriminate|]. cbn [negb] in E.
  destruct (smatch b a0 n (lit "private-key")) as [m s2] eqn:E2.
  destruct m; [|discriminate].
  destruct (smatch_true_inv _ _ _ _ _ E2) as (En & Hb & _).
  change (length (lit "private-key")) with 11 in En. subst n.
  apply byte_eqb_eq in E0.
  apply (agent_private_key_type_atom b 11 a0 E0 E1 ltac:(discriminate));
    [exact Hb|reflexivity].
Qed.

(** The head of the list [merge_lists] builds. *)
Lemma merge_lists_head (e : Env) (b : list byte) (pos : nat)
      (c sha final : list byte) :
  merge_lists e b pos c = Ok (sha, final) ->
  26 <= pos
  /\ bytes_at final 0 (lit "(11:private-key")
  /\ read_bytes final 15 (pos - 25) = read_bytes b 25 (pos - 25)
  /\ gcry_sexp_canon_len b 0 + gcry_sexp_canon_len c 0 <= length final.
Proof.
  unfold merge_lists. intro H.
  destruct (pos <? 26) eqn:E1; [discriminate|]. apply Nat.ltb_ge in E1.
  cbn [negb] in H.
  repeat (cbv beta zeta in H;
          match type of H with
          | (if ?t then _ else _) = _ =>
              destruct t eqn:?; [|discriminate]
          | bind ?r _ = _ =>
              destruct r as [?|] eqn:?; [|discriminate]; cbn [bind] in H
          | (let '(_, _) := ?x in _) = _ => destruct x eqn:?
          end).
  match type of H with
  | Ok (_, heap_block e ?n ?w) = _ =>
      assert (Ef : final = heap_block e n w) by congruence;
      pose proof (heap_block_prefix e n w) as P;
      assert (Q : n <= length (heap_block e n w))
        by (unfold heap_block; rewrite length_app, length_map, length_seq; lia);
      change (bytes_at (heap_block e n w) 0 w) in P
  end.
  rewrite <- Ef in P, Q. clear H Ef.
  split; [exact E1|].
  apply bytes_at_app in P as [P _]. apply bytes_at_app in P as [P _].
  apply bytes_at_app in P as [P1 P2].
  split; [exact P1|]. split; [|exact Q].
  unfold bytes_at in P2. rewrite length_read_bytes in P2.
  change (0 + length (lit "(11:private-key")) with 15 in P2.
  change (15 + 10) with 25 in P2.
  replace (pos - 15 - 10) with (pos - 25) in P2 by lia. exact P2.
Qed.

(** X20.  What [agent_unprotect] returns is a clear private key: the
    block starts with [(11:private-key], it carries the bytes of the
    protected key from offset 25 up to the list named [protected]
    unchanged from its offset 15 on, [calculate_mic] succeeds on it and
    [agent_private_key_type] classifies it as clear.  The length stored
    is the canonical length of the block. *)
Theorem agent_unprotect_result_is_clear
        {G : Gcrypt} (e : Env) (b pw : list byte) (o out : cptr * nat) :
  agent_unprotect e b pw o = (None, out) ->
  exists final pb s,
    out = (Ptr final, gcry_sexp_canon_len final 0)
    /\ unprotect_find b = Ok (pb, s)
    /\ bytes_at final 0 (lit "(11:private-key")
    /\ read_bytes final 15 (pb - 25) = read_bytes b 25 (pb - 25)
    /\ agent_private_key_type final = PRIVATE_KEY_CLEAR
    /\ exists h, calculate_mic final = Ok h.
Proof.
  intro H. unfold agent_unprotect in H.
  destruct (agent_unprotect_final e b pw) as [final|] eqn:E; [|discriminate].
  injection H as <-.
  unfold agent_unprotect_final, agent_unprotect_scan in E.
  destruct (unprotect_find b) as [[pb s]|] eqn:Ef; [|discriminate].
  cbn [bind] in E.
  destruct (unprotect_protected_list b pb s) as [u|] eqn:Eu; [|discriminate].
  cbn [bind] in E.
  destruct (unprotect_protected_list_inv _ _ _ _ Eu) as (Hpb & _).
  destruct (do_decryption _ _ _ _ _ _ _ _) as [c|]; [|discriminate].
  cbn [bind] in E.
  destruct (merge_lists e b (u_prot_begin u - 0) c) as [[sha f]|] eqn:Em;
    [|discriminate].
  cbn [bind] in E.
  destruct (calculate_mic f) as [h|] eqn:Eh; [|discriminate].
  cbn [bind] in E.
  destruct (bytes_eqb _ _); [|discriminate]. injection E as <-.
  rewrite Nat.sub_0_r, Hpb in Em.
  destruct (merge_lists_head _ _ _ _ _ _ Em) as (_ & H1 & H2 & _).
  exists f, pb, s. split; [reflexivity|]. split; [reflexivity|].
  split; [exact H1|]. split; [exact H2|].
  split; [exact (calculate_mic_clear _ _ Eh)|]. exists h. exact Eh.
Qed.

Lemma agent_unprotect_result_is_clear_S1 :
  exists final pb s,
    snd (agent_unprotect (G := toy_gcrypt) quiet_env
           (returned_buffer protected_S1) (lit "abc") no_out)
    = (Ptr final, gcry_sexp_canon_len final 0)
    /\ unprotect_find (returned_buffer protected_S1) = Ok (pb, s)
    /\ bytes_at final 0 (lit "(11:private-key")
    /\ read_bytes final 15 (pb - 25)
       = read_bytes (returned_buffer protected_S1) 25 (pb - 25)
    /\ agent_private_key_type final = PRIVATE_KEY_CLEAR
    /\ exists h, calculate_mic (G := toy_gcrypt) final = Ok h.
Proof.
  apply (agent_unprotect_result_is_clear (G := toy_gcrypt) quiet_env
           (returned_buffer protected_S1) (lit "abc") no_out
           (snd (agent_unprotect (G := toy_gcrypt) quiet_env
                   (returned_buffer protected_S1) (lit "abc") no_out))).
  vm_compute. reflexivity.
Defined.

(** ** Length prefixes with leading zeros *)




